(** * GL tessellation example: a shallow embedding of [main.cpp]

    The program opens an SDL window with an OpenGL 4.1 core context, fills a
    vector with one [QuadVertex] per grid cell, uploads it, builds a three
    stage shader program and then draws the grid twice per frame (filled and
    as wireframe) until a quit event arrives.

    The embedding keeps the shape of the source:
    - [GLfloat] is IEEE-754 binary32, taken from the Standard Library's
      [SpecFloat] at precision 24 and maximal exponent 128, every operation
      rounded to nearest-even on its own;
    - [int], [size_t], [GLuint], [GLubyte] are [Z] or [nat] with the
      conversions written out;
    - the file-scope statics [window] and [context], the state of [rand]
      and the calls made to SDL and OpenGL live in a [World] that is threaded
      through a small state monad;
    - what the outside world answers (handles, compile status, events, the
      clock) is read from an [Env]. *)

From Stdlib Require Import ZArith QArith Qpower Qabs Qround List Bool Lia.
From Stdlib Require Import Lqa String.
From Stdlib Require Import Floats.SpecFloat.
Import ListNotations.

Local Open Scope Z_scope.

(** ** Single precision floats *)

(** The power of two [2^e] as a rational. *)
Definition bpow (e : Z) : Q := (2 ^ e)%Q.

Module F32.

Definition prec : Z := 24.
Definition emax : Z := 128.

Definition t : Type := spec_float.

Definition add : t -> t -> t := SFadd prec emax.
Definition sub : t -> t -> t := SFsub prec emax.
Definition mul : t -> t -> t := SFmul prec emax.
Definition div : t -> t -> t := SFdiv prec emax.

Definition ltb : t -> t -> bool := SFltb.
Definition leb : t -> t -> bool := SFleb.

(** Conversion of an integer ([int], [size_t]) to [float]. *)
Definition of_Z (z : Z) : t := binary_normalize prec emax z 0 false.

(** The float literal written [n/d] in decimal: the quotient of two
    exactly representable integers, rounded once. *)
Definition lit (n d : Z) : t := div (of_Z n) (of_Z d).

Definition zero : t := S754_zero false.
Definition one : t := S754_finite false 8388608 (-23).
Definition two : t := S754_finite false 8388608 (-22).
Definition half : t := S754_finite false 8388608 (-24).
Definition tenth : t := S754_finite false 13421773 (-27).
Definition c0_05 : t := S754_finite false 13421773 (-28).
Definition c0_04 : t := S754_finite false 10737418 (-28).
Definition c0_09 : t := S754_finite false 12079596 (-27).

(** The rational value of a float (infinities and NaN are sent to 0 and
    are excluded separately by [finite]). *)
Definition to_Q (f : t) : Q :=
  match f with
  | S754_finite s m e =>
      ((if s then inject_Z (Zneg m) else inject_Z (Zpos m)) * bpow e)%Q
  | _ => 0%Q
  end.

Definition finite (f : t) : bool :=
  match f with
  | S754_finite _ m e => bounded prec emax m e
  | S754_zero _ => true
  | _ => false
  end.

End F32.

Definition GLfloat : Type := F32.t.

(** ** Types of the two libraries *)

Definition handle : Type := Z.          (* a pointer; [nullptr] is 0 *)
Definition nullptr : handle := 0.
Definition GLuint : Type := Z.
Definition GLint : Type := Z.

(** [GLubyte(v)]: conversion of an [int] to an unsigned byte. *)
Definition GLubyte (v : Z) : Z := v mod 256.

Inductive ShaderType : Type :=
| GL_VERTEX_SHADER
| GL_TESS_EVALUATION_SHADER
| GL_FRAGMENT_SHADER.

(** The three embedded GLSL texts, by the name of the array that holds
    them. *)
Inductive ShaderSource : Type :=
| VertexShaderSource
| TessEvaluationShaderSource
| FragmentShaderSource.

Inductive PolygonMode : Type := GL_FILL | GL_LINE.

Inductive PatchLevel : Type :=
| GL_PATCH_DEFAULT_INNER_LEVEL
| GL_PATCH_DEFAULT_OUTER_LEVEL.

Inductive AttribType : Type := GL_FLOAT | GL_UNSIGNED_BYTE.

Inductive SDL_GLattr : Type :=
| SDL_GL_CONTEXT_MAJOR_VERSION
| SDL_GL_CONTEXT_MINOR_VERSION
| SDL_GL_CONTEXT_PROFILE_MASK.

Definition SDL_GL_CONTEXT_PROFILE_CORE : Z := 1.

Definition SDL_INIT_TIMER : Z := 0x1.
Definition SDL_INIT_VIDEO : Z := 0x20.
Definition SDL_INIT_EVENTS : Z := 0x4000.
Definition SDL_INIT_EVERYTHING : Z := 0xF231.

(** The clear mask [GL_COLOR_BUFFER_BIT | GL_DEPTH_BUFFER_BIT |
    GL_STENCIL_BUFFER_BIT]. *)
Definition GL_COLOR_BUFFER_BIT : Z := 0x4000.
Definition GL_DEPTH_BUFFER_BIT : Z := 0x100.
Definition GL_STENCIL_BUFFER_BIT : Z := 0x400.

Inductive WindowEventID : Type :=
| SDL_WINDOWEVENT_RESIZED
| SDL_WINDOWEVENT_other (id : Z).

(** [SDL_Event]: the union is read through [e.type]; the program looks at
    two of its alternatives. *)
Inductive SDL_Event : Type :=
| SDL_WINDOWEVENT (event : WindowEventID) (data1 data2 : Z)
| SDL_QUIT
| SDL_other (type : Z).

(** Structure for per-quad vertex attributes. *)
Module QuadVertex.
Record t : Type := make {
  x : GLfloat;
  y : GLfloat;
  size : GLfloat;
  r : Z;
  g : Z;
  b : Z;
  a : Z
}.
(** [QuadVertex quad = {}] *)
Definition zero : t := make F32.zero F32.zero F32.zero 0 0 0 0.
Definition sizeof : Z := 16.
Definition offsetof_x : Z := 0.
Definition offsetof_size : Z := 8.
Definition offsetof_r : Z := 12.
End QuadVertex.

(** ** The calls the program makes

    Every call into SDL or OpenGL is recorded, with its arguments, in the
    order it is made. *)
Module Log.
Inductive call : Type :=
| SDL_InitSubSystem (flags : Z)
| SDL_Log (fmt : string)
| SDL_GL_SetAttribute (attr : SDL_GLattr) (value : Z)
| SDL_CreateWindow (title : string) (w h : Z)
| SDL_ShowSimpleMessageBox (title : string) (parent : handle)
| SDL_GL_CreateContext (win : handle)
| SDL_GL_DeleteContext (ctx : handle)
| SDL_DestroyWindow (win : handle)
| SDL_WasInit (flags : Z)
| SDL_QuitSubSystem (flags : Z)
| SDL_GL_SwapWindow (win : handle)
| glGenVertexArrays (n : Z)
| glBindVertexArray (vao : GLuint)
| glGenBuffers (n : Z)
| glBindBuffer (buffer : GLuint)
| glBufferData (bytes : Z) (data : list QuadVertex.t)
| glVertexAttribPointer (index size : Z) (type : AttribType)
    (normalized : bool) (stride offset : Z)
| glEnableVertexAttribArray (index : Z)
| glCreateShader (type : ShaderType)
| glShaderSource (shader : GLuint) (src : ShaderSource)
| glCompileShader (shader : GLuint)
| glGetShaderiv (shader : GLuint)
| glGetShaderInfoLog (shader : GLuint) (bufSize : Z)
| glDeleteShader (shader : GLuint)
| glCreateProgram
| glAttachShader (program shader : GLuint)
| glLinkProgram (program : GLuint)
| glGetProgramiv (program : GLuint)
| glGetProgramInfoLog (program : GLuint) (bufSize : Z)
| glDeleteProgram (program : GLuint)
| glGetUniformLocation (program : GLuint) (name : string)
| glPatchParameterfv (pname : PatchLevel) (values : list GLfloat)
| glUseProgram (program : GLuint)
| glViewport (x y w h : Z)
| glClearColor (r g b a : GLfloat)
| glClear (mask : Z)
| glPatchParameteri (vertices : Z)
| glUniform3f (location : GLint) (v0 v1 v2 : GLfloat)
| glDrawArrays (first count : Z)
| glPolygonMode (mode : PolygonMode)
| glDeleteBuffers (buffer : GLuint)
| glDeleteVertexArrays (vao : GLuint).
End Log.

(** ** The world the program runs in *)

Record World : Type := mkWorld {
  window : handle;                 (* static SDL_Window *window *)
  context : handle;                (* static SDL_GLContext context *)
  rand_seed : Z;                   (* the seed last given to srand *)
  rand_calls : nat;                (* calls of rand since then *)
  subsystems : Z;                  (* SDL subsystems that are initialised *)
  events : list SDL_Event;         (* SDL's queue of pending events *)
  trace : list Log.call            (* calls made so far, oldest first *)
}.

Definition initial_world : World :=
  {| window := nullptr; context := nullptr; rand_seed := 1; rand_calls := 0;
     subsystems := 0; events := []; trace := [] |}.

(** What the environment answers. *)
Record Env : Type := mkEnv {
  time_now : Z;                          (* time(nullptr) *)
  init_status : Z;                       (* SDL_InitSubSystem *)
  subsystems_up : Z;                     (* what SDL_InitSubSystem brings up:
                                            on success the subsystems asked
                                            for and those they imply, on
                                            failure what SDL had brought up
                                            before and did not take down *)
  new_window : handle;                   (* SDL_CreateWindow *)
  new_context : handle;                  (* SDL_GL_CreateContext *)
  new_vao : GLuint;                      (* glGenVertexArrays *)
  new_vbo : GLuint;                      (* glGenBuffers *)
  new_shader : ShaderType -> GLuint;     (* glCreateShader *)
  compile_status : ShaderType -> bool;   (* GL_COMPILE_STATUS *)
  new_program : GLuint;                  (* glCreateProgram *)
  link_status : bool;                    (* GL_LINK_STATUS *)
  uniform_location : GLint;              (* glGetUniformLocation *)
  arrivals : list (list SDL_Event)       (* events that arrive before each
                                            pass of the frame loop *)
}.

(** ** A state monad over the world *)

Definition M (A : Type) : Type := World -> A * World.

Definition ret {A : Type} (a : A) : M A := fun w => (a, w).

Definition bind {A B : Type} (c : M A) (k : A -> M B) : M B :=
  fun w => let (a, w') := c w in k a w'.

Declare Scope monad_scope.
Delimit Scope monad_scope with monad.
Notation "x <- c ;; k" := (bind c (fun x => k))
  (at level 61, c at next level, right associativity) : monad_scope.
Notation "c ;; k" := (bind c (fun _ => k))
  (at level 61, right associativity) : monad_scope.
Local Open Scope monad_scope.

Definition get_window : M handle := fun w => (window w, w).
Definition get_context : M handle := fun w => (context w, w).

Definition set_window (h : handle) : M unit := fun w =>
  (tt, {| window := h; context := context w; rand_seed := rand_seed w;
          rand_calls := rand_calls w; subsystems := subsystems w;
          events := events w; trace := trace w |}).

Definition set_context (h : handle) : M unit := fun w =>
  (tt, {| window := window w; context := h; rand_seed := rand_seed w;
          rand_calls := rand_calls w; subsystems := subsystems w;
          events := events w; trace := trace w |}).

Definition set_subsystems (m : Z) : M unit := fun w =>
  (tt, {| window := window w; context := context w; rand_seed := rand_seed w;
          rand_calls := rand_calls w; subsystems := m;
          events := events w; trace := trace w |}).

Definition set_events (q : list SDL_Event) : M unit := fun w =>
  (tt, {| window := window w; context := context w; rand_seed := rand_seed w;
          rand_calls := rand_calls w; subsystems := subsystems w;
          events := q; trace := trace w |}).

(** Record one call. *)
Definition call (c : Log.call) : M unit := fun w =>
  (tt, {| window := window w; context := context w; rand_seed := rand_seed w;
          rand_calls := rand_calls w; subsystems := subsystems w;
          events := events w; trace := trace w ++ [c] |}).

(** [for (size_t i = 0; i < n; i++) body], threading the local [s]. *)
Fixpoint for_from {S : Type} (n i : nat) (body : nat -> S -> M S) (s : S)
  : M S :=
  match n with
  | O => ret s
  | Datatypes.S n' => s' <- body i s ;; for_from n' (Datatypes.S i) body s'
  end.

Definition for_ {S : Type} (n : nat) (body : nat -> S -> M S) (s : S) : M S :=
  for_from n 0 body s.

(** [for (x : xs) body]. *)
Fixpoint for_each {A : Type} (xs : list A) (body : A -> M unit) : M unit :=
  match xs with
  | [] => ret tt
  | x :: xs' => body x ;; for_each xs' body
  end.

(** ** The program *)

Definition kRows : nat := 10.
Definition kColumns : nat := 10.

Definition kInnerTessellationLevel : GLfloat := F32.one.
Definition kOuterTessellationLevel : GLfloat := F32.one.

Section Program.

(** [RAND_MAX] and the generator behind [rand] belong to the C library:
    [rand_sequence s n] is what the [n]-th call of [rand] returns after
    [srand(s)]. *)
Variable RAND_MAX : Z.
Variable rand_sequence : Z -> nat -> Z.
Variable env : Env.

(** *** The C library and SDL *)

Definition srand (seed : Z) : M unit := fun w =>
  (tt, {| window := window w; context := context w; rand_seed := seed;
          rand_calls := 0; subsystems := subsystems w;
          events := events w; trace := trace w |}).

Definition rand : M Z := fun w =>
  (rand_sequence (rand_seed w) (rand_calls w),
   {| window := window w; context := context w; rand_seed := rand_seed w;
      rand_calls := S (rand_calls w); subsystems := subsystems w;
      events := events w; trace := trace w |}).

(** [(unsigned) time(nullptr)] *)
Definition time_unsigned : Z := time_now env mod 2 ^ 32.

(** Which subsystems are up after the call is SDL's business: it also
    brings up the subsystems that the requested ones imply (the events
    subsystem for video), and what a failed call leaves up depends on the
    version of SDL. The environment says which. *)
Definition SDL_InitSubSystem (flags : Z) : M Z :=
  call (Log.SDL_InitSubSystem flags) ;;
  m <- (fun w => (subsystems w, w)) ;;
  set_subsystems (Z.lor m (subsystems_up env)) ;;
  ret (init_status env).

Definition SDL_WasInit (flags : Z) : M Z :=
  call (Log.SDL_WasInit flags) ;;
  m <- (fun w => (subsystems w, w)) ;;
  ret (Z.land m flags).

Definition SDL_QuitSubSystem (flags : Z) : M unit :=
  call (Log.SDL_QuitSubSystem flags) ;;
  m <- (fun w => (subsystems w, w)) ;;
  set_subsystems (Z.ldiff m flags).

Definition SDL_CreateWindow (title : string) (w h : Z) : M handle :=
  call (Log.SDL_CreateWindow title w h) ;;
  ret (new_window env).

Definition SDL_GL_CreateContext (win : handle) : M handle :=
  call (Log.SDL_GL_CreateContext win) ;;
  ret (new_context env).

(** The environment queues the events that arrived since the last pass. *)
Definition deliver (batch : list SDL_Event) : M unit :=
  q <- (fun w => (events w, w)) ;;
  set_events (q ++ batch).

(** *** OpenGL calls that answer *)

Definition glGenVertexArrays : M GLuint :=
  call (Log.glGenVertexArrays 1) ;; ret (new_vao env).

Definition glGenBuffers : M GLuint :=
  call (Log.glGenBuffers 1) ;; ret (new_vbo env).

Definition glCreateShader (type : ShaderType) : M GLuint :=
  call (Log.glCreateShader type) ;; ret (new_shader env type).

(** [glGetShaderiv(shader, GL_COMPILE_STATUS, &status)] for the shader that
    was created with [type]. *)
Definition glGetShaderiv (shader : GLuint) (type : ShaderType) : M bool :=
  call (Log.glGetShaderiv shader) ;; ret (compile_status env type).

Definition glCreateProgram : M GLuint :=
  call Log.glCreateProgram ;; ret (new_program env).

Definition glGetProgramiv (program : GLuint) : M bool :=
  call (Log.glGetProgramiv program) ;; ret (link_status env).

Definition glGetUniformLocation (program : GLuint) (name : string) : M GLint :=
  call (Log.glGetUniformLocation program name) ;; ret (uniform_location env).

(** *** [CreateShader] *)

Definition CreateShader (type : ShaderType) (src : ShaderSource) : M GLuint :=
  shader <- glCreateShader type ;;
  call (Log.glShaderSource shader src) ;;
  call (Log.glCompileShader shader) ;;
  status <- glGetShaderiv shader type ;;
  if negb status then
    call (Log.glGetShaderInfoLog shader 512) ;;
    win <- get_window ;;
    call (Log.SDL_ShowSimpleMessageBox "Shader compilation failed" win) ;;
    call (Log.glDeleteShader shader) ;;
    ret 0
  else
    ret shader.

(** *** [CreateShaderProgram] *)

Definition CreateShaderProgram (shaders : list GLuint) : M GLuint :=
  program <- glCreateProgram ;;
  for_each shaders (fun shader => call (Log.glAttachShader program shader)) ;;
  call (Log.glLinkProgram program) ;;
  status <- glGetProgramiv program ;;
  if negb status then
    call (Log.glGetProgramInfoLog program 512) ;;
    win <- get_window ;;
    call (Log.SDL_ShowSimpleMessageBox "Shader program link failed" win) ;;
    call (Log.glDeleteProgram program) ;;
    ret 0
  else
    ret program.

(** *** [HandleEvents]

    [poll_loop] is the [while (SDL_PollEvent(&e))] loop run on the pending
    queue: [SDL_PollEvent] takes the first event off the queue and answers
    0 when the queue is empty. It returns the value [HandleEvents] returns
    and the events it left in the queue. *)
Fixpoint poll_loop (queue : list SDL_Event) : M (bool * list SDL_Event) :=
  match queue with
  | [] => ret (true, [])
  | e :: rest =>
      match e with
      | SDL_WINDOWEVENT event data1 data2 =>
          match event with
          | SDL_WINDOWEVENT_RESIZED =>
              call (Log.glViewport 0 0 data1 data2) ;; poll_loop rest
          | SDL_WINDOWEVENT_other _ => poll_loop rest
          end
      | SDL_QUIT => ret (false, rest)
      | SDL_other _ => poll_loop rest
      end
  end.

Definition HandleEvents : M bool :=
  queue <- (fun w => (events w, w)) ;;
  res <- poll_loop queue ;;
  set_events (snd res) ;;
  ret (fst res).

(** *** [CleanupSDL] *)

Definition CleanupSDL (status : Z) : M Z :=
  ctx <- get_context ;;
  (if negb (ctx =? nullptr) then
     call (Log.SDL_GL_DeleteContext ctx) ;;
     set_context nullptr
   else ret tt) ;;
  win <- get_window ;;
  (if negb (win =? nullptr) then
     call (Log.SDL_DestroyWindow win) ;;
     set_window nullptr
   else ret tt) ;;
  inited <- SDL_WasInit SDL_INIT_EVERYTHING ;;
  SDL_QuitSubSystem inited ;;
  ret status.

(** *** [main] *)

(** The body of the two nested [for] loops, for one cell. *)
Definition make_quad (rows columns row column : nat) : M QuadVertex.t :=
  let x :=
    F32.sub
      (F32.div
         (F32.mul F32.two (F32.add F32.half (F32.of_Z (Z.of_nat column))))
         (F32.of_Z (Z.of_nat columns)))
      F32.one in
  let y :=
    F32.sub
      (F32.div
         (F32.mul F32.two (F32.add F32.half (F32.of_Z (Z.of_nat row))))
         (F32.of_Z (Z.of_nat rows)))
      F32.one in
  r0 <- rand ;;
  let size :=
    F32.add F32.c0_05
      (F32.mul (F32.div (F32.of_Z r0) (F32.of_Z RAND_MAX)) F32.c0_04) in
  r1 <- rand ;;
  let r := GLubyte (96 + Z.rem r1 128) in
  r2 <- rand ;;
  let g := GLubyte (96 + Z.rem r2 128) in
  r3 <- rand ;;
  let b := GLubyte (96 + Z.rem r3 128) in
  let a := 255 in
  ret (QuadVertex.make x y size r g b a).

(** The grid loops of [main], for [rows] times [columns] cells. *)
Definition fill_quadData (rows columns : nat) (quadData : list QuadVertex.t)
  : M (list QuadVertex.t) :=
  for_ rows (fun row quadData =>
    for_ columns (fun column quadData =>
      quad <- make_quad rows columns row column ;;
      ret (quadData ++ [quad])) quadData) quadData.

(** One pass of the [while (true)] body after [HandleEvents] returned
    true. *)
Definition draw_frame (colorLocation : GLint) : M unit :=
  call (Log.glClearColor F32.zero F32.tenth F32.tenth F32.one) ;;
  call (Log.glClear
          (Z.lor (Z.lor GL_COLOR_BUFFER_BIT GL_DEPTH_BUFFER_BIT)
             GL_STENCIL_BUFFER_BIT)) ;;
  call (Log.glPatchParameteri 1) ;;
  call (Log.glUniform3f colorLocation F32.zero F32.zero F32.zero) ;;
  call (Log.glDrawArrays 0 (Z.of_nat (kRows * kColumns))) ;;
  call (Log.glPolygonMode GL_LINE) ;;
  call (Log.glUniform3f colorLocation F32.one F32.one F32.one) ;;
  call (Log.glDrawArrays 0 (Z.of_nat (kRows * kColumns))) ;;
  call (Log.glPolygonMode GL_FILL) ;;
  win <- get_window ;;
  call (Log.SDL_GL_SwapWindow win).

(** The [while (true)] loop, one batch of arriving events per pass. It
    answers [true] when the loop was left through [break], and [false]
    when the recorded arrivals end with the loop still running. *)
Fixpoint frame_loop (colorLocation : GLint) (batches : list (list SDL_Event))
  : M bool :=
  match batches with
  | [] => ret false
  | batch :: later =>
      deliver batch ;;
      continue <- HandleEvents ;;
      if negb continue then ret true
      else draw_frame colorLocation ;; frame_loop colorLocation later
  end.

(** [main] answers the exit code, or [None] when the recorded arrivals end
    before a quit event. *)
Definition main : M (option Z) :=
  srand time_unsigned ;;
  st <- SDL_InitSubSystem (Z.lor SDL_INIT_VIDEO SDL_INIT_TIMER) ;;
  if st <? 0 then
    call (Log.SDL_Log "Error initializing SDL: %s") ;;
    code <- CleanupSDL 1 ;; ret (Some code)
  else
    call (Log.SDL_GL_SetAttribute SDL_GL_CONTEXT_MAJOR_VERSION 4) ;;
    call (Log.SDL_GL_SetAttribute SDL_GL_CONTEXT_MINOR_VERSION 1) ;;
    call (Log.SDL_GL_SetAttribute SDL_GL_CONTEXT_PROFILE_MASK
            SDL_GL_CONTEXT_PROFILE_CORE) ;;
    win <- SDL_CreateWindow "Quads" 800 600 ;;
    set_window win ;;
    win <- get_window ;;
    if win =? nullptr then
      call (Log.SDL_ShowSimpleMessageBox "Error creating window" nullptr) ;;
      code <- CleanupSDL 1 ;; ret (Some code)
    else
      ctx <- SDL_GL_CreateContext win ;;
      set_context ctx ;;
      ctx <- get_context ;;
      if ctx =? nullptr then
        win <- get_window ;;
        call (Log.SDL_ShowSimpleMessageBox
                "Error creating OpenGL 4.1 context" win) ;;
        code <- CleanupSDL 1 ;; ret (Some code)
      else
        quadData <- fill_quadData kRows kColumns [] ;;
        dummyVAO <- glGenVertexArrays ;;
        call (Log.glBindVertexArray dummyVAO) ;;
        vbo <- glGenBuffers ;;
        call (Log.glBindBuffer vbo) ;;
        call (Log.glBufferData
                (QuadVertex.sizeof * Z.of_nat (List.length quadData)) quadData) ;;
        call (Log.glVertexAttribPointer 0 2 GL_FLOAT false
                QuadVertex.sizeof QuadVertex.offsetof_x) ;;
        call (Log.glVertexAttribPointer 1 1 GL_FLOAT false
                QuadVertex.sizeof QuadVertex.offsetof_size) ;;
        call (Log.glVertexAttribPointer 2 4 GL_UNSIGNED_BYTE true
                QuadVertex.sizeof QuadVertex.offsetof_r) ;;
        call (Log.glEnableVertexAttribArray 0) ;;
        call (Log.glEnableVertexAttribArray 1) ;;
        call (Log.glEnableVertexAttribArray 2) ;;
        vs <- CreateShader GL_VERTEX_SHADER VertexShaderSource ;;
        tes <- CreateShader GL_TESS_EVALUATION_SHADER
                 TessEvaluationShaderSource ;;
        fs <- CreateShader GL_FRAGMENT_SHADER FragmentShaderSource ;;
        let shaderObjects := [vs; tes; fs] in
        shaderProgram <- CreateShaderProgram shaderObjects ;;
        colorLocation <- glGetUniformLocation shaderProgram "ConstantColor" ;;
        let innerTessLevels :=
          [kInnerTessellationLevel; kInnerTessellationLevel] in
        let outerTessLevels :=
          [kOuterTessellationLevel; kOuterTessellationLevel;
           kOuterTessellationLevel; kOuterTessellationLevel] in
        call (Log.glPatchParameterfv GL_PATCH_DEFAULT_INNER_LEVEL
                innerTessLevels) ;;
        call (Log.glPatchParameterfv GL_PATCH_DEFAULT_OUTER_LEVEL
                outerTessLevels) ;;
        call (Log.glUseProgram shaderProgram) ;;
        left <- frame_loop colorLocation (arrivals env) ;;
        if left then
          for_each shaderObjects
            (fun shaderObject => call (Log.glDeleteShader shaderObject)) ;;
          call (Log.glDeleteProgram shaderProgram) ;;
          call (Log.glDeleteBuffers vbo) ;;
          call (Log.glDeleteVertexArrays dummyVAO) ;;
          code <- CleanupSDL 0 ;; ret (Some code)
        else
          ret None.

End Program.

(** * The vocabulary of the properties

    What the theorems below speak about: the values the generator computes,
    the calls a run makes, the replay of these calls by the GL, and the
    nearest numbers of a floating-point format. *)

(** ** The records of the grid *)

Local Open Scope nat_scope.

(** The centre of cell [i] out of [n] on one axis, as the source computes
    it: [2.0f * (0.5f + i) / (float) n - 1.0f]. *)
Definition cell_centre (n i : nat) : GLfloat :=
  F32.sub
    (F32.div
       (F32.mul F32.two (F32.add F32.half (F32.of_Z (Z.of_nat i))))
       (F32.of_Z (Z.of_nat n)))
    F32.one.

(** The size drawn from the value [v] of [rand]. *)
Definition size_of_draw (RAND_MAX v : Z) : GLfloat :=
  F32.add F32.c0_05
    (F32.mul (F32.div (F32.of_Z v) (F32.of_Z RAND_MAX)) F32.c0_04).

(** The colour channel drawn from the value [v] of [rand]. *)
Definition channel_of_draw (v : Z) : Z := GLubyte (96 + Z.rem v 128)%Z.

Definition with_rand_calls (n : nat) (w : World) : World :=
  {| window := window w; context := context w; rand_seed := rand_seed w;
     rand_calls := n; subsystems := subsystems w;
     events := events w; trace := trace w |}.

Section GridRecords.

Variable RAND_MAX : Z.
Variable rand_sequence : Z -> nat -> Z.

(** The record of cell [(row, column)] when [n] calls of [rand] were made
    before it. *)
Definition quad_at (rows columns row column : nat) (seed : Z) (n : nat)
  : QuadVertex.t :=
  QuadVertex.make
    (cell_centre columns column)
    (cell_centre rows row)
    (size_of_draw RAND_MAX (rand_sequence seed n))
    (channel_of_draw (rand_sequence seed (n + 1)))
    (channel_of_draw (rand_sequence seed (n + 2)))
    (channel_of_draw (rand_sequence seed (n + 3)))
    255%Z.

(** The whole grid in row-major order, [n] calls of [rand] before it. *)
Definition grid_at (rows columns : nat) (seed : Z) (n : nat)
  : list QuadVertex.t :=
  map (fun k => quad_at rows columns (k / columns) (k mod columns) seed
                  (n + 4 * k))
      (seq 0 (rows * columns)).

End GridRecords.

Local Open Scope Z_scope.

(** ** Numbers of a floating-point format *)

(** location of x relative to the cell [m u, (m+1) u) *)
Definition inbu (m : Z) (u : Q) (l : location) (x : Q) : Prop :=
  match l with
  | loc_Exact => (x == inject_Z m * u)%Q
  | loc_Inexact Lt => (inject_Z m * u < x /\ 2 * x < (2 * inject_Z m + 1) * u)%Q
  | loc_Inexact Eq => (2 * x == (2 * inject_Z m + 1) * u)%Q
  | loc_Inexact Gt => ((2 * inject_Z m + 1) * u < 2 * x /\ x < (inject_Z m + 1) * u)%Q
  end.

Section Format.

Variables prec emax : Z.

(** The positive numbers of the format: canonical mantissa and exponent. *)
Definition canonical (m e : Z) : Prop :=
  0 < m /\ SpecFloat.fexp prec emax (Zdigits2 m + e) = e.

Definition representable (v : Q) : Prop :=
  (v == 0)%Q \/
  exists m e, bounded prec emax m e = true /\
              (v == inject_Z (Zpos m) * bpow e)%Q.

(** [v] is at least as near to [x] as every number of the format. *)
Definition nearest (x v : Q) : Prop :=
  forall g, representable g ->
    ((g <= x -> g <= v /\ v + g <= 2 * x) /\
     (x <= g -> v <= g /\ 2 * x <= v + g))%Q.

(** [f] is a finite float with sign [s] whose magnitude is nearest to
    [x]. *)
Definition rounded (s : bool) (x : Q) (f : spec_float) : Prop :=
  match f with
  | S754_zero s' => s' = s /\ nearest x 0
  | S754_finite s' m e =>
      s' = s /\ bounded prec emax m e = true /\
      nearest x (inject_Z (Zpos m) * bpow e)
  | _ => False
  end.

End Format.

(** The magnitude of a float. *)
Definition mag (f : spec_float) : Q :=
  match f with
  | S754_finite _ m e => (inject_Z (Zpos m) * bpow e)%Q
  | _ => 0%Q
  end.

(** A single precision number that is zero or positive and finite. *)
Definition nonneg (f : spec_float) : Prop :=
  f = S754_zero false \/
  exists m e, f = S754_finite false m e /\
              bounded F32.prec F32.emax m e = true.

(** ** The calls of one run

    The functions below say which calls a part of the program makes; the
    [_run] lemmas among the properties show that the program makes exactly
    these. *)

Definition add_calls (cs : list Log.call) (w : World) : World :=
  {| window := window w; context := context w; rand_seed := rand_seed w;
     rand_calls := rand_calls w; subsystems := subsystems w;
     events := events w; trace := trace w ++ cs |}.

Definition with_events (q : list SDL_Event) (w : World) : World :=
  {| window := window w; context := context w; rand_seed := rand_seed w;
     rand_calls := rand_calls w; subsystems := subsystems w;
     events := q; trace := trace w |}.

Definition is_quit (e : SDL_Event) : bool :=
  match e with SDL_QUIT => true | _ => false end.

(** The events of a queue that one pass of [HandleEvents] handles: those
    before the first quit event. *)
Fixpoint handled (queue : list SDL_Event) : list SDL_Event :=
  match queue with
  | [] => []
  | SDL_QUIT :: _ => []
  | e :: rest => e :: handled rest
  end.

(** The events that the pass leaves in the queue: those after the first
    quit event. *)
Fixpoint left_over (queue : list SDL_Event) : list SDL_Event :=
  match queue with
  | [] => []
  | SDL_QUIT :: rest => rest
  | _ :: rest => left_over rest
  end.

Definition has_quit (queue : list SDL_Event) : bool := existsb is_quit queue.

(** The [glViewport] calls that handling [evs] makes. *)
Definition viewport_calls (evs : list SDL_Event) : list Log.call :=
  flat_map
    (fun e =>
       match e with
       | SDL_WINDOWEVENT SDL_WINDOWEVENT_RESIZED data1 data2 =>
           [Log.glViewport 0 0 data1 data2]
       | _ => []
       end) evs.

(** The calls of one drawn frame. *)
Definition frame_calls (colorLocation : GLint) (win : handle)
  : list Log.call :=
  [ Log.glClearColor F32.zero F32.tenth F32.tenth F32.one;
    Log.glClear 0x4500;
    Log.glPatchParameteri 1;
    Log.glUniform3f colorLocation F32.zero F32.zero F32.zero;
    Log.glDrawArrays 0 100;
    Log.glPolygonMode GL_LINE;
    Log.glUniform3f colorLocation F32.one F32.one F32.one;
    Log.glDrawArrays 0 100;
    Log.glPolygonMode GL_FILL;
    Log.SDL_GL_SwapWindow win ].

(** The calls of the frame loop, given the batches of arriving events. *)
Fixpoint loop_calls (colorLocation : GLint) (win : handle)
    (batches : list (list SDL_Event)) : list Log.call :=
  match batches with
  | [] => []
  | batch :: later =>
      viewport_calls (handled batch) ++
      (if has_quit batch then []
       else frame_calls colorLocation win ++
            loop_calls colorLocation win later)
  end.

(** Whether a quit event arrives at all. *)
Definition loop_exits (batches : list (list SDL_Event)) : bool :=
  existsb has_quit batches.

(** The events left in the queue when the loop is left. *)
Fixpoint loop_left_over (batches : list (list SDL_Event))
  : list SDL_Event :=
  match batches with
  | [] => []
  | batch :: later =>
      if has_quit batch then left_over batch else loop_left_over later
  end.

(** The calls of [CleanupSDL] from the world [w]. *)
Definition cleanup_calls (w : World) : list Log.call :=
  (if context w =? nullptr then [] else [Log.SDL_GL_DeleteContext (context w)])
  ++ (if window w =? nullptr then [] else [Log.SDL_DestroyWindow (window w)])
  ++ [Log.SDL_WasInit SDL_INIT_EVERYTHING;
      Log.SDL_QuitSubSystem (Z.land (subsystems w) SDL_INIT_EVERYTHING)].

(** The world that [CleanupSDL] leaves. *)
Definition cleaned (w : World) : World :=
  {| window := nullptr; context := nullptr; rand_seed := rand_seed w;
     rand_calls := rand_calls w;
     subsystems :=
       Z.ldiff (subsystems w) (Z.land (subsystems w) SDL_INIT_EVERYTHING);
     events := events w;
     trace := trace w ++ cleanup_calls w |}.

Section Calls.

Variable RAND_MAX : Z.
Variable rand_sequence : Z -> nat -> Z.
Variable env : Env.

(** What [CreateShader] returns and calls for a stage. *)
Definition shader_result (type : ShaderType) : GLuint :=
  if compile_status env type then new_shader env type else 0.

Definition shader_calls (type : ShaderType) (src : ShaderSource)
    (win : handle) : list Log.call :=
  [ Log.glCreateShader type;
    Log.glShaderSource (new_shader env type) src;
    Log.glCompileShader (new_shader env type);
    Log.glGetShaderiv (new_shader env type) ] ++
  (if compile_status env type then []
   else [ Log.glGetShaderInfoLog (new_shader env type) 512;
          Log.SDL_ShowSimpleMessageBox "Shader compilation failed" win;
          Log.glDeleteShader (new_shader env type) ]).

(** What [CreateShaderProgram] returns and calls. *)
Definition program_result : GLuint :=
  if link_status env then new_program env else 0.

Definition program_calls (shaders : list GLuint) (win : handle)
  : list Log.call :=
  [Log.glCreateProgram] ++
  map (Log.glAttachShader (new_program env)) shaders ++
  [ Log.glLinkProgram (new_program env);
    Log.glGetProgramiv (new_program env) ] ++
  (if link_status env then []
   else [ Log.glGetProgramInfoLog (new_program env) 512;
          Log.SDL_ShowSimpleMessageBox "Shader program link failed" win;
          Log.glDeleteProgram (new_program env) ]).

(** The world when the bootstrap has gone as far as [calls]. *)
Definition booting (win ctx : handle) (subs : Z) (calls : list Log.call)
  : World :=
  {| window := win; context := ctx;
     rand_seed := time_now env mod 2 ^ 32; rand_calls := 0;
     subsystems := subs; events := []; trace := calls |}.

Definition window_calls : list Log.call :=
  [ Log.SDL_InitSubSystem 33;
    Log.SDL_GL_SetAttribute SDL_GL_CONTEXT_MAJOR_VERSION 4;
    Log.SDL_GL_SetAttribute SDL_GL_CONTEXT_MINOR_VERSION 1;
    Log.SDL_GL_SetAttribute SDL_GL_CONTEXT_PROFILE_MASK 1;
    Log.SDL_CreateWindow "Quads" 800 600 ].

(** The records the program uploads. *)
Definition quadData : list QuadVertex.t :=
  grid_at RAND_MAX rand_sequence kRows kColumns (time_now env mod 2 ^ 32) 0.

Definition shaderObjects : list GLuint :=
  [ shader_result GL_VERTEX_SHADER;
    shader_result GL_TESS_EVALUATION_SHADER;
    shader_result GL_FRAGMENT_SHADER ].

(** The calls from the start of [main] to the frame loop when the
    bootstrap succeeds. *)
Definition setup_calls : list Log.call :=
  window_calls ++
  [ Log.SDL_GL_CreateContext (new_window env);
    Log.glGenVertexArrays 1;
    Log.glBindVertexArray (new_vao env);
    Log.glGenBuffers 1;
    Log.glBindBuffer (new_vbo env);
    Log.glBufferData (16 * Z.of_nat (List.length quadData)) quadData;
    Log.glVertexAttribPointer 0 2 GL_FLOAT false 16 0;
    Log.glVertexAttribPointer 1 1 GL_FLOAT false 16 8;
    Log.glVertexAttribPointer 2 4 GL_UNSIGNED_BYTE true 16 12;
    Log.glEnableVertexAttribArray 0;
    Log.glEnableVertexAttribArray 1;
    Log.glEnableVertexAttribArray 2 ] ++
  shader_calls GL_VERTEX_SHADER VertexShaderSource (new_window env) ++
  shader_calls GL_TESS_EVALUATION_SHADER TessEvaluationShaderSource
    (new_window env) ++
  shader_calls GL_FRAGMENT_SHADER FragmentShaderSource (new_window env) ++
  program_calls shaderObjects (new_window env) ++
  [ Log.glGetUniformLocation (program_result) "ConstantColor";
    Log.glPatchParameterfv GL_PATCH_DEFAULT_INNER_LEVEL [F32.one; F32.one];
    Log.glPatchParameterfv GL_PATCH_DEFAULT_OUTER_LEVEL
      [F32.one; F32.one; F32.one; F32.one];
    Log.glUseProgram (program_result) ].

(** The calls after the loop, before [CleanupSDL]. *)
Definition teardown_calls : list Log.call :=
  map Log.glDeleteShader shaderObjects ++
  [ Log.glDeleteProgram (program_result);
    Log.glDeleteBuffers (new_vbo env);
    Log.glDeleteVertexArrays (new_vao env) ].

(** The world when the frame loop is left, or when the recorded arrivals
    end. *)
Definition after_loop : World :=
  {| window := new_window env; context := new_context env;
     rand_seed := time_now env mod 2 ^ 32; rand_calls := 400;
     subsystems := subsystems_up env;
     events := loop_left_over (arrivals env);
     trace := setup_calls ++
              loop_calls (uniform_location env) (new_window env)
                (arrivals env) |}.

End Calls.

(** ** Kinds of calls *)

(** The calls that delete or destroy an object. *)
Definition is_deletion (c : Log.call) : bool :=
  match c with
  | Log.SDL_GL_DeleteContext _ | Log.SDL_DestroyWindow _
  | Log.glDeleteShader _ | Log.glDeleteProgram _
  | Log.glDeleteBuffers _ | Log.glDeleteVertexArrays _ => true
  | _ => false
  end.

(** The OpenGL calls, as opposed to those into SDL. *)
Definition is_gl_call (c : Log.call) : bool :=
  match c with
  | Log.SDL_InitSubSystem _ | Log.SDL_Log _ | Log.SDL_GL_SetAttribute _ _
  | Log.SDL_CreateWindow _ _ _ | Log.SDL_ShowSimpleMessageBox _ _
  | Log.SDL_GL_CreateContext _ | Log.SDL_GL_DeleteContext _
  | Log.SDL_DestroyWindow _ | Log.SDL_WasInit _ | Log.SDL_QuitSubSystem _
  | Log.SDL_GL_SwapWindow _ => false
  | _ => true
  end.

(** ** Bootstrap failure *)

Definition is_swap (c : Log.call) : bool :=
  match c with Log.SDL_GL_SwapWindow _ => true | _ => false end.

Definition is_viewport (c : Log.call) : bool :=
  match c with Log.glViewport _ _ _ _ => true | _ => false end.

Definition bootstrap_fails (env : Env) : Prop :=
  init_status env < 0 \/ new_window env = nullptr \/
  new_context env = nullptr.

Definition quit_free (batches : list (list SDL_Event)) : bool :=
  forallb (fun batch => negb (has_quit batch)) batches.

(** ** What the GL does with the calls

    The part of the GL state that the drawing depends on, replayed from
    the calls: the polygon mode, the patch size, the uniform last written
    by [glUniform3f] (with the location it was written to), the viewport,
    the draws since the last buffer swap and the frames presented so
    far. *)

Record Draw : Type := mkDraw {
  draw_mode : PolygonMode;
  draw_uniform : option (GLint * GLfloat * GLfloat * GLfloat);
  draw_patches : Z
}.

Record Frame : Type := mkFrame {
  frame_draws : list Draw;
  frame_mode : PolygonMode        (* polygon mode when presented *)
}.

Record GL : Type := mkGL {
  gl_polygon_mode : PolygonMode;
  gl_patch_vertices : Z;
  gl_uniform : option (GLint * GLfloat * GLfloat * GLfloat);
  gl_viewport : option (Z * Z * Z * Z);
  gl_pending : list Draw;
  gl_presented : list Frame
}.

(** A fresh context: filled polygons, three vertices per patch; the
    viewport is whatever the window system gave ([None] here). *)
Definition gl_initial : GL :=
  mkGL GL_FILL 3 None None [] [].

Definition gl_step (g : GL) (c : Log.call) : GL :=
  match c with
  | Log.glPolygonMode mode =>
      mkGL mode (gl_patch_vertices g) (gl_uniform g) (gl_viewport g)
        (gl_pending g) (gl_presented g)
  | Log.glPatchParameteri vertices =>
      mkGL (gl_polygon_mode g) vertices (gl_uniform g) (gl_viewport g)
        (gl_pending g) (gl_presented g)
  | Log.glUniform3f location v0 v1 v2 =>
      mkGL (gl_polygon_mode g) (gl_patch_vertices g)
        (Some (location, v0, v1, v2)) (gl_viewport g)
        (gl_pending g) (gl_presented g)
  | Log.glViewport x y width height =>
      (* a negative size is GL_INVALID_VALUE and changes nothing *)
      if (0 <=? width) && (0 <=? height) then
        mkGL (gl_polygon_mode g) (gl_patch_vertices g) (gl_uniform g)
          (Some (x, y, width, height)) (gl_pending g) (gl_presented g)
      else g
  | Log.glDrawArrays first count =>
      mkGL (gl_polygon_mode g) (gl_patch_vertices g) (gl_uniform g)
        (gl_viewport g)
        (gl_pending g ++
         [mkDraw (gl_polygon_mode g) (gl_uniform g)
            (count / gl_patch_vertices g)])
        (gl_presented g)
  | Log.SDL_GL_SwapWindow _ =>
      mkGL (gl_polygon_mode g) (gl_patch_vertices g) (gl_uniform g)
        (gl_viewport g) []
        (gl_presented g ++ [mkFrame (gl_pending g) (gl_polygon_mode g)])
  | _ => g
  end.

Definition gl_replay (g : GL) (calls : list Log.call) : GL :=
  fold_left gl_step calls g.

Definition gl_after (calls : list Log.call) : GL := gl_replay gl_initial calls.

(** The frame the program presents: all patches filled with the uniform
    black, then all patches as lines with the uniform white, and filled
    mode again when the buffers are swapped. *)
Definition standard_frame (colorLocation : GLint) : Frame :=
  mkFrame
    [ mkDraw GL_FILL (Some (colorLocation, F32.zero, F32.zero, F32.zero))
        (Z.of_nat (kRows * kColumns));
      mkDraw GL_LINE (Some (colorLocation, F32.one, F32.one, F32.one))
        (Z.of_nat (kRows * kColumns)) ]
    GL_FILL.

(** The passes of the loop that draw: those before the first batch with
    a quit event. *)
Fixpoint passes_before_quit (batches : list (list SDL_Event)) : nat :=
  match batches with
  | [] => O
  | batch :: later =>
      if has_quit batch then O else S (passes_before_quit later)
  end.

(** The calls that the replay looks at. *)
Definition renders (c : Log.call) : bool :=
  match c with
  | Log.glPolygonMode _ | Log.glPatchParameteri _ | Log.glUniform3f _ _ _ _
  | Log.glViewport _ _ _ _ | Log.glDrawArrays _ _
  | Log.SDL_GL_SwapWindow _ => true
  | _ => false
  end.

Definition quiet (cs : list Log.call) : bool :=
  forallb (fun c => negb (renders c)) cs.

(** ** Further kinds of calls *)

(** The calls of [CleanupSDL] that shut the subsystems down. *)
Definition is_shutdown (c : Log.call) : bool :=
  match c with
  | Log.SDL_WasInit _ | Log.SDL_QuitSubSystem _ => true
  | _ => false
  end.

Definition is_upload (c : Log.call) : bool :=
  match c with Log.glBufferData _ _ => true | _ => false end.

Definition is_draw (c : Log.call) : bool :=
  match c with Log.glDrawArrays _ _ => true | _ => false end.

(** The calls that name a program object. *)
Definition uses_program (c : Log.call) : bool :=
  match c with
  | Log.glCreateProgram | Log.glAttachShader _ _ | Log.glLinkProgram _
  | Log.glGetProgramiv _ | Log.glGetProgramInfoLog _ _
  | Log.glDeleteProgram _ | Log.glGetUniformLocation _ _
  | Log.glUseProgram _ => true
  | _ => false
  end.

(** The calls that report an error to the user: a line in the log or a
    message box. *)
Definition is_report (c : Log.call) : bool :=
  match c with
  | Log.SDL_Log _ | Log.SDL_ShowSimpleMessageBox _ _ => true
  | _ => false
  end.

(** The objects that are deleted where their creation fails: a shader
    that does not compile, a program that does not link. *)
Definition failed_shader (env : Env) (type : ShaderType) : list Log.call :=
  if compile_status env type then []
  else [Log.glDeleteShader (new_shader env type)].

Definition failed_program (env : Env) : list Log.call :=
  if link_status env then [] else [Log.glDeleteProgram (new_program env)].

(** ** The window and the context while they are alive

    [Live] holds the window and the context that exist ([nullptr] for
    none). [live_step] answers [None] for a call that uses a window or a
    context that is not there: an OpenGL call without a context, a swap
    or a message box on a window that is not the live one, a second
    window or context while the first is alive, the deletion of anything
    but the live object, or the destruction of the window before its
    context. What [SDL_CreateWindow] and [SDL_GL_CreateContext] answer is
    read from the environment; either may be [nullptr]. *)
Record Live : Type := mkLive {
  live_window : handle;
  live_context : handle
}.

Definition live_step (env : Env) (s : Live) (c : Log.call) : option Live :=
  match c with
  | Log.SDL_CreateWindow _ _ _ =>
      if live_window s =? nullptr
      then Some (mkLive (new_window env) (live_context s)) else None
  | Log.SDL_GL_CreateContext win =>
      if (win =? live_window s) && negb (win =? nullptr) &&
         (live_context s =? nullptr)
      then Some (mkLive (live_window s) (new_context env)) else None
  | Log.SDL_GL_DeleteContext ctx =>
      if (ctx =? live_context s) && negb (ctx =? nullptr)
      then Some (mkLive (live_window s) nullptr) else None
  | Log.SDL_DestroyWindow win =>
      if (win =? live_window s) && negb (win =? nullptr) &&
         (live_context s =? nullptr)
      then Some (mkLive nullptr nullptr) else None
  | Log.SDL_GL_SwapWindow win =>
      if (win =? live_window s) && negb (win =? nullptr) &&
         negb (live_context s =? nullptr)
      then Some s else None
  | Log.SDL_ShowSimpleMessageBox _ parent =>
      if (parent =? nullptr) || (parent =? live_window s)
      then Some s else None
  | _ =>
      if is_gl_call c && (live_context s =? nullptr) then None else Some s
  end.

Fixpoint live_replay (env : Env) (s : Live) (cs : list Log.call)
  : option Live :=
  match cs with
  | [] => Some s
  | c :: rest =>
      match live_step env s c with
      | Some s' => live_replay env s' rest
      | None => None
      end
  end.

(** The calls that are in order while the window [win] and a context
    exist: no window or context is made or deleted, and a swap or a
    message box names [win]. *)
Definition uses_live (win : handle) (c : Log.call) : bool :=
  match c with
  | Log.SDL_CreateWindow _ _ _ | Log.SDL_GL_CreateContext _
  | Log.SDL_GL_DeleteContext _ | Log.SDL_DestroyWindow _ => false
  | Log.SDL_GL_SwapWindow w | Log.SDL_ShowSimpleMessageBox _ w => w =? win
  | _ => true
  end.

(** ** What a draw reads from the vertex buffer

    [Fetch] is the part of the GL state that vertex fetching depends on:
    the size in bytes of the buffer that was uploaded, the attribute
    pointers (index, bytes per vertex, stride and offset) and the enabled
    attribute arrays. *)
Definition sizeof_type (type : AttribType) : Z :=
  match type with GL_FLOAT => 4 | GL_UNSIGNED_BYTE => 1 end.

Record Attrib : Type := mkAttrib {
  attrib_index : Z;
  attrib_bytes : Z;
  attrib_stride : Z;
  attrib_offset : Z
}.

Record Fetch : Type := mkFetch {
  fetch_buffer : option Z;
  fetch_pointers : list Attrib;
  fetch_enabled : list Z
}.

Definition fetch_initial : Fetch := mkFetch None [] [].

Definition fetch_step (f : Fetch) (c : Log.call) : Fetch :=
  match c with
  | Log.glBufferData bytes _ =>
      mkFetch (Some bytes) (fetch_pointers f) (fetch_enabled f)
  | Log.glDeleteBuffers _ =>
      mkFetch None (fetch_pointers f) (fetch_enabled f)
  | Log.glVertexAttribPointer index size type _ stride offset =>
      mkFetch (fetch_buffer f)
        (mkAttrib index (size * sizeof_type type) stride offset ::
         fetch_pointers f)
        (fetch_enabled f)
  | Log.glEnableVertexAttribArray index =>
      mkFetch (fetch_buffer f) (fetch_pointers f) (index :: fetch_enabled f)
  | _ => f
  end.

(** The bytes that the attribute [index] reads for the vertices [first]
    to [first + count - 1] lie inside the buffer. *)
Definition attribute_in_bounds (f : Fetch) (first count index : Z) : bool :=
  match fetch_buffer f,
        find (fun a => attrib_index a =? index) (fetch_pointers f) with
  | Some bytes, Some a =>
      (0 <=? attrib_offset a) && (0 <? attrib_bytes a) &&
      (0 <? attrib_stride a) &&
      ((first + count - 1) * attrib_stride a + attrib_offset a +
       attrib_bytes a <=? bytes)
  | _, _ => false
  end.

Definition draw_in_bounds (f : Fetch) (first count : Z) : bool :=
  (0 <=? first) && (0 <? count) &&
  forallb (attribute_in_bounds f first count) (fetch_enabled f).

(** Every draw of [cs] reads inside the buffer as it is at the draw. *)
Fixpoint fetch_ok (f : Fetch) (cs : list Log.call) : bool :=
  match cs with
  | [] => true
  | c :: rest =>
      match c with
      | Log.glDrawArrays first count => draw_in_bounds f first count
      | _ => true
      end && fetch_ok (fetch_step f c) rest
  end.

Definition fetch_replay (f : Fetch) (cs : list Log.call) : Fetch :=
  fold_left fetch_step cs f.

(** The calls that leave [Fetch] as it is. *)
Definition keeps_fetch (c : Log.call) : bool :=
  match c with
  | Log.glBufferData _ _ | Log.glDeleteBuffers _
  | Log.glVertexAttribPointer _ _ _ _ _ _
  | Log.glEnableVertexAttribArray _ => false
  | _ => true
  end.

(** ** Sample inputs *)

(** An environment for examples: the subsystem status, the window and the
    context are given, every GL object gets a name of its own. *)
Definition sample_env (init : Z) (win ctx : handle)
    (compiles : ShaderType -> bool) (links : bool)
    (batches : list (list SDL_Event)) : Env :=
  {| time_now := 1400000000;
     init_status := init;
     subsystems_up :=
       if init <? 0 then 0
       else Z.lor (Z.lor SDL_INIT_VIDEO SDL_INIT_TIMER) SDL_INIT_EVENTS;
     new_window := win;
     new_context := ctx;
     new_vao := 1;
     new_vbo := 1;
     new_shader := fun type =>
       match type with
       | GL_VERTEX_SHADER => 1
       | GL_TESS_EVALUATION_SHADER => 2
       | GL_FRAGMENT_SHADER => 3
       end;
     compile_status := compiles;
     new_program := 4;
     link_status := links;
     uniform_location := 0;
     arrivals := batches |}.

(** A linear congruential generator with [RAND_MAX = 32767]. *)
Definition sample_rand (seed : Z) (n : nat) : Z :=
  ((seed + Z.of_nat n) * 1103515245 + 12345) mod 32768.

(** ** Tactics *)

Ltac world_eq :=
  unfold add_calls, with_events;
  cbn [window context rand_seed rand_calls subsystems events trace];
  rewrite <- ?app_assoc, ?app_nil_r; reflexivity.

Ltac run_main :=
  cbv beta iota zeta delta
    [main bind ret call srand time_unsigned SDL_InitSubSystem
     SDL_CreateWindow SDL_GL_CreateContext set_window set_context
     get_window get_context set_subsystems initial_world
     glGenVertexArrays glGenBuffers glGetUniformLocation for_each
     with_rand_calls add_calls with_events
     window context rand_seed rand_calls subsystems events trace
     fst snd].

(** * Properties *)

(** The literals are the nearest floats to the decimal constants. *)
Example literal_values :
  F32.one = F32.of_Z 1 /\ F32.two = F32.of_Z 2 /\ F32.half = F32.lit 1 2 /\
  F32.tenth = F32.lit 1 10 /\
  F32.c0_05 = F32.lit 5 100 /\ F32.c0_04 = F32.lit 4 100 /\
  F32.c0_09 = F32.lit 9 100.
Proof. vm_compute. repeat split. Qed.

(** ** The grid generator *)

Local Open Scope nat_scope.

Section Grid.

Variable RAND_MAX : Z.
Variable rand_sequence : Z -> nat -> Z.

Lemma with_rand_calls_twice n m w :
  with_rand_calls n (with_rand_calls m w) = with_rand_calls n w.
Proof. reflexivity. Qed.

Lemma with_rand_calls_same w : with_rand_calls (rand_calls w) w = w.
Proof. destruct w; reflexivity. Qed.

Lemma make_quad_run rows columns row column w :
  make_quad RAND_MAX rand_sequence rows columns row column w =
  (quad_at RAND_MAX rand_sequence rows columns row column (rand_seed w) (rand_calls w),
   with_rand_calls (rand_calls w + 4) w).
Proof.
  unfold make_quad, quad_at, bind, rand, ret, with_rand_calls; simpl.
  replace (rand_calls w + 1) with (S (rand_calls w)) by lia.
  replace (rand_calls w + 2) with (S (S (rand_calls w))) by lia.
  replace (rand_calls w + 3) with (S (S (S (rand_calls w)))) by lia.
  replace (rand_calls w + 4) with (S (S (S (S (rand_calls w))))) by lia.
  reflexivity.
Qed.

(** One row: the inner loop started at column [i] with [n] columns left. *)
Lemma inner_loop_run rows columns row n : forall i quadData w,
  for_from n i
    (fun column quadData =>
       quad <- make_quad RAND_MAX rand_sequence rows columns row column ;;
       ret (quadData ++ [quad])) quadData w =
  (quadData ++
     map (fun j => quad_at RAND_MAX rand_sequence rows columns row (i + j) (rand_seed w)
                     (rand_calls w + 4 * j)) (seq 0 n),
   with_rand_calls (rand_calls w + 4 * n) w).
Proof.
  induction n as [|n IH]; intros i quadData w.
  - simpl. unfold ret. rewrite app_nil_r, Nat.add_0_r.
    now rewrite with_rand_calls_same.
  - cbn [for_from]. unfold bind at 1. unfold bind at 1.
    rewrite make_quad_run. unfold ret at 1. rewrite IH.
    cbn [rand_seed rand_calls with_rand_calls].
    rewrite with_rand_calls_twice. f_equal.
    + rewrite <- app_assoc. f_equal. cbn [seq map app].
      rewrite Nat.add_0_r, Nat.mul_0_r, Nat.add_0_r. f_equal.
      rewrite <- seq_shift, map_map. apply map_ext. intros j.
      f_equal; lia.
    + f_equal. lia.
Qed.

Lemma seq_rows n columns :
  seq 0 (S n * columns) =
  seq 0 columns ++ map (fun k => columns + k) (seq 0 (n * columns)).
Proof.
  replace (S n * columns) with (columns + n * columns) by lia.
  rewrite seq_app. f_equal. cbn [Nat.add].
  rewrite <- (Nat.add_0_r columns) at 1.
  generalize (n * columns) 0. intros m.
  induction m as [|m IH]; intros s; [reflexivity|].
  cbn [seq map]. f_equal. rewrite <- IH. f_equal. lia.
Qed.

(** The rows from [i] on, [n] rows left. *)
Lemma outer_loop_run rows columns n : forall i quadData w,
  for_from n i
    (fun row quadData =>
       for_ columns
         (fun column quadData =>
            quad <- make_quad RAND_MAX rand_sequence rows columns row column ;;
            ret (quadData ++ [quad])) quadData) quadData w =
  (quadData ++
     map (fun k => quad_at RAND_MAX rand_sequence rows columns (i + k / columns) (k mod columns)
                     (rand_seed w) (rand_calls w + 4 * k))
         (seq 0 (n * columns)),
   with_rand_calls (rand_calls w + 4 * (n * columns)) w).
Proof.
  induction n as [|n IH]; intros i quadData w.
  - simpl. unfold ret. rewrite app_nil_r, Nat.add_0_r.
    now rewrite with_rand_calls_same.
  - cbn [for_from]. unfold bind at 1. unfold for_ at 1.
    rewrite inner_loop_run. rewrite IH.
    cbn [rand_seed rand_calls with_rand_calls].
    rewrite with_rand_calls_twice. f_equal.
    + rewrite <- app_assoc. f_equal.
      destruct (Nat.eq_dec columns 0) as [->|Hc].
      { now rewrite !Nat.mul_0_r. }
      rewrite seq_rows, map_app, map_map.
      f_equal.
      * apply map_ext_in. intros j Hj. apply in_seq in Hj.
        rewrite Nat.div_small, Nat.mod_small by lia.
        f_equal; lia.
      * apply map_ext. intros k.
        replace (columns + k) with (k + 1 * columns) by lia.
        rewrite Nat.div_add, Nat.Div0.mod_add by lia.
        f_equal; lia.
    + f_equal. lia.
Qed.

Lemma fill_quadData_run rows columns w :
  fill_quadData RAND_MAX rand_sequence rows columns [] w =
  (grid_at RAND_MAX rand_sequence rows columns (rand_seed w) (rand_calls w),
   with_rand_calls (rand_calls w + 4 * (rows * columns)) w).
Proof.
  exact (outer_loop_run rows columns rows 0 [] w).
Qed.

Lemma grid_at_length rows columns seed n :
  List.length (grid_at RAND_MAX rand_sequence rows columns seed n) = rows * columns.
Proof. unfold grid_at. now rewrite length_map, length_seq. Qed.

Lemma grid_at_nth rows columns seed n row column :
  row < rows -> column < columns ->
  nth_error (grid_at RAND_MAX rand_sequence rows columns seed n) (row * columns + column) =
  Some (quad_at RAND_MAX rand_sequence rows columns row column seed
          (n + 4 * (row * columns + column))).
Proof.
  intros Hr Hc. unfold grid_at.
  assert (Hk : row * columns + column < rows * columns) by nia.
  rewrite nth_error_map, nth_error_seq.
  apply Nat.ltb_lt in Hk. rewrite Hk. cbn [option_map Nat.add].
  rewrite Nat.div_add_l, Nat.div_small, Nat.add_0_r by lia.
  rewrite Nat.add_comm, Nat.Div0.mod_add, Nat.mod_small by lia.
  reflexivity.
Qed.

Lemma grid_at_nth_inv rows columns seed n k quad :
  nth_error (grid_at RAND_MAX rand_sequence rows columns seed n) k = Some quad ->
  k < rows * columns /\
  quad = quad_at RAND_MAX rand_sequence rows columns (k / columns) (k mod columns) seed (n + 4 * k).
Proof.
  unfold grid_at. intros H. rewrite nth_error_map in H.
  destruct (nth_error (seq 0 (rows * columns)) k) as [k'|] eqn:Ek;
    [|discriminate].
  pose proof (nth_error_Some (seq 0 (rows * columns)) k) as Hs.
  rewrite Ek, length_seq in Hs.
  assert (Hlt : k < rows * columns) by (apply Hs; discriminate).
  rewrite nth_error_seq in Ek.
  pose proof Hlt as Hb. apply Nat.ltb_lt in Hb. rewrite Hb in Ek.
  injection Ek as <-. cbn [option_map] in H. injection H as <-.
  split; [exact Hlt|reflexivity].
Qed.

End Grid.

(** ** Rounding to nearest in [SpecFloat]

    [SpecFloat] defines the operations by shifting mantissas; the lemmas
    below relate them to the rational numbers: every operation on finite
    operands returns a number of the format that is nearest to the exact
    result. *)

Local Open Scope Z_scope.

Lemma bpow_pos e : (0 < bpow e)%Q.
Proof. apply Qpower_0_lt. reflexivity. Qed.

Lemma bpow_add a b : (bpow (a + b) == bpow a * bpow b)%Q.
Proof. apply Qpower_plus. discriminate. Qed.

Lemma bpow_Z e : 0 <= e -> (bpow e == inject_Z (2 ^ e))%Q.
Proof. intros H. unfold bpow. now rewrite Zpower_Qpower. Qed.

Lemma bpow_le a b : a <= b -> (bpow a <= bpow b)%Q.
Proof. intros H. apply Qpower_le_compat_l; [assumption|discriminate]. Qed.

Lemma bpow_lt a b : a < b -> (bpow a < bpow b)%Q.
Proof. intros H. apply Qpower_lt_compat_l; [assumption|reflexivity]. Qed.

Lemma inject_Z_xO p : inject_Z (Zpos p~0) = (2 * inject_Z (Zpos p))%Q.
Proof. now rewrite Pos2Z.inj_xO, inject_Z_mult. Qed.
Lemma inject_Z_xI p : inject_Z (Zpos p~1) = (2 * inject_Z (Zpos p) + 1)%Q.
Proof. now rewrite Pos2Z.inj_xI, inject_Z_plus, inject_Z_mult. Qed.

Lemma shr_1_inbu mrs u x :
  (0 < u)%Q -> 0 <= shr_m mrs ->
  inbu (shr_m mrs) u (loc_of_shr_record mrs) x ->
  inbu (shr_m (shr_1 mrs)) (2 * u) (loc_of_shr_record (shr_1 mrs)) x.
Proof.
  intros Hu Hm. destruct mrs as [m r s]. cbn [shr_m] in *.
  destruct m as [|[p|p|]|p]; try lia;
    destruct r, s; cbn -[inject_Z Qmult Qplus]; 
    rewrite ?inject_Z_xO, ?inject_Z_xI; 
    change (inject_Z 0) with 0%Q; change (inject_Z 1) with 1%Q; intros H; try lra.
Qed.

Lemma inbu_ext m u u' l x : (u == u')%Q -> inbu m u l x -> inbu m u' l x.
Proof.
  intros E. destruct l as [|[]]; cbn -[inject_Z Qmult Qplus]; rewrite E; auto.
Qed.

Lemma shr_1_m mrs : 0 <= shr_m mrs -> shr_m (shr_1 mrs) = shr_m mrs / 2.
Proof.
  destruct mrs as [m r s]. cbn [shr_m]. intros Hm.
  destruct m as [|[p|p|]|p]; try lia; cbn [shr_1 shr_m]; try reflexivity.
  - rewrite Pos2Z.inj_xI. apply Z.div_unique with 1; lia.
  - rewrite Pos2Z.inj_xO. apply Z.div_unique with 0; lia.
Qed.

Lemma iter_shr_1 p : forall mrs u x,
  (0 < u)%Q -> 0 <= shr_m mrs ->
  inbu (shr_m mrs) u (loc_of_shr_record mrs) x ->
  let mrs' := iter_pos shr_1 p mrs in
  shr_m mrs' = shr_m mrs / 2 ^ Zpos p /\
  inbu (shr_m mrs') (inject_Z (2 ^ Zpos p) * u) (loc_of_shr_record mrs') x.
Proof.
  assert (step : forall mrs u x, (0 < u)%Q -> 0 <= shr_m mrs ->
            inbu (shr_m mrs) u (loc_of_shr_record mrs) x ->
            shr_m (shr_1 mrs) = shr_m mrs / 2 ^ 1 /\
            inbu (shr_m (shr_1 mrs)) (inject_Z (2 ^ 1) * u)
              (loc_of_shr_record (shr_1 mrs)) x).
  { intros mrs u x Hu Hm H. split; [now apply shr_1_m|now apply shr_1_inbu]. }
  assert (comp : forall a b (f g : shr_record -> shr_record),
            0 < a -> 0 < b ->
            (forall mrs u x, (0 < u)%Q -> 0 <= shr_m mrs ->
               inbu (shr_m mrs) u (loc_of_shr_record mrs) x ->
               shr_m (f mrs) = shr_m mrs / 2 ^ a /\
               inbu (shr_m (f mrs)) (inject_Z (2 ^ a) * u)
                 (loc_of_shr_record (f mrs)) x) ->
            (forall mrs u x, (0 < u)%Q -> 0 <= shr_m mrs ->
               inbu (shr_m mrs) u (loc_of_shr_record mrs) x ->
               shr_m (g mrs) = shr_m mrs / 2 ^ b /\
               inbu (shr_m (g mrs)) (inject_Z (2 ^ b) * u)
                 (loc_of_shr_record (g mrs)) x) ->
            (forall mrs u x, (0 < u)%Q -> 0 <= shr_m mrs ->
               inbu (shr_m mrs) u (loc_of_shr_record mrs) x ->
               shr_m (g (f mrs)) = shr_m mrs / 2 ^ (a + b) /\
               inbu (shr_m (g (f mrs))) (inject_Z (2 ^ (a + b)) * u)
                 (loc_of_shr_record (g (f mrs))) x)).
  { intros a b f g Ha Hb Hf Hg mrs u x Hu Hm H.
    destruct (Hf mrs u x Hu Hm H) as [Ef If].
    assert (Pa : 0 < 2 ^ a) by (apply Z.pow_pos_nonneg; lia).
    assert (Hu' : (0 < inject_Z (2 ^ a) * u)%Q).
    { apply Qmult_lt_0_compat; [|assumption].
      change 0%Q with (inject_Z 0). now rewrite <- Zlt_Qlt. }
    assert (Hm' : 0 <= shr_m (f mrs)).
    { rewrite Ef. apply Z.div_pos; lia. }
    destruct (Hg (f mrs) _ x Hu' Hm' If) as [Eg Ig]. split.
    - rewrite Eg, Ef, Z.div_div, <- Z.pow_add_r by lia. reflexivity.
    - eapply inbu_ext; [|exact Ig].
      rewrite Z.pow_add_r, inject_Z_mult by lia. ring. }
  induction p as [p IH|p IH|]; intros mrs u x Hu Hm H; cbn [iter_pos].
  - replace (Zpos p~1) with (1 + (Zpos p + Zpos p)) by lia.
    apply (comp 1 (Zpos p + Zpos p) shr_1
             (fun r => iter_pos shr_1 p (iter_pos shr_1 p r)));
      try lia; try assumption.
    apply (comp (Zpos p) (Zpos p)); try lia; assumption.
  - replace (Zpos p~0) with (Zpos p + Zpos p) by lia.
    apply (comp (Zpos p) (Zpos p) (iter_pos shr_1 p) (iter_pos shr_1 p));
      try lia; assumption.
  - apply step; assumption.
Qed.

Lemma loc_of_shr_record_of_loc m l :
  loc_of_shr_record (shr_record_of_loc m l) = l.
Proof. now destruct l as [|[]]. Qed.

Lemma shr_m_of_loc m l : shr_m (shr_record_of_loc m l) = m.
Proof. now destruct l as [|[]]. Qed.

Lemma digits2_size p : digits2_pos p = Pos.size p.
Proof. induction p; cbn; congruence. Qed.

Lemma Zdigits2_nonneg m : 0 <= Zdigits2 m.
Proof. destruct m; cbn; lia. Qed.

Lemma Zdigits2_bounds m :
  0 < m -> 2 ^ (Zdigits2 m - 1) <= m < 2 ^ Zdigits2 m.
Proof.
  destruct m as [|p|p]; try lia. intros _. cbn [Zdigits2].
  rewrite digits2_size.
  pose proof (Pos.size_gt p) as Hgt. pose proof (Pos.size_le p) as Hle.
  apply Pos2Z.pos_lt_pos in Hgt. apply Pos2Z.pos_le_pos in Hle.
  rewrite Pos2Z.inj_pow in Hgt, Hle.
  split; [|exact Hgt].
  assert (E : 2 ^ Zpos (Pos.size p) = 2 * 2 ^ (Zpos (Pos.size p) - 1)).
  { rewrite <- Z.pow_succ_r by lia. f_equal. lia. }
  lia.
Qed.

Lemma Zdigits2_le m d : 0 <= d -> 0 <= m < 2 ^ d -> Zdigits2 m <= d.
Proof.
  intros Hd [H0 Hm]. destruct (Z.eq_dec m 0) as [->|Hn]; [exact Hd|].
  destruct (Zdigits2_bounds m) as [Hl _]; [lia|].
  destruct (Z_le_gt_dec (Zdigits2 m) d) as [|Hgt]; [assumption|exfalso].
  assert (2 ^ d <= 2 ^ (Zdigits2 m - 1)) by (apply Z.pow_le_mono_r; lia).
  lia.
Qed.

Lemma Zdigits2_ge m d : 2 ^ (d - 1) <= m -> d <= Zdigits2 m.
Proof.
  intros Hm. destruct (Z_le_gt_dec d 0) as [Hd|Hd].
  { pose proof (Zdigits2_nonneg m). lia. }
  assert (0 < 2 ^ (d - 1)) by (apply Z.pow_pos_nonneg; lia).
  destruct (Zdigits2_bounds m) as [_ Hu]; [lia|].
  destruct (Z_le_gt_dec d (Zdigits2 m)) as [|Hgt]; [assumption|exfalso].
  assert (2 ^ Zdigits2 m <= 2 ^ (d - 1)).
  { apply Z.pow_le_mono_r; [lia|]. lia. }
  lia.
Qed.

Lemma inject_Z_pos z : 0 < z -> (0 < inject_Z z)%Q.
Proof. intros H. change 0%Q with (inject_Z 0). now rewrite <- Zlt_Qlt. Qed.

Lemma inject_Z_nonneg z : 0 <= z -> (0 <= inject_Z z)%Q.
Proof. intros H. change 0%Q with (inject_Z 0). now rewrite <- Zle_Qle. Qed.

Section Rounding.

Variables prec emax : Z.
Hypothesis prec_gt_0 : 0 < prec.
Hypothesis prec_lt_emax : prec < emax.

Local Abbreviation fexp := (SpecFloat.fexp prec emax).
Local Abbreviation emin := (SpecFloat.emin prec emax).

Lemma fexp_ge_emin e : emin <= fexp e.
Proof. unfold SpecFloat.fexp. lia. Qed.

Lemma fexp_ge e : e - prec <= fexp e.
Proof. unfold SpecFloat.fexp. lia. Qed.

Lemma fexp_cases e : fexp e = emin \/ (emin < fexp e /\ fexp e = e - prec).
Proof. unfold SpecFloat.fexp. lia. Qed.

Lemma fexp_mono a b : a <= b -> fexp a <= fexp b.
Proof. unfold SpecFloat.fexp. lia. Qed.

(** What [shr_fexp] leaves: the cell of the target exponent that holds
    [x]. *)
Lemma shr_fexp_spec m e l x :
  0 <= m -> e <= fexp (Zdigits2 m + e) -> inbu m (bpow e) l x ->
  let mrs := fst (shr_fexp prec emax m e l) in
  let e1 := snd (shr_fexp prec emax m e l) in
  e1 = fexp (Zdigits2 m + e) /\
  inbu (shr_m mrs) (bpow e1) (loc_of_shr_record mrs) x /\
  0 <= shr_m mrs < 2 ^ prec /\
  (emin < e1 -> 2 ^ (prec - 1) <= shr_m mrs).
Proof.
  intros Hm He Hx. unfold shr_fexp, shr.
  pose proof (fexp_ge (Zdigits2 m + e)) as Hge.
  pose proof (fexp_cases (Zdigits2 m + e)) as Hc.
  pose proof (Zdigits2_nonneg m) as Hd.
  destruct (fexp (Zdigits2 m + e) - e) as [|n|n] eqn:En; try lia; cbn [fst snd].
  - rewrite shr_m_of_loc, loc_of_shr_record_of_loc.
    assert (Hdp : Zdigits2 m <= prec) by lia.
    repeat split; try lia; try assumption.
    + destruct (Z.eq_dec m 0) as [->|Hn]; [apply Z.pow_pos_nonneg; lia|].
      destruct (Zdigits2_bounds m) as [_ Hu]; [lia|].
      assert (2 ^ Zdigits2 m <= 2 ^ prec) by (apply Z.pow_le_mono_r; lia).
      lia.
    + intros Hlt. assert (Ed : Zdigits2 m = prec) by lia.
      destruct (Z.eq_dec m 0) as [->|Hn]; [cbn in Ed; lia|].
      destruct (Zdigits2_bounds m) as [Hl _]; [lia|]. now rewrite Ed in Hl.
  - destruct (iter_shr_1 n (shr_record_of_loc m l) (bpow e) x) as [Em Hin].
    + apply bpow_pos.
    + rewrite shr_m_of_loc. exact Hm.
    + rewrite shr_m_of_loc, loc_of_shr_record_of_loc. exact Hx.
    + rewrite shr_m_of_loc in Em.
      assert (Pn : 0 < 2 ^ Zpos n) by (apply Z.pow_pos_nonneg; lia).
      repeat split; try lia.
      * eapply inbu_ext; [|exact Hin].
        rewrite bpow_add, <- bpow_Z by lia. ring.
      * rewrite Em. apply Z.div_pos; lia.
      * rewrite Em. apply Z.div_lt_upper_bound; [lia|].
        rewrite <- Z.pow_add_r by lia.
        destruct (Z.eq_dec m 0) as [->|Hn]; [apply Z.pow_pos_nonneg; lia|].
        destruct (Zdigits2_bounds m) as [_ Hu]; [lia|].
        assert (2 ^ Zdigits2 m <= 2 ^ (Zpos n + prec))
          by (apply Z.pow_le_mono_r; lia).
        lia.
      * intros Hlt. rewrite Em.
        assert (En' : Zpos n = Zdigits2 m - prec) by lia.
        apply Z.div_le_lower_bound; [lia|].
        rewrite <- Z.pow_add_r by lia.
        destruct (Z.eq_dec m 0) as [->|Hn]; [cbn in En'; lia|].
        destruct (Zdigits2_bounds m) as [Hl _]; [lia|].
        replace (Zpos n + (prec - 1)) with (Zdigits2 m - 1) by lia.
        exact Hl.
Qed.

Lemma canonical_digits m e :
  canonical prec emax m e ->
  emin <= e /\ m < 2 ^ prec /\ (emin < e -> 2 ^ (prec - 1) <= m).
Proof.
  intros [Hm Hc].
  pose proof (fexp_cases (Zdigits2 m + e)) as Hf.
  pose proof (fexp_ge (Zdigits2 m + e)) as Hg.
  destruct (Zdigits2_bounds m Hm) as [Hl Hu].
  repeat split.
  - lia.
  - assert (2 ^ Zdigits2 m <= 2 ^ prec) by (apply Z.pow_le_mono_r; lia). lia.
  - intros He. replace (prec - 1) with (Zdigits2 m - 1) by lia. exact Hl.
Qed.

(** A number of the format lies on no cell's inside: seen from the cell
    [m1 * 2^e1 .. (m1 + 1) * 2^e1] of a target exponent it is at most the
    lower end or at least the upper end. *)
Lemma format_outside_cell m1 e1 mg eg :
  0 <= m1 -> emin <= e1 -> (emin < e1 -> 2 ^ (prec - 1) <= m1) ->
  canonical prec emax mg eg ->
  (inject_Z mg * bpow eg <= inject_Z m1 * bpow e1 \/
   inject_Z (m1 + 1) * bpow e1 <= inject_Z mg * bpow eg)%Q.
Proof.
  intros Hm1 He1 Hn Hc.
  destruct (canonical_digits _ _ Hc) as (Heg & Hmg & _).
  destruct Hc as [Hpos _].
  destruct (Z_le_gt_dec e1 eg) as [Hle|Hgt].
  - (* the number is a multiple of the cell width *)
    assert (E : (bpow eg == inject_Z (2 ^ (eg - e1)) * bpow e1)%Q).
    { rewrite <- bpow_Z by lia. rewrite <- bpow_add. now replace (eg - e1 + e1) with eg by lia. }
    rewrite E.
    pose proof (bpow_pos e1) as Hb.
    assert (P : 0 < 2 ^ (eg - e1)) by (apply Z.pow_pos_nonneg; lia).
    destruct (Z_le_gt_dec (mg * 2 ^ (eg - e1)) m1) as [Hs|Hs].
    + left. rewrite Qmult_assoc, <- inject_Z_mult.
      apply Qmult_le_compat_r; [|lra]. now rewrite <- Zle_Qle.
    + right. rewrite Qmult_assoc, <- inject_Z_mult.
      apply Qmult_le_compat_r; [|lra]. rewrite <- Zle_Qle. lia.
  - (* the number is below the first number of the binade of the cell *)
    left. specialize (Hn ltac:(lia)).
    assert (E : (bpow e1 == inject_Z (2 ^ (e1 - eg)) * bpow eg)%Q).
    { rewrite <- bpow_Z by lia. rewrite <- bpow_add. now replace (e1 - eg + eg) with e1 by lia. }
    rewrite E, Qmult_assoc, <- inject_Z_mult.
    pose proof (bpow_pos eg) as Hb.
    apply Qmult_le_compat_r; [|lra]. rewrite <- Zle_Qle.
    assert (2 * 2 ^ (prec - 1) = 2 ^ prec).
    { rewrite <- Z.pow_succ_r by lia. f_equal. lia. }
    assert (2 ^ 1 <= 2 ^ (e1 - eg)) by (apply Z.pow_le_mono_r; lia).
    nia.
Qed.

Lemma inbu_bounds m u l x :
  (0 < u)%Q -> inbu m u l x ->
  (inject_Z m * u <= x /\ x < (inject_Z m + 1) * u)%Q.
Proof.
  intros Hu. destruct l as [|[]]; cbn -[inject_Z Qmult Qplus]; intros H; lra.
Qed.

Lemma round_nearest_even_cases m l x u :
  (0 < u)%Q -> inbu m u l x ->
  (round_nearest_even m l = m /\
   (inject_Z m * u <= x /\ 2 * x <= (2 * inject_Z m + 1) * u)%Q) \/
  (round_nearest_even m l = m + 1 /\
   (inject_Z m * u < x /\ (2 * inject_Z m + 1) * u <= 2 * x)%Q).
Proof.
  intros Hu. destruct l as [|[]]; cbn -[inject_Z Qmult Qplus]; intros H.
  - left. split; [reflexivity|lra].
  - destruct (Z.even m); [left|right]; (split; [reflexivity|lra]).
  - left. split; [reflexivity|lra].
  - right. split; [reflexivity|lra].
Qed.

Lemma canonical_le_exponent m e mb eb :
  canonical prec emax m e -> canonical prec emax mb eb ->
  (inject_Z m * bpow e <= inject_Z mb * bpow eb)%Q -> e <= eb.
Proof.
  intros Hc Hb Hle.
  destruct (Z_le_gt_dec e eb) as [|Hgt]; [assumption|exfalso].
  destruct (canonical_digits _ _ Hc) as (_ & _ & Hn).
  destruct (canonical_digits _ _ Hb) as (Heb & Hmb & _).
  specialize (Hn ltac:(lia)).
  assert (E : (bpow e == inject_Z (2 ^ (e - eb)) * bpow eb)%Q).
  { rewrite <- bpow_Z by lia. rewrite <- bpow_add.
    now replace (e - eb + eb) with e by lia. }
  rewrite E, Qmult_assoc, <- inject_Z_mult in Hle.
  pose proof (bpow_pos eb) as Hp.
  apply Qmult_le_r in Hle; [|assumption]. rewrite <- Zle_Qle in Hle.
  assert (2 * 2 ^ (prec - 1) = 2 ^ prec).
  { rewrite <- Z.pow_succ_r by lia. f_equal. lia. }
  assert (2 ^ 1 <= 2 ^ (e - eb)) by (apply Z.pow_le_mono_r; lia).
  nia.
Qed.

Lemma bounded_canonical m e :
  bounded prec emax m e = true <->
  canonical prec emax (Zpos m) e /\ e <= emax - prec.
Proof.
  unfold bounded, canonical_mantissa, canonical.
  rewrite andb_true_iff, Z.eqb_eq, Z.leb_le. cbn [Zdigits2].
  intuition lia.
Qed.

(** Shifting an exact mantissa that already fits changes nothing. *)
Lemma shr_fexp_fits m e :
  0 <= m < 2 ^ prec -> emin <= e ->
  shr_fexp prec emax m e loc_Exact = (Build_shr_record m false false, e).
Proof.
  intros Hm He. unfold shr_fexp, shr. cbn [shr_record_of_loc].
  assert (Hd : Zdigits2 m <= prec) by (apply Zdigits2_le; lia).
  assert (Hf : fexp (Zdigits2 m + e) - e <= 0).
  { unfold SpecFloat.fexp. lia. }
  destruct (fexp (Zdigits2 m + e) - e); try reflexivity; lia.
Qed.

(** When rounding up carried into the next binade, one more shift puts
    the mantissa back into range. *)
Lemma shr_fexp_carry e :
  emin <= e ->
  shr_fexp prec emax (2 ^ prec) e loc_Exact =
  (Build_shr_record (2 ^ (prec - 1)) false false, e + 1).
Proof.
  intros He. unfold shr_fexp, shr. cbn [shr_record_of_loc].
  assert (P : 0 < 2 ^ (prec - 1)) by (apply Z.pow_pos_nonneg; lia).
  assert (E2 : 2 ^ prec = 2 * 2 ^ (prec - 1)).
  { rewrite <- Z.pow_succ_r by lia. f_equal. lia. }
  assert (Hd : Zdigits2 (2 ^ prec) = prec + 1).
  { apply Z.le_antisymm.
    - apply Zdigits2_le; [lia|]. split; [lia|].
      apply Z.pow_lt_mono_r; lia.
    - apply Zdigits2_ge. replace (prec + 1 - 1) with prec by lia. lia. }
  rewrite Hd.
  replace (fexp (prec + 1 + e) - e) with 1 by (unfold SpecFloat.fexp; lia).
  cbn [iter_pos]. rewrite E2.
  destruct (2 ^ (prec - 1)) as [|q|q]; try lia.
  reflexivity.
Qed.

Lemma nearest_ext x v v' : (v == v')%Q -> nearest prec emax x v -> nearest prec emax x v'.
Proof.
  intros E H g Hg. destruct (H g Hg) as [H1 H2].
  split; intros Hle; [destruct (H1 Hle)|destruct (H2 Hle)]; split; lra.
Qed.

(** Rounding to nearest: the result of [binary_round_aux] on a cell that
    holds [x], when [x] does not exceed the format. *)
Theorem binary_round_aux_nearest s m e l x B :
  0 <= m -> e <= fexp (Zdigits2 m + e) -> inbu m (bpow e) l x ->
  representable prec emax B -> (x <= B)%Q ->
  rounded prec emax s x (binary_round_aux prec emax s m e l).
Proof.
  intros Hm He Hx RB HB.
  unfold binary_round_aux.
  destruct (shr_fexp_spec m e l x Hm He Hx) as (E1 & Hin & Hm1 & Hn1).
  destruct (shr_fexp prec emax m e l) as [mrs1 e1]. cbn [fst snd] in *.
  set (m1 := shr_m mrs1) in *. set (l1 := loc_of_shr_record mrs1) in *.
  assert (He1 : emin <= e1) by (rewrite E1; apply fexp_ge_emin).
  pose proof (bpow_pos e1) as Hu.
  destruct (inbu_bounds _ _ _ _ Hu Hin) as [Hlo Hhi].
  assert (Hlo0 : (0 <= inject_Z m1 * bpow e1)%Q)
    by (apply Qmult_le_0_compat; [apply inject_Z_nonneg; lia|lra]).
  (* every number of the format is outside the cell *)
  assert (G : forall g, representable prec emax g ->
            (g <= inject_Z m1 * bpow e1 \/
             (inject_Z m1 + 1) * bpow e1 <= g)%Q).
  { intros g [Eg|(mg & eg & bg & Eg)]; rewrite Eg.
    - now left.
    - apply bounded_canonical in bg. destruct bg as [cg _].
      destruct (format_outside_cell m1 e1 (Zpos mg) eg) as [H|H];
        try assumption; try lia; [now left|right].
      rewrite inject_Z_plus in H. exact H. }
  (* the rounded mantissa and its value *)
  assert (Hv : exists m2, round_nearest_even m1 l1 = m2 /\
             (m2 = m1 \/ m2 = m1 + 1) /\
             nearest prec emax x (inject_Z m2 * bpow e1)).
  { destruct (round_nearest_even_cases _ _ _ _ Hu Hin) as [[E Hc]|[E Hc]];
      rewrite E; eexists; (split; [reflexivity|]); (split; [lia|]);
      intros g Hg; destruct (G g Hg) as [Hg1|Hg1];
      rewrite ?inject_Z_plus; change (inject_Z 1) with 1%Q;
      split; intros Hle; split; lra. }
  destruct Hv as (m2 & -> & Hm2 & Hnear).
  assert (HvB : (inject_Z m2 * bpow e1 <= B)%Q).
  { destruct (Hnear B RB) as [_ H]. destruct (H HB). assumption. }
  (* the second shift *)
  assert (Hfin : exists m3 e3,
             shr_fexp prec emax m2 e1 loc_Exact =
               (Build_shr_record m3 false false, e3) /\
             (inject_Z m3 * bpow e3 == inject_Z m2 * bpow e1)%Q /\
             (m3 = 0 \/ canonical prec emax m3 e3)).
  { destruct (Z.eq_dec m2 (2 ^ prec)) as [Ec|Nc].
    - exists (2 ^ (prec - 1)), (e1 + 1). rewrite Ec. split; [|split].
      + now apply shr_fexp_carry.
      + rewrite bpow_add. change (bpow 1) with 2%Q.
        replace (2 ^ prec) with (2 ^ (prec - 1) * 2).
        * rewrite inject_Z_mult. change (inject_Z 2) with 2%Q. ring.
        * rewrite Z.mul_comm, <- Z.pow_succ_r by lia. f_equal. lia.
      + right. split; [apply Z.pow_pos_nonneg; lia|].
        assert (Hd : Zdigits2 (2 ^ (prec - 1)) = prec).
        { apply Z.le_antisymm.
          - apply Zdigits2_le; [lia|]. split; [apply Z.pow_nonneg; lia|].
            apply Z.pow_lt_mono_r; lia.
          - apply Zdigits2_ge. lia. }
        rewrite Hd. unfold SpecFloat.fexp. lia.
    - exists m2, e1. split; [|split].
      + apply shr_fexp_fits; [lia|assumption].
      + reflexivity.
      + destruct (Z.eq_dec m2 0) as [|Hz]; [now left|right].
        split; [lia|].
        assert (Hd : Zdigits2 m2 <= prec) by (apply Zdigits2_le; lia).
        destruct (Z.eq_dec e1 emin) as [Ee|Ne].
        * unfold SpecFloat.fexp. lia.
        * specialize (Hn1 ltac:(lia)).
          assert (prec <= Zdigits2 m2) by (apply Zdigits2_ge; lia).
          unfold SpecFloat.fexp. lia. }
  destruct Hfin as (m3 & e3 & -> & Ev & Hc3). cbn [shr_m].
  rewrite <- Ev in HvB. apply (nearest_ext _ _ _ (Qeq_sym _ _ Ev)) in Hnear.
  destruct Hc3 as [->|Hc3].
  - cbn [rounded]. split; [reflexivity|].
    eapply nearest_ext; [|exact Hnear]. change (inject_Z 0) with 0%Q. ring.
  - destruct m3 as [|p3|p3]; try (destruct Hc3; lia).
    assert (Hov : e3 <= emax - prec).
    { destruct RB as [EB|(mb & eb & bb & EB)]; rewrite EB in *.
      - exfalso.
        assert (0 < inject_Z (Zpos p3) * bpow e3)%Q.
        { apply Qmult_lt_0_compat; [now apply inject_Z_pos|apply bpow_pos]. }
        lra.
      - apply bounded_canonical in bb. destruct bb as [cb Hb].
        pose proof (canonical_le_exponent _ _ _ _ Hc3 cb HvB). lia. }
    apply Z.leb_le in Hov. rewrite Hov. cbn [rounded].
    split; [reflexivity|]. split; [|assumption].
    apply bounded_canonical. split; [assumption|now apply Z.leb_le].
Qed.

Lemma rounded_nearest s x f : rounded prec emax s x f -> nearest prec emax x (mag f).
Proof. destruct f; cbn [rounded mag]; intuition. Qed.

Lemma rounded_representable s x f : rounded prec emax s x f -> representable prec emax (mag f).
Proof.
  destruct f as [| | |sf m e]; cbn [rounded mag]; try (now left); try tauto.
  intros (_ & Hb & _). right. exists m, e. split; [assumption|reflexivity].
Qed.

Lemma rounded_between s x f A B :
  rounded prec emax s x f -> representable prec emax A -> representable prec emax B ->
  (A <= x <= B)%Q -> (A <= mag f <= B)%Q.
Proof.
  intros H RA RB [HA HB]. apply rounded_nearest in H.
  destruct (H A RA) as [H1 _]. destruct (H B RB) as [_ H2].
  destruct (H1 HA). destruct (H2 HB). split; assumption.
Qed.

(** Rounding is monotone. *)
Lemma rounded_mono s x f s' y f' :
  rounded prec emax s x f -> rounded prec emax s' y f' -> (x < y)%Q -> (mag f <= mag f')%Q.
Proof.
  intros Hx Hy Hlt.
  pose proof (rounded_representable _ _ _ Hx) as Rx.
  pose proof (rounded_representable _ _ _ Hy) as Ry.
  apply rounded_nearest in Hx, Hy.
  destruct (Hx _ Ry) as [Hx1 Hx2]. destruct (Hy _ Rx) as [Hy1 Hy2].
  destruct (Qlt_le_dec x (mag f')) as [H|H].
  - destruct (Hx2 (Qlt_le_weak _ _ H)). assumption.
  - destruct (Hx1 H) as [_ Ha].
    destruct (Qlt_le_dec y (mag f)) as [H'|H'].
    + destruct (Hy2 (Qlt_le_weak _ _ H')) as [_ Hb]. lra.
    + destruct (Hy1 H'). assumption.
Qed.

(** *** The operations *)

Lemma iter_xO_value m d : Zpos (Pos.iter xO m d) = Zpos m * 2 ^ Zpos d.
Proof.
  induction d as [|d IH] using Pos.peano_ind.
  - cbn [Pos.iter]. lia.
  - rewrite Pos.iter_succ, Pos2Z.inj_xO, IH, Pos2Z.inj_succ, Z.pow_succ_r by lia.
    ring.
Qed.

Lemma iter_xO_digits m d :
  Zdigits2 (Zpos (Pos.iter xO m d)) = Zdigits2 (Zpos m) + Zpos d.
Proof.
  induction d as [|d IH] using Pos.peano_ind.
  - cbn. lia.
  - rewrite Pos.iter_succ. cbn [Zdigits2 digits2_pos] in *.
    rewrite Pos2Z.inj_succ, IH. lia.
Qed.

Lemma shl_align_spec mx ex ex' :
  let mz := fst (shl_align mx ex ex') in
  let ez := snd (shl_align mx ex ex') in
  ez = Z.min ex ex' /\
  Zpos mz = Zpos mx * 2 ^ (ex - ez) /\
  Zdigits2 (Zpos mz) + ez = Zdigits2 (Zpos mx) + ex.
Proof.
  unfold shl_align. destruct (ex' - ex) as [|d|d] eqn:E; cbn [fst snd].
  - replace (ex - ex) with 0 by lia. repeat split; lia.
  - replace (ex - ex) with 0 by lia. repeat split; lia.
  - rewrite iter_xO_digits, iter_xO_value.
    replace (ex - ex') with (Zpos d) by lia. repeat split; lia.
Qed.

Lemma shl_align_value mx ex ex' :
  (inject_Z (Zpos (fst (shl_align mx ex ex'))) *
     bpow (snd (shl_align mx ex ex')) ==
   inject_Z (Zpos mx) * bpow ex)%Q.
Proof.
  destruct (shl_align_spec mx ex ex') as (Ee & Em & _).
  rewrite Em, inject_Z_mult, <- bpow_Z, <- Qmult_assoc, <- bpow_add by lia.
  now replace (ex - snd (shl_align mx ex ex') + snd (shl_align mx ex ex'))
    with ex by lia.
Qed.

Theorem binary_round_nearest s m e B :
  representable prec emax B -> (inject_Z (Zpos m) * bpow e <= B)%Q ->
  rounded prec emax s (inject_Z (Zpos m) * bpow e) (binary_round prec emax s m e).
Proof.
  intros RB HB. unfold binary_round.
  pose proof (shl_align_spec m e (fexp (Zpos (digits2_pos m) + e))) as Hs.
  pose proof (shl_align_value m e (fexp (Zpos (digits2_pos m) + e))) as Hv.
  destruct (shl_align m e (fexp (Zpos (digits2_pos m) + e))) as [mz ez].
  cbn [fst snd] in *. destruct Hs as (Ee & Em & Ed).
  apply binary_round_aux_nearest with B; try assumption; try lia.
  - rewrite Ed. cbn [Zdigits2]. lia.
  - cbn [inbu]. now symmetry.
Qed.

Lemma rounded_ext s x x' f : (x == x')%Q -> rounded prec emax s x f -> rounded prec emax s x' f.
Proof.
  intros E. assert (N : forall v, nearest prec emax x v -> nearest prec emax x' v).
  { intros v H g Hg. destruct (H g Hg) as [H1 H2].
    split; intros Hle; [destruct H1|destruct H2]; try split; lra. }
  destruct f; cbn [rounded]; intuition.
Qed.

Theorem SFadd_nearest mx ex my ey B :
  representable prec emax B ->
  (inject_Z (Zpos mx) * bpow ex + inject_Z (Zpos my) * bpow ey <= B)%Q ->
  rounded prec emax false (inject_Z (Zpos mx) * bpow ex + inject_Z (Zpos my) * bpow ey)
    (SFadd prec emax (S754_finite false mx ex) (S754_finite false my ey)).
Proof.
  intros RB HB. cbn [SFadd cond_Zopp].
  pose proof (shl_align_spec mx ex (Z.min ex ey)) as (Ex & _).
  pose proof (shl_align_spec my ey (Z.min ex ey)) as (Ey & _).
  pose proof (shl_align_value mx ex (Z.min ex ey)) as Vx.
  pose proof (shl_align_value my ey (Z.min ex ey)) as Vy.
  replace (snd (shl_align mx ex (Z.min ex ey))) with (Z.min ex ey) in Vx by lia.
  replace (snd (shl_align my ey (Z.min ex ey))) with (Z.min ex ey) in Vy by lia.
  cbn [Z.add binary_normalize].
  assert (E : (inject_Z (Zpos (fst (shl_align mx ex (Z.min ex ey)) +
                               fst (shl_align my ey (Z.min ex ey)))) *
               bpow (Z.min ex ey) ==
               inject_Z (Zpos mx) * bpow ex + inject_Z (Zpos my) * bpow ey)%Q).
  { rewrite Pos2Z.inj_add, inject_Z_plus, <- Vx, <- Vy. ring. }
  apply (rounded_ext _ _ _ _ E).
  apply binary_round_nearest with B; [assumption|]. now rewrite E.
Qed.

Lemma Zdigits2_mul_ge a b :
  0 < a -> 0 < b -> Zdigits2 a + Zdigits2 b - 1 <= Zdigits2 (a * b).
Proof.
  intros Ha Hb. apply Zdigits2_ge.
  destruct (Zdigits2_bounds a Ha) as [La _].
  destruct (Zdigits2_bounds b Hb) as [Lb _].
  assert (0 < Zdigits2 a).
  { destruct a; cbn; lia. }
  assert (0 < Zdigits2 b).
  { destruct b; cbn; lia. }
  replace (Zdigits2 a + Zdigits2 b - 1 - 1)
    with ((Zdigits2 a - 1) + (Zdigits2 b - 1)) by lia.
  rewrite Z.pow_add_r by lia.
  assert (0 < 2 ^ (Zdigits2 a - 1)) by (apply Z.pow_pos_nonneg; lia).
  assert (0 < 2 ^ (Zdigits2 b - 1)) by (apply Z.pow_pos_nonneg; lia).
  nia.
Qed.

Theorem SFmul_nearest sx mx ex sy my ey B :
  bounded prec emax mx ex = true -> bounded prec emax my ey = true ->
  representable prec emax B ->
  (inject_Z (Zpos mx) * bpow ex * (inject_Z (Zpos my) * bpow ey) <= B)%Q ->
  rounded prec emax (xorb sx sy)
    (inject_Z (Zpos mx) * bpow ex * (inject_Z (Zpos my) * bpow ey))
    (SFmul prec emax (S754_finite sx mx ex) (S754_finite sy my ey)).
Proof.
  intros Bx By RB HB. cbn [SFmul].
  assert (E : (inject_Z (Zpos (mx * my)) * bpow (ex + ey) ==
               inject_Z (Zpos mx) * bpow ex * (inject_Z (Zpos my) * bpow ey))%Q).
  { rewrite Pos2Z.inj_mul, inject_Z_mult, bpow_add. ring. }
  apply (rounded_ext _ _ _ _ E).
  apply binary_round_aux_nearest with B; try assumption; try lia.
  - apply bounded_canonical in Bx, By.
    destruct Bx as [[_ Cx] _]. destruct By as [[_ Cy] _].
    pose proof (Zdigits2_mul_ge (Zpos mx) (Zpos my) ltac:(lia) ltac:(lia)) as Hd.
    rewrite <- Pos2Z.inj_mul in Hd.
    assert (0 < Zdigits2 (Zpos mx)) by (cbn; lia).
    assert (0 < Zdigits2 (Zpos my)) by (cbn; lia).
    revert Cx Cy. unfold SpecFloat.fexp, SpecFloat.emin. lia.
  - cbn [inbu]. now symmetry.
  - now rewrite E.
Qed.

Lemma new_location_spec n k :
  0 < n -> 0 <= k < n ->
  match new_location n k with
  | loc_Exact => k = 0
  | loc_Inexact Lt => 0 < k /\ 2 * k < n
  | loc_Inexact Eq => 0 < k /\ 2 * k = n
  | loc_Inexact Gt => n < 2 * k
  end.
Proof.
  intros Hn Hk. unfold new_location, new_location_even, new_location_odd.
  destruct (Z.even n) eqn:Ev; destruct (Z.eqb_spec k 0) as [|Hz];
    try assumption.
  - destruct (Z.compare_spec (2 * k) n); lia.
  - assert (Ho : Z.odd n = true) by (now rewrite <- Z.negb_even, Ev).
    apply Z.odd_spec in Ho. destruct Ho as [c Hc].
    destruct (Z.compare_spec (2 * k + 1) n); lia.
Qed.

(** The cell and location of a quotient, from the Euclidean division of
    the mantissas. *)
Lemma div_inbu q r n u x :
  0 < n -> 0 <= r < n -> (0 < u)%Q ->
  (x * inject_Z n == inject_Z (n * q + r) * u)%Q ->
  inbu q u (new_location n r) x.
Proof.
  intros Hn Hr Hu Hx.
  pose proof (new_location_spec n r Hn Hr) as Hl.
  rewrite inject_Z_plus, inject_Z_mult in Hx.
  assert (HN : (0 < inject_Z n)%Q) by now apply inject_Z_pos.
  assert (HR : (0 <= inject_Z r)%Q) by (apply inject_Z_nonneg; lia).
  set (N := inject_Z n) in *. set (R := inject_Z r) in *.
  set (t := (x - inject_Z q * u)%Q).
  assert (Ht : (t * N == R * u)%Q) by (unfold t; lra).
  destruct (new_location n r) as [|[]]; cbn -[inject_Z Qmult Qplus].
  - assert (ER : R = 0%Q) by (unfold R; now rewrite Hl).
    rewrite ER in Ht. assert (t == 0)%Q by nra. unfold t in *. lra.
  - destruct Hl as [_ Hl]. assert (E2 : (2 * R == N)%Q).
    { unfold R, N. change 2%Q with (inject_Z 2).
      now rewrite <- inject_Z_mult, Hl. }
    assert (2 * t == u)%Q by nra. unfold t in *. lra.
  - destruct Hl as [H0 Hl].
    assert (0 < R)%Q by now apply inject_Z_pos.
    assert (E2 : (2 * R < N)%Q).
    { unfold R, N. change 2%Q with (inject_Z 2).
      now rewrite <- inject_Z_mult, <- Zlt_Qlt. }
    assert (0 < t /\ 2 * t < u)%Q by (split; nra). unfold t in *. lra.
  - assert (E2 : (N < 2 * R)%Q).
    { unfold R, N. change 2%Q with (inject_Z 2).
      now rewrite <- inject_Z_mult, <- Zlt_Qlt. }
    assert (E3 : (R < N)%Q) by (unfold R, N; rewrite <- Zlt_Qlt; lia).
    assert (u < 2 * t /\ t < u)%Q by (split; nra). unfold t in *. lra.
Qed.

Theorem SFdiv_nearest sx mx ex sy my ey B :
  representable prec emax B ->
  (inject_Z (Zpos mx) * bpow ex / (inject_Z (Zpos my) * bpow ey) <= B)%Q ->
  rounded prec emax (xorb sx sy)
    (inject_Z (Zpos mx) * bpow ex / (inject_Z (Zpos my) * bpow ey))
    (SFdiv prec emax (S754_finite sx mx ex) (S754_finite sy my ey)).
Proof.
  intros RB HB. cbn [SFdiv]. unfold SFdiv_core_binary.
  set (d1 := Zdigits2 (Zpos mx)). set (d2 := Zdigits2 (Zpos my)).
  set (e' := Z.min (fexp (d1 + ex - (d2 + ey))) (ex - ey)).
  set (s := ex - ey - e').
  assert (Hs : 0 <= s) by (unfold s, e'; lia).
  assert (Em : match s with
               | Zpos _ => Z.shiftl (Zpos mx) s
               | Z0 => Zpos mx
               | Zneg _ => 0
               end = Zpos mx * 2 ^ s).
  { destruct s as [|p|p]; try lia.
    now rewrite Z.shiftl_mul_pow2 by lia. }
  rewrite Em.
  assert (Ps : 0 < 2 ^ s) by (apply Z.pow_pos_nonneg; lia).
  pose proof (Z_div_mod (Zpos mx * 2 ^ s) (Zpos my) ltac:(lia)) as Hdiv.
  destruct (Z.div_eucl (Zpos mx * 2 ^ s) (Zpos my)) as [q r].
  destruct Hdiv as [Eq Hr].
  assert (Hq : 0 <= q) by nia.
  pose proof (bpow_pos e') as Hu.
  pose proof (bpow_pos ey) as Hy.
  assert (Hmy : (0 < inject_Z (Zpos my))%Q) by now apply inject_Z_pos.
  apply binary_round_aux_nearest with B; try assumption.
  - (* the quotient has enough digits *)
    assert (Hd : d1 + s - d2 <= Zdigits2 q).
    { apply Zdigits2_ge.
      destruct (Z_le_gt_dec (d1 + s - d2 - 1) (-1)) as [Hneg|Hpos].
      - destruct (d1 + s - d2 - 1) as [|p|p] eqn:E; try lia.
        cbn. lia.
      - destruct (Zdigits2_bounds (Zpos mx) ltac:(lia)) as [L1 _].
        destruct (Zdigits2_bounds (Zpos my) ltac:(lia)) as [_ U2].
        fold d1 in L1. fold d2 in U2.
        assert (0 < d1) by (unfold d1; cbn; lia).
        assert (0 < d2) by (unfold d2; cbn; lia).
        assert (E1 : 2 ^ (d1 - 1) * 2 ^ s = 2 ^ (d1 + s - d2 - 1) * 2 ^ d2).
        { rewrite <- !Z.pow_add_r by lia. f_equal. lia. }
        assert (0 <= 2 ^ (d1 + s - d2 - 1)) by (apply Z.pow_nonneg; lia).
        destruct (Z_le_gt_dec (2 ^ (d1 + s - d2 - 1)) q); [assumption|].
        exfalso. nia. }
    apply Z.le_trans with (fexp (d1 + ex - (d2 + ey))); [unfold e'; lia|].
    apply fexp_mono. unfold s in Hd. lia.
  - apply div_inbu; try assumption; try lia.
    rewrite <- Eq, inject_Z_mult, <- (bpow_Z s Hs).
    assert (Ee : (bpow ex == bpow s * bpow e' * bpow ey)%Q).
    { rewrite <- !bpow_add. unfold s. now replace (ex - ey - e' + e' + ey) with ex by lia. }
    rewrite Ee. field. split; lra.
Qed.

(** Two floats of the format with the same value are the same float. *)
Lemma canonical_unique m e m' e' :
  canonical prec emax m e -> canonical prec emax m' e' ->
  (inject_Z m * bpow e == inject_Z m' * bpow e')%Q ->
  m = m' /\ e = e'.
Proof.
  intros Hc Hc' E.
  assert (Ee : e = e').
  { apply Z.le_antisymm.
    - apply (canonical_le_exponent m e m' e'); try assumption.
      rewrite E. apply Qle_refl.
    - apply (canonical_le_exponent m' e' m e); try assumption.
      rewrite E. apply Qle_refl. }
  split; [|exact Ee]. subst e'.
  pose proof (bpow_pos e) as Hp.
  apply Qmult_inj_r in E; [|lra].
  now apply inject_Z_injective.
Qed.

(** Rounding a number of the format returns it. *)
Lemma rounded_exact s x f :
  rounded prec emax s x f -> representable prec emax x -> (mag f == x)%Q.
Proof.
  intros H R. apply rounded_nearest in H.
  destruct (H x R) as [H1 H2].
  destruct (H1 (Qle_refl x)). destruct (H2 (Qle_refl x)). lra.
Qed.

(** The numbers [k * 2^e] with a mantissa that fits and an exponent in
    range are numbers of the format. *)
Lemma representable_scaled k e :
  0 < k < 2 ^ prec -> emin <= e -> e + Zdigits2 k <= emax ->
  representable prec emax (inject_Z k * bpow e).
Proof.
  intros [Hk Hlt] He Hd.
  set (d := Zdigits2 k) in *.
  assert (Hdp : 0 < d <= prec).
  { split.
    - unfold d. destruct k; cbn; lia.
    - apply Zdigits2_le; lia. }
  set (j := Z.min (prec - d) (e - emin)).
  assert (Hj : 0 <= j) by (unfold j; lia).
  assert (Pj : 0 < 2 ^ j) by (apply Z.pow_pos_nonneg; lia).
  assert (Hm : 0 < k * 2 ^ j) by nia.
  destruct (k * 2 ^ j) as [|m|m] eqn:Em; try lia.
  right. exists m, (e - j). split.
  - apply bounded_canonical. split; [split; [lia|]|].
    + assert (Ed : Zdigits2 (Zpos m) = d + j).
      { rewrite <- Em. apply Z.le_antisymm.
        - apply Zdigits2_le; [lia|]. split; [lia|].
          destruct (Zdigits2_bounds k Hk) as [_ Hu]. fold d in Hu.
          rewrite Z.pow_add_r by lia. nia.
        - apply Zdigits2_ge.
          destruct (Zdigits2_bounds k Hk) as [Hl _]. fold d in Hl.
          replace (d + j - 1) with (d - 1 + j) by lia.
          rewrite Z.pow_add_r by lia. nia. }
      rewrite Ed. unfold SpecFloat.fexp, j. lia.
    + unfold j, SpecFloat.emin in *. lia.
  - rewrite <- Em, inject_Z_mult, <- (bpow_Z j Hj).
    assert (E : (bpow e == bpow j * bpow (e - j))%Q).
    { rewrite <- bpow_add. now replace (j + (e - j)) with e by lia. }
    rewrite E. ring.
Qed.

(** Subtraction of positive floats: the sign of the result is the sign of
    the exact difference, and the magnitude is rounded to nearest. *)
Theorem SFsub_nearest mx ex my ey B :
  representable prec emax B ->
  let x := (inject_Z (Zpos mx) * bpow ex)%Q in
  let y := (inject_Z (Zpos my) * bpow ey)%Q in
  let r := SFsub prec emax (S754_finite false mx ex)
             (S754_finite false my ey) in
  (x - y <= B /\ y - x <= B)%Q ->
  ((x == y)%Q /\ r = S754_zero false) \/
  ((y < x)%Q /\ rounded prec emax false (x - y) r) \/
  ((x < y)%Q /\ rounded prec emax true (y - x) r).
Proof.
  intros RB x y r [HB1 HB2]. subst r. cbn [SFsub cond_Zopp].
  pose proof (shl_align_spec mx ex (Z.min ex ey)) as (Ex & _).
  pose proof (shl_align_spec my ey (Z.min ex ey)) as (Ey & _).
  pose proof (shl_align_value mx ex (Z.min ex ey)) as Vx.
  pose proof (shl_align_value my ey (Z.min ex ey)) as Vy.
  replace (snd (shl_align mx ex (Z.min ex ey))) with (Z.min ex ey) in Vx by lia.
  replace (snd (shl_align my ey (Z.min ex ey))) with (Z.min ex ey) in Vy by lia.
  fold x in Vx. fold y in Vy.
  set (ax := fst (shl_align mx ex (Z.min ex ey))) in *.
  set (ay := fst (shl_align my ey (Z.min ex ey))) in *.
  set (ez := Z.min ex ey) in *.
  pose proof (bpow_pos ez) as Hp.
  assert (Ed : (inject_Z (Zpos ax - Zpos ay) * bpow ez == x - y)%Q).
  { unfold Z.sub. rewrite inject_Z_plus, inject_Z_opp, <- Vx, <- Vy. ring. }
  destruct (Zpos ax - Zpos ay) as [|p|p] eqn:Es.
  - left. split; [|reflexivity].
    change (inject_Z 0) with 0%Q in Ed. lra.
  - right. left.
    assert (0 < inject_Z (Zpos p) * bpow ez)%Q.
    { apply Qmult_lt_0_compat; [now apply inject_Z_pos|assumption]. }
    split; [lra|]. cbn [binary_normalize].
    apply (rounded_ext _ _ _ _ Ed).
    apply binary_round_nearest with B; try assumption. now rewrite Ed.
  - right. right.
    assert (En : (inject_Z (Zpos p) * bpow ez == y - x)%Q).
    { change (Zneg p) with (- Zpos p) in Ed. rewrite inject_Z_opp in Ed. lra. }
    assert (0 < inject_Z (Zpos p) * bpow ez)%Q.
    { apply Qmult_lt_0_compat; [now apply inject_Z_pos|assumption]. }
    split; [lra|]. cbn [binary_normalize].
    apply (rounded_ext _ _ _ _ En).
    apply binary_round_nearest with B; try assumption. now rewrite En.
Qed.

End Rounding.

(** ** Single precision *)

Lemma F32_prec_gt_0 : 0 < F32.prec.
Proof. reflexivity. Qed.

Lemma F32_prec_lt_emax : F32.prec < F32.emax.
Proof. reflexivity. Qed.

(** On floats that are not negative the value is the magnitude. *)
Lemma to_Q_mag f :
  match f with S754_finite true _ _ => False | _ => True end ->
  F32.to_Q f = mag f.
Proof. destruct f as [| | |[] m e]; cbn; tauto. Qed.

Lemma representable_float s m e :
  bounded F32.prec F32.emax m e = true ->
  representable F32.prec F32.emax (mag (S754_finite s m e)).
Proof. intros H. right. exists m, e. split; [assumption|reflexivity]. Qed.

Lemma representable_zero : representable F32.prec F32.emax 0.
Proof. now left. Qed.

(** [(float) z] for a positive [int]. *)
Lemma of_Z_rounded z :
  0 < z <= 2 ^ 31 ->
  rounded F32.prec F32.emax false (inject_Z z) (F32.of_Z z).
Proof.
  intros [Hz Hle]. destruct z as [|p|p]; try lia.
  unfold F32.of_Z. cbn [binary_normalize].
  assert (E : (inject_Z (Zpos p) * bpow 0 == inject_Z (Zpos p))%Q).
  { change (bpow 0) with 1%Q. ring. }
  apply (rounded_ext _ _ _ _ _ _ E).
  apply binary_round_nearest
    with (B := mag (S754_finite false 8388608 8)).
  - exact F32_prec_gt_0.
  - now apply representable_float.
  - rewrite E. change (mag (S754_finite false 8388608 8))
      with (inject_Z 8388608 * bpow 8)%Q.
    rewrite (bpow_Z 8) by lia. rewrite <- inject_Z_mult, <- Zle_Qle.
    exact Hle.
Qed.

(** A float that [rounded] allows, with sign [false], is zero or a
    positive finite float. *)
Lemma rounded_false_cases x f :
  rounded F32.prec F32.emax false x f ->
  f = S754_zero false \/
  exists m e, f = S754_finite false m e /\
              bounded F32.prec F32.emax m e = true.
Proof.
  destruct f as [s| | |s m e]; cbn [rounded]; try tauto.
  - intros [-> _]. now left.
  - intros (-> & Hb & _). right. now exists m, e.
Qed.

Lemma of_Z_positive z :
  0 < z <= 2 ^ 31 ->
  exists m e, F32.of_Z z = S754_finite false m e /\
              bounded F32.prec F32.emax m e = true /\
              (1 <= mag (F32.of_Z z))%Q.
Proof.
  intros Hz. pose proof (of_Z_rounded z Hz) as Hr.
  assert (Hb : (1 <= mag (F32.of_Z z) <= mag (S754_finite false 8388608 8))%Q).
  { apply rounded_between with (prec := F32.prec) (emax := F32.emax)
                               (s := false) (x := inject_Z z).
    - exact Hr.
    - right. exists 8388608%positive, (-23). now split.
    - now apply representable_float.
    - change (mag (S754_finite false 8388608 8))
        with (inject_Z 8388608 * bpow 8)%Q.
      rewrite (bpow_Z 8) by lia. rewrite <- inject_Z_mult.
      change 1%Q with (inject_Z 1). rewrite <- !Zle_Qle. lia. }
  destruct (rounded_false_cases _ _ Hr) as [E|(m & e & E & Hbd)].
  - rewrite E in Hb. cbn [mag] in Hb. lra.
  - exists m, e. now rewrite <- E.
Qed.

(** [(float) z] is monotone on positive [int]s. *)
Lemma of_Z_mono a b :
  0 < a <= b -> b <= 2 ^ 31 -> (mag (F32.of_Z a) <= mag (F32.of_Z b))%Q.
Proof.
  intros [Ha Hab] Hb. destruct (Z.eq_dec a b) as [->|Hn]; [lra|].
  apply rounded_mono with (prec := F32.prec) (emax := F32.emax)
    (s := false) (x := inject_Z a) (s' := false) (y := inject_Z b).
  - apply of_Z_rounded. lia.
  - apply of_Z_rounded. lia.
  - rewrite <- Zlt_Qlt. lia.
Qed.

(** A finite float divided by itself is one. *)
Lemma div_self m e :
  bounded F32.prec F32.emax m e = true ->
  F32.div (S754_finite false m e) (S754_finite false m e) = F32.one.
Proof.
  intros Hb.
  assert (Hpos : (0 < inject_Z (Zpos m) * bpow e)%Q).
  { apply Qmult_lt_0_compat; [now apply inject_Z_pos|apply bpow_pos]. }
  assert (R1 : representable F32.prec F32.emax 1).
  { right. exists 8388608%positive, (-23). now split. }
  assert (Hm0 : (0 < inject_Z (Zpos m))%Q) by now apply inject_Z_pos.
  pose proof (bpow_pos e) as He0.
  assert (E1 : (inject_Z (Zpos m) * bpow e / (inject_Z (Zpos m) * bpow e)
                == 1)%Q) by (field; split; lra).
  assert (Hq : (inject_Z (Zpos m) * bpow e / (inject_Z (Zpos m) * bpow e)
                <= 1)%Q) by (rewrite E1; apply Qle_refl).
  pose proof (SFdiv_nearest F32.prec F32.emax F32_prec_gt_0
                false m e false m e 1%Q R1 Hq) as Hr.
  cbn [xorb] in Hr.
  assert (Hm : (1 <= mag (F32.div (S754_finite false m e)
                            (S754_finite false m e)) <= 1)%Q).
  { apply rounded_between with (prec := F32.prec) (emax := F32.emax)
      (s := false)
      (x := (inject_Z (Zpos m) * bpow e / (inject_Z (Zpos m) * bpow e))%Q);
      try assumption.
    rewrite E1. split; apply Qle_refl. }
  destruct (rounded_false_cases _ _ Hr) as [Ez|(m1 & e1 & Ef & Hb1)];
    unfold F32.div in *.
  - rewrite Ez in Hm. cbn [mag] in Hm. lra.
  - rewrite Ef in *. cbn [mag] in Hm.
    apply (bounded_canonical F32.prec F32.emax) in Hb1.
    destruct Hb1 as [Hc1 _].
    destruct (canonical_unique F32.prec F32.emax F32_prec_gt_0
                (Zpos m1) e1 8388608 (-23)) as [Em Ee].
    + exact Hc1.
    + now split.
    + change (inject_Z 8388608 * bpow (-23))%Q with (mag F32.one).
      assert (mag F32.one == 1)%Q by reflexivity. lra.
    + injection Em as ->. subst e1. reflexivity.
Qed.

(** ** Cell centres on grids of any size up to [2^23] *)

Lemma positive_float x f :
  rounded F32.prec F32.emax false x f -> (0 < mag f)%Q ->
  exists m e, f = S754_finite false m e /\
              bounded F32.prec F32.emax m e = true.
Proof.
  intros Hr Hpos. destruct (rounded_false_cases _ _ Hr) as [E|H]; [|exact H].
  rewrite E in Hpos. cbn [mag] in Hpos. lra.
Qed.

Lemma representable_int k e :
  0 < k < 2 ^ 24 -> -149 <= e <= 100 ->
  representable F32.prec F32.emax (inject_Z k * bpow e).
Proof.
  intros Hk He.
  apply (representable_scaled F32.prec F32.emax F32_prec_gt_0 F32_prec_lt_emax).
  - exact Hk.
  - unfold emin, F32.emax, F32.prec. lia.
  - assert (Zdigits2 k <= 24) by (apply Zdigits2_le; lia).
    unfold F32.emax. lia.
Qed.

(** [(float) k] is exact below [2^24]. *)
Lemma of_Z_exact k :
  0 < k < 2 ^ 24 ->
  exists m e, F32.of_Z k = S754_finite false m e /\
              bounded F32.prec F32.emax m e = true /\
              (mag (F32.of_Z k) == inject_Z k)%Q.
Proof.
  intros Hk. pose proof (of_Z_rounded k ltac:(lia)) as Hr.
  assert (E : (mag (F32.of_Z k) == inject_Z k)%Q).
  { apply (rounded_exact F32.prec F32.emax false _ _ Hr).
    assert (E0 : (inject_Z k * bpow 0 == inject_Z k)%Q).
    { change (bpow 0) with 1%Q. ring. }
    pose proof (representable_int k 0 Hk ltac:(lia)) as R.
    destruct R as [R|(m & e & Hb & R)]; [left|right; exists m, e; split; auto];
      now rewrite <- E0. }
  assert (Hpos : (0 < mag (F32.of_Z k))%Q).
  { rewrite E. apply inject_Z_pos. lia. }
  destruct (positive_float _ _ Hr Hpos) as (m & e & Ef & Hb).
  exists m, e. repeat split; assumption.
Qed.

(** [0.5f + i] is exact for [i] below [2^23]. *)
Lemma half_plus_exact i :
  0 <= i < 2 ^ 23 ->
  exists m e, F32.add F32.half (F32.of_Z i) = S754_finite false m e /\
              bounded F32.prec F32.emax m e = true /\
              (inject_Z (Zpos m) * bpow e == inject_Z (2 * i + 1) * bpow (-1))%Q.
Proof.
  intros Hi. destruct (Z.eq_dec i 0) as [->|Hn].
  - exists 8388608%positive, (-24). now repeat split.
  - destruct (of_Z_exact i ltac:(lia)) as (mi & ei & Ei & Bi & Vi).
    rewrite Ei in *. cbn [mag] in Vi.
    assert (Ex : (inject_Z 8388608 * bpow (-24) + inject_Z (Zpos mi) * bpow ei
                  == inject_Z (2 * i + 1) * bpow (-1))%Q).
    { rewrite Vi, inject_Z_plus, inject_Z_mult.
      change (inject_Z 8388608 * bpow (-24))%Q with (8388608 # 16777216)%Q.
      change (bpow (-1)) with (1 # 2)%Q. change (inject_Z 2) with 2%Q.
      change (inject_Z 1) with 1%Q. field. }
    pose proof (representable_int (2 * i + 1) (-1) ltac:(lia) ltac:(lia)) as R.
    assert (R' : representable F32.prec F32.emax
                   (inject_Z 8388608 * bpow (-24) +
                    inject_Z (Zpos mi) * bpow ei)).
    { destruct R as [R|(m & e & Hb & R)];
        [left|right; exists m, e; split; auto]; now rewrite Ex. }
    pose proof (SFadd_nearest F32.prec F32.emax F32_prec_gt_0
                  8388608 (-24) mi ei _ R' (Qle_refl _)) as Hr.
    pose proof (rounded_exact F32.prec F32.emax false _ _ Hr R') as Em.
    assert (Hpos : (0 < mag (SFadd F32.prec F32.emax
                               (S754_finite false 8388608 (-24))
                               (S754_finite false mi ei)))%Q).
    { rewrite Em, Ex. apply Qmult_lt_0_compat; [apply inject_Z_pos; lia|].
      apply bpow_pos. }
    destruct (positive_float _ _ Hr Hpos) as (m & e & Ef & Hb).
    exists m, e. unfold F32.add, F32.half. rewrite Ef in *.
    repeat split; try assumption. cbn [mag] in Em. now rewrite Em.
Qed.

(** [2.0f * (0.5f + i)] is exact for [i] below [2^23]. *)
Lemma twice_half_plus_exact i :
  0 <= i < 2 ^ 23 ->
  exists m e,
    F32.mul F32.two (F32.add F32.half (F32.of_Z i)) = S754_finite false m e /\
    bounded F32.prec F32.emax m e = true /\
    (inject_Z (Zpos m) * bpow e == inject_Z (2 * i + 1))%Q.
Proof.
  intros Hi. destruct (half_plus_exact i Hi) as (m1 & e1 & E1 & B1 & V1).
  rewrite E1.
  assert (Ex : (inject_Z 8388608 * bpow (-22) * (inject_Z (Zpos m1) * bpow e1)
                == inject_Z (2 * i + 1))%Q).
  { rewrite V1. change (inject_Z 8388608 * bpow (-22))%Q with (8388608 # 4194304)%Q.
    change (bpow (-1)) with (1 # 2)%Q. field. }
  assert (R : representable F32.prec F32.emax
                (inject_Z 8388608 * bpow (-22) *
                 (inject_Z (Zpos m1) * bpow e1))).
  { pose proof (representable_int (2 * i + 1) 0 ltac:(lia) ltac:(lia)) as R.
    assert (E0 : (inject_Z (2 * i + 1) * bpow 0 == inject_Z (2 * i + 1))%Q).
    { change (bpow 0) with 1%Q. ring. }
    destruct R as [R|(m & e & Hb & R)];
      [left|right; exists m, e; split; auto]; now rewrite Ex, <- E0. }
  pose proof (SFmul_nearest F32.prec F32.emax F32_prec_gt_0 F32_prec_lt_emax
                false 8388608 (-22) false m1 e1 _ eq_refl B1 R (Qle_refl _))
    as Hr.
  cbn [xorb] in Hr.
  pose proof (rounded_exact F32.prec F32.emax false _ _ Hr R) as Em.
  assert (Hpos : (0 < mag (SFmul F32.prec F32.emax
                             (S754_finite false 8388608 (-22))
                             (S754_finite false m1 e1)))%Q).
  { rewrite Em, Ex. apply inject_Z_pos. lia. }
  destruct (positive_float _ _ Hr Hpos) as (m & e & Ef & Hb).
  exists m, e. unfold F32.mul, F32.two. rewrite Ef in *.
  repeat split; try assumption. cbn [mag] in Em. now rewrite Em.
Qed.

(** The centre of every cell of a grid with at most [2^23] cells on the
    axis lies strictly between -1 and 1. *)
Lemma cell_centre_inside_any (n i : nat) :
  (i < n)%nat -> Z.of_nat n <= 8388608 ->
  F32.finite (cell_centre n i) = true /\
  (-1 < F32.to_Q (cell_centre n i) < 1)%Q.
Proof.
  intros Hi Hn. unfold cell_centre.
  destruct (twice_half_plus_exact (Z.of_nat i) ltac:(lia))
    as (m2 & e2 & E2 & B2 & V2).
  destruct (of_Z_exact (Z.of_nat n) ltac:(lia)) as (mn & en & En & Bn & Vn).
  rewrite E2, En in *. cbn [mag] in Vn.
  set (a := inject_Z (Z.of_nat i)) in *. set (b := inject_Z (Z.of_nat n)) in *.
  assert (Ha : (0 <= a)%Q) by (apply inject_Z_nonneg; lia).
  assert (Hab : (a + 1 <= b)%Q).
  { unfold a, b. change 1%Q with (inject_Z 1).
    rewrite <- inject_Z_plus, <- Zle_Qle. lia. }
  assert (Hb : (b <= 8388608)%Q).
  { unfold b. change 8388608%Q with (inject_Z 8388608).
    rewrite <- Zle_Qle. lia. }
  rewrite inject_Z_plus, inject_Z_mult in V2. fold a in V2.
  change (inject_Z 2) with 2%Q in V2. change (inject_Z 1) with 1%Q in V2.
  set (lo := (1 # 8388608)%Q). set (hi := (16777215 # 8388608)%Q).
  assert (Rlo : representable F32.prec F32.emax lo).
  { right. exists 8388608%positive, (-46). now split. }
  assert (Rhi : representable F32.prec F32.emax hi).
  { right. exists 16777215%positive, (-23). now split. }
  assert (Hq : (lo <= inject_Z (Zpos m2) * bpow e2 /
                      (inject_Z (Zpos mn) * bpow en) <= hi)%Q).
  { rewrite V2, Vn. unfold lo, hi. split.
    - apply Qle_shift_div_l; lra.
    - apply Qle_shift_div_r; lra. }
  pose proof (SFdiv_nearest F32.prec F32.emax F32_prec_gt_0
                false m2 e2 false mn en hi Rhi (proj2 Hq)) as Hr.
  cbn [xorb] in Hr.
  pose proof (rounded_between F32.prec F32.emax false _ _ lo hi Hr Rlo Rhi Hq)
    as Hm.
  assert (Hpos : (0 < mag (SFdiv F32.prec F32.emax (S754_finite false m2 e2)
                             (S754_finite false mn en)))%Q).
  { unfold lo in Hm. lra. }
  destruct (positive_float _ _ Hr Hpos) as (mq & eq & Eq & Bq).
  unfold F32.div. rewrite Eq in *. cbn [mag] in Hm.
  set (top := (8388607 # 8388608)%Q).
  assert (Rtop : representable F32.prec F32.emax top).
  { right. exists 16777214%positive, (-24). now split. }
  assert (H1 : (inject_Z 8388608 * bpow (-23) == 1)%Q) by reflexivity.
  destruct (SFsub_nearest F32.prec F32.emax F32_prec_gt_0
              mq eq 8388608 (-23) top Rtop) as [[Hs Er]|[[Hs Hr']|[Hs Hr']]].
  - unfold top, lo, hi in *. split; lra.
  - unfold F32.sub, F32.one. rewrite Er. split; [reflexivity|].
    cbn [F32.to_Q]. split; reflexivity.
  - pose proof (rounded_between F32.prec F32.emax false _ _ 0 top Hr'
                  (representable_zero) Rtop) as Hb'.
    destruct (rounded_false_cases _ _ Hr') as [Ez|(m & e & Ef & Hbd)];
      unfold F32.sub, F32.one; rewrite ?Ez, ?Ef in *.
    + split; [reflexivity|]. cbn [F32.to_Q]. split; reflexivity.
    + split; [exact Hbd|]. cbn [F32.to_Q mag] in *.
      assert (0 < inject_Z (Zpos m) * bpow e)%Q.
      { apply Qmult_lt_0_compat; [now apply inject_Z_pos|apply bpow_pos]. }
      unfold top, lo, hi in *.
      assert (Hc : (0 <= inject_Z (Zpos mq) * bpow eq -
                         inject_Z 8388608 * bpow (-23) <= 8388607 # 8388608)%Q)
        by (split; lra).
      specialize (Hb' Hc). split; lra.
  - unfold F32.sub, F32.one.
    destruct (SFsub F32.prec F32.emax (S754_finite false mq eq)
                (S754_finite false 8388608 (-23))) as [s| | |s m e] eqn:Es;
      cbn [rounded] in Hr'; try tauto.
    + split; [reflexivity|]. cbn [F32.to_Q]. split; reflexivity.
    + destruct Hr' as (-> & Hbd & Hnear).
      split; [exact Hbd|]. cbn [F32.to_Q].
      destruct (Hnear top Rtop) as [_ Hup].
      assert (0 < inject_Z (Zpos m) * bpow e)%Q.
      { apply Qmult_lt_0_compat; [now apply inject_Z_pos|apply bpow_pos]. }
      assert (Hc : (inject_Z 8388608 * bpow (-23) -
                    inject_Z (Zpos mq) * bpow eq <= top)%Q)
        by (unfold top, lo, hi in *; lra).
      destruct (Hup Hc) as [Hle _].
      change (inject_Z (Zneg m)) with (inject_Z (- Zpos m)).
      rewrite inject_Z_opp. unfold top in *. split; lra.
Qed.

(** ** The size of a quad *)

Lemma to_Q_c0_05 : (F32.to_Q F32.c0_05 == 13421773 # 268435456)%Q.
Proof. reflexivity. Qed.

Lemma to_Q_c0_04 : (F32.to_Q F32.c0_04 == 10737418 # 268435456)%Q.
Proof. reflexivity. Qed.

Lemma to_Q_c0_09 : (F32.to_Q F32.c0_09 == 24159192 # 268435456)%Q.
Proof. reflexivity. Qed.

(** The quotient [(float) v / (float) RAND_MAX] lies in [0, 1]. *)
Lemma unit_quotient RAND_MAX v :
  0 < RAND_MAX < 2 ^ 31 -> 0 < v <= RAND_MAX ->
  let q := F32.div (F32.of_Z v) (F32.of_Z RAND_MAX) in
  (q = S754_zero false \/
   exists m e, q = S754_finite false m e /\
               bounded F32.prec F32.emax m e = true) /\
  (0 <= mag q <= 1)%Q.
Proof.
  intros HR Hv q. subst q.
  pose proof (of_Z_mono v RAND_MAX ltac:(lia) ltac:(lia)) as Hab.
  destruct (of_Z_positive RAND_MAX ltac:(lia)) as (mb & eb & Eb & Bb & Hb1).
  destruct (of_Z_positive v ltac:(lia)) as (ma & ea & Ea & Ba & Ha1).
  rewrite Ea, Eb in *. cbn [mag] in Hab, Ha1, Hb1.
  assert (R1 : representable F32.prec F32.emax 1).
  { right. exists 8388608%positive, (-23). now split. }
  assert (Hq : (inject_Z (Zpos ma) * bpow ea /
                (inject_Z (Zpos mb) * bpow eb) <= 1)%Q).
  { apply Qle_shift_div_r; lra. }
  pose proof (SFdiv_nearest F32.prec F32.emax F32_prec_gt_0
                false ma ea false mb eb 1%Q R1 Hq) as Hr.
  cbn [xorb] in Hr. split.
  - exact (rounded_false_cases _ _ Hr).
  - apply rounded_between with (prec := F32.prec) (emax := F32.emax)
      (s := false)
      (x := (inject_Z (Zpos ma) * bpow ea /
             (inject_Z (Zpos mb) * bpow eb))%Q);
      try assumption; [apply representable_zero|].
    split; [|assumption].
    apply Qle_shift_div_l; lra.
Qed.

(** [q * 0.04f] for [q] in [0, 1]. *)
Lemma scaled_quotient m e :
  bounded F32.prec F32.emax m e = true ->
  (mag (S754_finite false m e) <= 1)%Q ->
  let t := F32.mul (S754_finite false m e) F32.c0_04 in
  (t = S754_zero false \/
   exists m' e', t = S754_finite false m' e' /\
                 bounded F32.prec F32.emax m' e' = true) /\
  (0 <= mag t <= mag F32.c0_04)%Q.
Proof.
  intros Hb Hle t. subst t. cbn [mag] in Hle.
  assert (Hpos : (0 < inject_Z (Zpos m) * bpow e)%Q).
  { apply Qmult_lt_0_compat; [now apply inject_Z_pos|apply bpow_pos]. }
  assert (H4 : (0 < mag F32.c0_04)%Q) by reflexivity.
  assert (Hx : (inject_Z (Zpos m) * bpow e *
                (inject_Z 10737418 * bpow (-28)) <= mag F32.c0_04)%Q).
  { change (inject_Z 10737418 * bpow (-28))%Q with (mag F32.c0_04). nra. }
  pose proof (SFmul_nearest F32.prec F32.emax F32_prec_gt_0 F32_prec_lt_emax
                false m e false 10737418 (-28) (mag F32.c0_04)
                Hb eq_refl
                (representable_float false 10737418 (-28) eq_refl) Hx) as Hr.
  cbn [xorb] in Hr. split.
  - exact (rounded_false_cases _ _ Hr).
  - apply rounded_between with (prec := F32.prec) (emax := F32.emax)
      (s := false)
      (x := (inject_Z (Zpos m) * bpow e *
             (inject_Z 10737418 * bpow (-28)))%Q);
      try assumption;
      [apply representable_zero|now apply representable_float|].
    split; [|assumption].
    change (inject_Z 10737418 * bpow (-28))%Q with (mag F32.c0_04). nra.
Qed.

(** [0.05f + t] for [t] in [0, 0.04f]. *)
Lemma offset_size m e :
  (mag (S754_finite false m e) <= mag F32.c0_04)%Q ->
  let s := F32.add F32.c0_05 (S754_finite false m e) in
  F32.finite s = true /\
  (F32.to_Q F32.c0_05 <= F32.to_Q s <= F32.to_Q F32.c0_09)%Q.
Proof.
  intros Hle s. subst s. cbn [mag] in Hle.
  assert (Hpos : (0 < inject_Z (Zpos m) * bpow e)%Q).
  { apply Qmult_lt_0_compat; [now apply inject_Z_pos|apply bpow_pos]. }
  assert (H4 : (mag F32.c0_04 == 10737418 # 268435456)%Q) by reflexivity.
  assert (H5 : (inject_Z 13421773 * bpow (-28) == 13421773 # 268435456)%Q)
    by reflexivity.
  assert (H9 : (mag F32.c0_09 == 24159192 # 268435456)%Q) by reflexivity.
  assert (Hx : (inject_Z 13421773 * bpow (-28) +
                inject_Z (Zpos m) * bpow e <= mag F32.c0_09)%Q) by lra.
  pose proof (SFadd_nearest F32.prec F32.emax F32_prec_gt_0
                13421773 (-28) m e (mag F32.c0_09)
                (representable_float false 12079596 (-27) eq_refl) Hx) as Hr.
  assert (Hb : (mag F32.c0_05 <=
                mag (F32.add F32.c0_05 (S754_finite false m e)) <=
                mag F32.c0_09)%Q).
  { apply rounded_between with (prec := F32.prec) (emax := F32.emax)
      (s := false)
      (x := (inject_Z 13421773 * bpow (-28) + inject_Z (Zpos m) * bpow e)%Q);
      try assumption; try (now apply representable_float).
    split; [|assumption].
    change (mag F32.c0_05) with (inject_Z 13421773 * bpow (-28))%Q. lra. }
  destruct (rounded_false_cases _ _ Hr) as [E|(m' & e' & E & Hbd)];
    unfold F32.add, F32.c0_05 in *; rewrite E in *.
  - cbn [mag] in Hb. exfalso.
    change (inject_Z 13421773 * bpow (-28))%Q with (mag F32.c0_05) in Hb.
    assert (0 < mag F32.c0_05)%Q by reflexivity. lra.
  - split; [exact Hbd|]. exact Hb.
Qed.

(** The size drawn from any value that [rand] can return. *)
Lemma size_of_draw_range RAND_MAX v :
  0 < RAND_MAX < 2 ^ 31 -> 0 <= v <= RAND_MAX ->
  F32.finite (size_of_draw RAND_MAX v) = true /\
  (F32.to_Q F32.c0_05 <= F32.to_Q (size_of_draw RAND_MAX v)
   <= F32.to_Q F32.c0_09)%Q.
Proof.
  intros HR Hv. unfold size_of_draw.
  assert (Base : F32.finite F32.c0_05 = true /\
                 (F32.to_Q F32.c0_05 <= F32.to_Q F32.c0_05
                  <= F32.to_Q F32.c0_09)%Q).
  { split; [reflexivity|]. split; [apply Qle_refl|]. now vm_compute. }
  destruct (Z.eq_dec v 0) as [->|Hn].
  - destruct (of_Z_positive RAND_MAX ltac:(lia)) as (mb & eb & Eb & _).
    rewrite Eb. exact Base.
  - destruct (unit_quotient RAND_MAX v HR ltac:(lia)) as [[Eq|(m & e & Eq & Bq)] Hq];
      rewrite Eq in *.
    + exact Base.
    + destruct (scaled_quotient m e Bq (proj2 Hq)) as [[Et|(m' & e' & Et & Bt)] Ht];
        rewrite Et in *.
      * exact Base.
      * apply offset_size. exact (proj2 Ht).
Qed.

(** ** Layout, order and ranges of the records *)

Local Open Scope nat_scope.

(** On the grid of the program the single precision centre is within
    [2^-24] of the rational number [2 * (1/2 + i) / 10 - 1]. *)
Lemma cell_centre_error i :
  i < 10 ->
  (Qabs (F32.to_Q (cell_centre 10 i) -
         (2 * ((1 # 2) + inject_Z (Z.of_nat i)) / 10 - 1))
   <= 1 # 16777216)%Q.
Proof.
  intros Hi.
  do 10 (destruct i as [|i]; [now vm_compute|]). lia.
Qed.

Lemma cell_centre_error_witness :
  (Qabs (F32.to_Q (cell_centre 10 3) -
         (2 * ((1 # 2) + inject_Z (Z.of_nat 3)) / 10 - 1))
   <= 1 # 16777216)%Q.
Proof. apply (cell_centre_error 3). lia. Defined.

(** C10. The generator reads the random stream in a fixed order: the
    record with row-major index [k] takes the draws [4k], [4k+1], [4k+2]
    and [4k+3] for its size, red, green and blue, [4 * rows * columns]
    draws are made in all, and two generators that agree on these draws
    produce the same records. *)
Theorem grid_draw_order (RAND_MAX : Z) (rs1 rs2 : Z -> nat -> Z)
    (rows columns : nat) (w1 w2 : World) :
  (forall k, k < 4 * (rows * columns) ->
     rs1 (rand_seed w1) (rand_calls w1 + k) =
     rs2 (rand_seed w2) (rand_calls w2 + k)) ->
  let run1 := fill_quadData RAND_MAX rs1 rows columns [] w1 in
  let run2 := fill_quadData RAND_MAX rs2 rows columns [] w2 in
  fst run1 = fst run2 /\
  rand_calls (snd run1) = rand_calls w1 + 4 * (rows * columns) /\
  forall k quad, nth_error (fst run1) k = Some quad ->
    let draw j := rs1 (rand_seed w1) (rand_calls w1 + 4 * k + j) in
    QuadVertex.size quad = size_of_draw RAND_MAX (draw 0) /\
    QuadVertex.r quad = channel_of_draw (draw 1) /\
    QuadVertex.g quad = channel_of_draw (draw 2) /\
    QuadVertex.b quad = channel_of_draw (draw 3).
Proof.
  intros Hagree. cbv zeta. rewrite !fill_quadData_run. cbn [fst snd].
  split; [|split].
  - unfold grid_at. apply map_ext_in. intros k Hk. apply in_seq in Hk.
    unfold quad_at.
    rewrite <- !Nat.add_assoc.
    rewrite !Hagree by lia. reflexivity.
  - reflexivity.
  - intros k quad Hk. apply grid_at_nth_inv in Hk. destruct Hk as [_ ->].
    cbn [quad_at QuadVertex.size QuadVertex.r QuadVertex.g QuadVertex.b].
    repeat split; do 2 f_equal; lia.
Qed.

Lemma grid_draw_order_witness :
  let rs1 := fun (_ : Z) (n : nat) => Z.of_nat (7 * n) in
  let rs2 := fun (_ : Z) (n : nat) =>
               if n <? 400 then Z.of_nat (7 * n) else 0%Z in
  fst (fill_quadData 32767 rs1 10 10 [] initial_world) =
  fst (fill_quadData 32767 rs2 10 10 [] initial_world).
Proof.
  refine (proj1 (grid_draw_order 32767 (fun _ n => Z.of_nat (7 * n))
                   (fun _ n => if n <? 400 then Z.of_nat (7 * n) else 0%Z)
                   10 10 initial_world initial_world _)).
  intros k Hk. cbv beta. cbn [rand_calls initial_world Nat.add].
  destruct (Nat.ltb_spec k 400) as [_|H]; [reflexivity|lia].
Defined.

Lemma in_grid_at RAND_MAX rand_sequence rows columns seed n quad :
  In quad (grid_at RAND_MAX rand_sequence rows columns seed n) ->
  exists row column k,
    row < rows /\ column < columns /\
    quad = quad_at RAND_MAX rand_sequence rows columns row column seed k.
Proof.
  unfold grid_at. intros H. apply in_map_iff in H.
  destruct H as (k & <- & Hk). apply in_seq in Hk.
  exists (k / columns), (k mod columns), (n + 4 * k).
  assert (columns <> 0) by (intros ->; lia).
  repeat split.
  - apply Nat.Div0.div_lt_upper_bound. lia.
  - now apply Nat.mod_upper_bound.
Qed.

(** When [rand] returns [RAND_MAX] the size is [0.09f]. *)
Lemma size_of_draw_max RAND_MAX :
  (0 < RAND_MAX < 2 ^ 31)%Z -> size_of_draw RAND_MAX RAND_MAX = F32.c0_09.
Proof.
  intros HR. unfold size_of_draw.
  destruct (of_Z_positive RAND_MAX ltac:(lia)) as (m & e & E & Hb & _).
  rewrite E, div_self by assumption. reflexivity.
Qed.

(** C3, as the code has it. The size of every generated record is a
    finite float in the closed interval from 0.05 to the single precision
    constant [0.09f], whatever [rand] returns within [0 .. RAND_MAX], and
    it is [0.09f] when the draw for the size is [RAND_MAX]. *)
Theorem size_closed_range (RAND_MAX : Z) (rand_sequence : Z -> nat -> Z)
    (rows columns : nat) (w : World) (k : nat) (quad : QuadVertex.t) :
  (0 < RAND_MAX < 2 ^ 31)%Z ->
  (forall seed n, 0 <= rand_sequence seed n <= RAND_MAX)%Z ->
  nth_error (fst (fill_quadData RAND_MAX rand_sequence rows columns [] w)) k
    = Some quad ->
  F32.finite (QuadVertex.size quad) = true /\
  (5 # 100 <= F32.to_Q (QuadVertex.size quad) <= F32.to_Q F32.c0_09)%Q /\
  (rand_sequence (rand_seed w) (rand_calls w + 4 * k) = RAND_MAX ->
   QuadVertex.size quad = F32.c0_09).
Proof.
  intros HR Hrand Hk. rewrite fill_quadData_run in Hk. cbn [fst] in Hk.
  apply grid_at_nth_inv in Hk. destruct Hk as [_ ->].
  cbn [quad_at QuadVertex.size].
  destruct (size_of_draw_range RAND_MAX
              (rand_sequence (rand_seed w) (rand_calls w + 4 * k))
              HR (Hrand _ _)) as (Hf & Hlo & Hhi).
  split; [exact Hf|]. split.
  - split; [|exact Hhi].
    rewrite to_Q_c0_05 in Hlo.
    assert (5 # 100 <= 13421773 # 268435456)%Q by now vm_compute.
    lra.
  - intros ->. now apply size_of_draw_max.
Qed.

Lemma size_closed_range_witness :
  let rs := fun (_ : Z) (n : nat) =>
              ((Z.of_nat n * 1103515245 + 12345) mod 2147483648)%Z in
  let quad :=
    nth 4 (fst (fill_quadData 2147483647 rs 2 3 [] initial_world))
      QuadVertex.zero in
  F32.finite (QuadVertex.size quad) = true /\
  (5 # 100 <= F32.to_Q (QuadVertex.size quad) <= F32.to_Q F32.c0_09)%Q.
Proof.
  intros rs quad.
  refine ((fun H => conj (proj1 H) (proj1 (proj2 H)))
            (size_closed_range 2147483647 rs 2 3 initial_world 4 quad _ _ _)).
  - lia.
  - intros seed n. unfold rs.
    pose proof (Z.mod_pos_bound (Z.of_nat n * 1103515245 + 12345) 2147483648).
    lia.
  - now vm_compute.
Defined.

(** C3 as stated fails: when [rand] returns [RAND_MAX] the quotient is 1
    and the size is [0.05f + 0.04f], which rounds to [0.09f]; that float
    is not below 0.09, neither as a number nor in a float comparison. *)
Lemma size_half_open_fails :
  let rs := fun (_ : Z) (n : nat) =>
              if Nat.eqb n 0 then 2147483647%Z else Z.of_nat n in
  let quadData :=
    fst (fill_quadData 2147483647 rs kRows kColumns [] initial_world) in
  exists quad,
    In quad quadData /\
    QuadVertex.size quad = F32.c0_09 /\
    ~ (F32.to_Q (QuadVertex.size quad) < 9 # 100)%Q /\
    F32.ltb (QuadVertex.size quad) F32.c0_09 = false.
Proof.
  intros rs quadData. exists (nth 0 quadData QuadVertex.zero).
  split; [apply nth_In; vm_compute; lia|].
  split; [now vm_compute|]. split; [|now vm_compute].
  intros H. vm_compute in H. discriminate.
Qed.

(** The colour channel drawn from a value of [rand]. *)
Lemma channel_of_draw_range v :
  (0 <= v)%Z -> (96 <= channel_of_draw v <= 223)%Z.
Proof.
  intros Hv. unfold channel_of_draw, GLubyte.
  pose proof (Z.rem_bound_pos v 128 Hv ltac:(lia)).
  rewrite Z.mod_small; lia.
Qed.

(** The ten centres of the program's grid. *)
Lemma cell_centre_inside i :
  i < 10 ->
  F32.finite (cell_centre 10 i) = true /\
  (-1 < F32.to_Q (cell_centre 10 i) < 1)%Q.
Proof.
  intros Hi.
  do 10 (destruct i as [|i]; [now vm_compute|]). lia.
Qed.

(** C4. In every record of the program's grid, whatever [rand] returns,
    the three colour channels lie in [96 .. 223], the opacity is 255 and
    both position components lie strictly between -1 and 1. *)
Theorem quad_colour_and_position (RAND_MAX : Z)
    (rand_sequence : Z -> nat -> Z) (w : World) (quad : QuadVertex.t) :
  (forall seed n, 0 <= rand_sequence seed n <= RAND_MAX)%Z ->
  In quad (fst (fill_quadData RAND_MAX rand_sequence kRows kColumns [] w)) ->
  ((96 <= QuadVertex.r quad <= 223)%Z /\
   (96 <= QuadVertex.g quad <= 223)%Z /\
   (96 <= QuadVertex.b quad <= 223)%Z /\
   QuadVertex.a quad = 255%Z) /\
  (F32.finite (QuadVertex.x quad) = true /\
   (-1 < F32.to_Q (QuadVertex.x quad) < 1)%Q) /\
  (F32.finite (QuadVertex.y quad) = true /\
   (-1 < F32.to_Q (QuadVertex.y quad) < 1)%Q).
Proof.
  intros Hrand Hin. rewrite fill_quadData_run in Hin. cbn [fst] in Hin.
  apply in_grid_at in Hin. destruct Hin as (row & column & k & Hr & Hc & ->).
  cbn [quad_at QuadVertex.r QuadVertex.g QuadVertex.b QuadVertex.a
       QuadVertex.x QuadVertex.y].
  split; [|split].
  - repeat split; apply channel_of_draw_range; apply Hrand.
  - now apply cell_centre_inside.
  - now apply cell_centre_inside.
Qed.

Lemma quad_colour_and_position_witness :
  let rs := fun (_ : Z) (n : nat) =>
              ((Z.of_nat n * 1103515245 + 12345) mod 32768)%Z in
  let quad :=
    nth 57 (fst (fill_quadData 32767 rs kRows kColumns [] initial_world))
      QuadVertex.zero in
  ((96 <= QuadVertex.r quad <= 223)%Z /\
   (96 <= QuadVertex.g quad <= 223)%Z /\
   (96 <= QuadVertex.b quad <= 223)%Z /\
   QuadVertex.a quad = 255%Z) /\
  (F32.finite (QuadVertex.x quad) = true /\
   (-1 < F32.to_Q (QuadVertex.x quad) < 1)%Q) /\
  (F32.finite (QuadVertex.y quad) = true /\
   (-1 < F32.to_Q (QuadVertex.y quad) < 1)%Q).
Proof.
  intros rs quad.
  apply (quad_colour_and_position 32767 rs initial_world quad).
  - intros seed n. unfold rs.
    pose proof (Z.mod_pos_bound (Z.of_nat n * 1103515245 + 12345) 32768).
    lia.
  - apply nth_In. vm_compute. lia.
Defined.

(** ** The program makes the calls of its run

    The [_run] lemmas show that each part of the program makes exactly the
    calls listed for it above, and leaves the world they describe. *)

Local Open Scope Z_scope.

Lemma add_calls_nil w : add_calls [] w = w.
Proof. destruct w. unfold add_calls. cbn. now rewrite app_nil_r. Qed.

Lemma add_calls_app cs1 cs2 w :
  add_calls cs2 (add_calls cs1 w) = add_calls (cs1 ++ cs2) w.
Proof. unfold add_calls. cbn. now rewrite app_assoc. Qed.

Lemma poll_loop_run queue : forall w,
  poll_loop queue w =
  ((negb (has_quit queue), left_over queue),
   add_calls (viewport_calls (handled queue)) w).
Proof.
  induction queue as [|e rest IH]; intros w.
  - cbn. now rewrite add_calls_nil.
  - destruct e as [[|id] data1 data2| |type]; cbn [poll_loop].
    + unfold bind at 1. unfold call at 1. rewrite IH.
      cbn [has_quit existsb is_quit orb handled left_over viewport_calls
           flat_map].
      fold (add_calls [Log.glViewport 0 0 data1 data2] w).
      now rewrite add_calls_app.
    + now rewrite IH.
    + cbn. now rewrite add_calls_nil.
    + now rewrite IH.
Qed.

Lemma HandleEvents_run w :
  HandleEvents w =
  (negb (has_quit (events w)),
   with_events (left_over (events w))
     (add_calls (viewport_calls (handled (events w))) w)).
Proof.
  unfold HandleEvents. unfold bind at 1. unfold bind at 1.
  rewrite poll_loop_run. reflexivity.
Qed.

Lemma call_run c w : call c w = (tt, add_calls [c] w).
Proof. reflexivity. Qed.

Lemma left_over_no_quit queue : has_quit queue = false -> left_over queue = [].
Proof.
  induction queue as [|e rest IH]; [reflexivity|].
  destruct e; cbn; try discriminate; exact IH.
Qed.

Lemma handled_no_quit queue : has_quit queue = false -> handled queue = queue.
Proof.
  induction queue as [|e rest IH]; [reflexivity|].
  destruct e; cbn; try discriminate; intros H; now rewrite IH.
Qed.

Lemma draw_frame_run colorLocation w :
  draw_frame colorLocation w =
  (tt, add_calls (frame_calls colorLocation (window w)) w).
Proof.
  unfold draw_frame.
  do 9 (unfold bind at 1; rewrite call_run).
  unfold bind at 1. unfold get_window at 1. rewrite call_run.
  rewrite !add_calls_app. reflexivity.
Qed.

Lemma frame_loop_run colorLocation batches : forall w,
  events w = [] ->
  frame_loop colorLocation batches w =
  (loop_exits batches,
   with_events (loop_left_over batches)
     (add_calls (loop_calls colorLocation (window w) batches) w)).
Proof.
  induction batches as [|batch later IH]; intros w Hw.
  - cbn. unfold ret. f_equal. destruct w. cbn in Hw. subst. world_eq.
  - cbn [frame_loop]. unfold bind at 1. unfold deliver at 1.
    unfold bind at 1. unfold set_events at 1. rewrite Hw. cbn [app].
    unfold bind at 1. rewrite HandleEvents_run. cbn [events].
    cbn [loop_exits existsb loop_calls loop_left_over].
    destruct (has_quit batch) eqn:Hq; cbn [negb orb].
    + unfold ret. f_equal. world_eq.
    + unfold bind at 1. rewrite draw_frame_run.
      rewrite IH by (cbn; now apply left_over_no_quit).
      fold (loop_exits later). f_equal.
      rewrite (left_over_no_quit _ Hq). world_eq.
Qed.

Section Runs.

Variable RAND_MAX : Z.
Variable rand_sequence : Z -> nat -> Z.
Variable env : Env.

Lemma CleanupSDL_run status w : CleanupSDL status w = (status, cleaned w).
Proof.
  destruct w as [win ctx seed n subs evs tr].
  cbv beta iota zeta delta
    [CleanupSDL cleaned cleanup_calls bind get_context get_window
     SDL_WasInit SDL_QuitSubSystem set_context set_window set_subsystems
     call ret window context rand_seed rand_calls subsystems events trace].
  destruct (Z.eqb_spec ctx nullptr) as [->|Hc];
    cbv beta iota zeta delta
      [negb window context rand_seed rand_calls subsystems events trace];
    destruct (Z.eqb_spec win nullptr) as [->|Hw];
    cbv beta iota zeta delta
      [negb window context rand_seed rand_calls subsystems events trace];
    rewrite <- ?app_assoc; reflexivity.
Qed.

Lemma CreateShader_run type src w :
  CreateShader env type src w =
  (shader_result env type, add_calls (shader_calls env type src (window w)) w).
Proof.
  unfold CreateShader, shader_result, shader_calls, bind, glCreateShader,
    glGetShaderiv, get_window, call, ret. cbn.
  destruct (compile_status env type); cbn; f_equal; world_eq.
Qed.

Lemma for_each_call (f : GLuint -> Log.call) xs : forall w,
  for_each xs (fun x => call (f x)) w = (tt, add_calls (map f xs) w).
Proof.
  induction xs as [|x xs IH]; intros w.
  - cbn. unfold ret. now rewrite add_calls_nil.
  - cbn [for_each map]. unfold bind at 1. rewrite call_run, IH.
    now rewrite add_calls_app.
Qed.

Lemma CreateShaderProgram_run shaders w :
  CreateShaderProgram env shaders w =
  (program_result env, add_calls (program_calls env shaders (window w)) w).
Proof.
  unfold CreateShaderProgram, program_result, program_calls.
  unfold bind at 1. unfold glCreateProgram at 1. unfold bind at 1.
  rewrite call_run. unfold ret at 1.
  unfold bind at 1. rewrite for_each_call.
  unfold bind, glGetProgramiv, get_window, call, ret. cbn.
  destruct (link_status env); cbn; f_equal; world_eq.
Qed.

End Runs.

Section MainRuns.

Variable RAND_MAX : Z.
Variable rand_sequence : Z -> nat -> Z.
Variable env : Env.

Lemma main_init_fails :
  init_status env < 0 ->
  main RAND_MAX rand_sequence env initial_world =
  (Some 1,
   cleaned
     (booting env nullptr nullptr (subsystems_up env)
        [ Log.SDL_InitSubSystem 33;
          Log.SDL_Log "Error initializing SDL: %s" ])).
Proof.
  intros H. apply Z.ltb_lt in H.
  run_main. rewrite H. run_main.
  rewrite CleanupSDL_run. reflexivity.
Qed.

Lemma main_window_fails :
  0 <= init_status env -> new_window env = nullptr ->
  main RAND_MAX rand_sequence env initial_world =
  (Some 1,
   cleaned
     (booting env nullptr nullptr (subsystems_up env)
        (window_calls ++
         [Log.SDL_ShowSimpleMessageBox "Error creating window" nullptr]))).
Proof.
  intros H Hw. apply Z.ltb_ge in H.
  run_main. rewrite H. run_main.
  rewrite Hw. rewrite Z.eqb_refl. run_main.
  rewrite CleanupSDL_run. reflexivity.
Qed.

Lemma main_context_fails :
  0 <= init_status env -> new_window env <> nullptr ->
  new_context env = nullptr ->
  main RAND_MAX rand_sequence env initial_world =
  (Some 1,
   cleaned
     (booting env (new_window env) nullptr (subsystems_up env)
        (window_calls ++
         [ Log.SDL_GL_CreateContext (new_window env);
           Log.SDL_ShowSimpleMessageBox
             "Error creating OpenGL 4.1 context" (new_window env) ]))).
Proof.
  intros H Hw Hc. apply Z.ltb_ge in H. apply Z.eqb_neq in Hw.
  run_main. rewrite H. run_main.
  rewrite Hw. run_main. rewrite Hc. rewrite Z.eqb_refl. run_main.
  rewrite CleanupSDL_run. reflexivity.
Qed.

Lemma main_run :
  0 <= init_status env -> new_window env <> nullptr ->
  new_context env <> nullptr ->
  main RAND_MAX rand_sequence env initial_world =
  if loop_exits (arrivals env)
  then (Some 0, cleaned (add_calls (teardown_calls env)
                      (after_loop RAND_MAX rand_sequence env)))
  else (None, after_loop RAND_MAX rand_sequence env).
Proof.
  intros H Hw Hc. apply Z.ltb_ge in H.
  apply Z.eqb_neq in Hw. apply Z.eqb_neq in Hc.
  run_main. rewrite H. run_main.
  rewrite Hw. run_main. rewrite Hc. run_main.
  rewrite fill_quadData_run. run_main.
  rewrite !CreateShader_run. run_main.
  rewrite CreateShaderProgram_run. run_main.
  rewrite frame_loop_run by reflexivity. run_main.
  unfold after_loop.
  destruct (loop_exits (arrivals env)).
  - rewrite CleanupSDL_run. f_equal. f_equal.
    unfold add_calls, setup_calls, teardown_calls, quadData, shaderObjects,
      window_calls.
    cbn [window context rand_seed rand_calls subsystems events trace map].
    f_equal. rewrite <- !app_assoc. reflexivity.
  - f_equal. f_equal. unfold setup_calls, quadData, shaderObjects, window_calls.
    rewrite <- !app_assoc. reflexivity.
Qed.

End MainRuns.

(** ** Cleanup *)

Lemma quit_everything_twice subs :
  Z.land (Z.ldiff subs (Z.land subs SDL_INIT_EVERYTHING)) SDL_INIT_EVERYTHING
  = 0.
Proof.
  apply Z.bits_inj'. intros n Hn.
  rewrite Z.land_spec, Z.ldiff_spec, Z.land_spec, Z.bits_0.
  destruct (Z.testbit subs n), (Z.testbit SDL_INIT_EVERYTHING n); reflexivity.
Qed.

(** C9. [CleanupSDL] returns the status it is given and leaves [window]
    and [context] null. Run on a world where both are null already, as it
    is on a second run, it deletes nothing: it only asks SDL which
    subsystems are up and quits those, and a second run finds none, so
    the world stays as the first run left it. *)
Theorem cleanup_idempotent (status status' : Z) (w : World) :
  let first := CleanupSDL status w in
  let second := CleanupSDL status' (snd first) in
  fst first = status /\
  window (snd first) = nullptr /\ context (snd first) = nullptr /\
  fst second = status' /\
  snd second =
    add_calls [ Log.SDL_WasInit SDL_INIT_EVERYTHING;
                Log.SDL_QuitSubSystem 0 ] (snd first) /\
  forall seed n subs evs tr,
    CleanupSDL status (mkWorld nullptr nullptr seed n subs evs tr) =
    (status,
     mkWorld nullptr nullptr seed n
       (Z.ldiff subs (Z.land subs SDL_INIT_EVERYTHING)) evs
       (tr ++ [ Log.SDL_WasInit SDL_INIT_EVERYTHING;
                Log.SDL_QuitSubSystem
                  (Z.land subs SDL_INIT_EVERYTHING) ])).
Proof.
  cbv zeta. rewrite !CleanupSDL_run. cbn [fst snd].
  repeat split.
  - unfold cleaned, cleanup_calls, add_calls.
    cbn [window context rand_seed rand_calls subsystems events trace].
    rewrite Z.eqb_refl, quit_everything_twice, Z.ldiff_0_r. reflexivity.
  - intros seed n subs evs tr. now rewrite CleanupSDL_run.
Qed.

(** C6. When subsystem initialisation, window creation or context
    creation fails, [main] returns 1 and the frame loop is not entered:
    no OpenGL call and no buffer swap is made and no event is taken from
    the queue. The cleanup deletes no GPU object, never deletes a
    context, and destroys a window only when it is the non-null one that
    [SDL_CreateWindow] returned. *)
Theorem bootstrap_failure (RAND_MAX : Z) (rand_sequence : Z -> nat -> Z)
    (env : Env) :
  bootstrap_fails env ->
  let run := main RAND_MAX rand_sequence env initial_world in
  fst run = Some 1 /\
  window (snd run) = nullptr /\ context (snd run) = nullptr /\
  events (snd run) = [] /\
  (forall c, In c (trace (snd run)) ->
     is_gl_call c = false /\ is_swap c = false /\
     (is_deletion c = true ->
      c = Log.SDL_DestroyWindow (new_window env) /\
      new_window env <> nullptr /\
      In (Log.SDL_CreateWindow "Quads" 800 600) (trace (snd run)))).
Proof.
  intros Hfail. cbv zeta.
  assert (Hcases :
    init_status env < 0 \/
    (0 <= init_status env /\ new_window env = nullptr) \/
    (0 <= init_status env /\ new_window env <> nullptr /\
     new_context env = nullptr)).
  { destruct (Z_lt_dec (init_status env) 0); [now left|right].
    destruct (Z.eq_dec (new_window env) nullptr); [left; lia|right].
    destruct Hfail as [|[|]]; try lia; try contradiction. }
  destruct Hcases as [Hi|[[Hi Hw]|(Hi & Hw & Hc)]].
  - rewrite main_init_fails by assumption. cbn [fst snd].
    repeat split; try reflexivity;
      cbn in H; intuition (subst; try reflexivity; try discriminate).
  - rewrite main_window_fails by assumption. cbn [fst snd].
    repeat split; try reflexivity;
      cbn in H; intuition (subst; try reflexivity; try discriminate).
  - rewrite main_context_fails by assumption. cbn [fst snd].
    assert (Ew : (new_window env =? nullptr) = false) by now apply Z.eqb_neq.
    repeat split; try reflexivity;
      unfold cleaned, cleanup_calls, booting, window_calls in *;
      cbn [window context trace app] in *;
      rewrite ?Ew, ?Z.eqb_refl in *; cbn [app] in *;
      try (cbn in H; intuition (subst; try reflexivity; try discriminate; try assumption));
      try (cbn; tauto).
Qed.

Lemma bootstrap_failure_witness :
  fst (main 32767 sample_rand
         (sample_env 0 4096 nullptr (fun _ => true) true [[SDL_QUIT]])
         initial_world) = Some 1.
Proof.
  refine (proj1 (bootstrap_failure 32767 sample_rand
                   (sample_env 0 4096 nullptr (fun _ => true) true
                      [[SDL_QUIT]]) _)).
  right. right. reflexivity.
Defined.

Lemma gl_replay_app g cs1 cs2 :
  gl_replay g (cs1 ++ cs2) = gl_replay (gl_replay g cs1) cs2.
Proof. apply fold_left_app. Qed.

(** Resizing touches the viewport only. *)
Lemma gl_replay_viewport_calls evs : forall g,
  let g' := gl_replay g (viewport_calls evs) in
  gl_polygon_mode g' = gl_polygon_mode g /\
  gl_pending g' = gl_pending g /\
  gl_presented g' = gl_presented g.
Proof.
  induction evs as [|e evs IH]; intros g; [now cbn|].
  destruct e as [[|id] data1 data2| |type]; try apply IH.
  cbn [viewport_calls flat_map app gl_replay fold_left].
  destruct (IH (gl_step g (Log.glViewport 0 0 data1 data2))) as (H1 & H2 & H3).
  unfold gl_replay, viewport_calls in *. rewrite H1, H2, H3.
  cbn [gl_step]. destruct ((0 <=? data1) && (0 <=? data2)); now cbn.
Qed.

Lemma gl_replay_frame_calls colorLocation win g :
  gl_polygon_mode g = GL_FILL -> gl_pending g = [] ->
  let g' := gl_replay g (frame_calls colorLocation win) in
  gl_polygon_mode g' = GL_FILL /\
  gl_pending g' = [] /\
  gl_presented g' = gl_presented g ++ [standard_frame colorLocation].
Proof.
  intros Hm Hp. destruct g as [mode pv u vp pending presented].
  cbn in Hm, Hp. subst. now cbn.
Qed.

Lemma gl_replay_loop_calls colorLocation win batches : forall g,
  gl_polygon_mode g = GL_FILL -> gl_pending g = [] ->
  let g' := gl_replay g (loop_calls colorLocation win batches) in
  gl_polygon_mode g' = GL_FILL /\
  gl_pending g' = [] /\
  gl_presented g' =
    gl_presented g ++
    repeat (standard_frame colorLocation) (passes_before_quit batches).
Proof.
  induction batches as [|batch later IH]; intros g Hm Hp.
  - cbn. now rewrite app_nil_r.
  - cbn [loop_calls passes_before_quit]. cbv zeta.
    rewrite gl_replay_app.
    destruct (gl_replay_viewport_calls (handled batch) g) as (V1 & V2 & V3).
    set (g1 := gl_replay g (viewport_calls (handled batch))) in *.
    destruct (has_quit batch).
    + cbn. rewrite app_nil_r. repeat split; congruence.
    + rewrite gl_replay_app.
      destruct (gl_replay_frame_calls colorLocation win g1) as (F1 & F2 & F3);
        try congruence.
      set (g2 := gl_replay g1 (frame_calls colorLocation win)) in *.
      destruct (IH g2 F1 F2) as (L1 & L2 & L3).
      repeat split; try assumption.
      rewrite L3, F3, V3. cbn [repeat]. now rewrite <- app_assoc.
Qed.

Lemma gl_replay_quiet cs : forall g, quiet cs = true -> gl_replay g cs = g.
Proof.
  induction cs as [|c cs IH]; intros g H; [reflexivity|].
  cbn in H. apply andb_true_iff in H. destruct H as [Hc Hcs].
  cbn [gl_replay fold_left]. fold (gl_replay (gl_step g c) cs).
  rewrite IH by assumption. destruct c; try discriminate; reflexivity.
Qed.

Lemma quiet_app cs1 cs2 : quiet (cs1 ++ cs2) = quiet cs1 && quiet cs2.
Proof. apply forallb_app. Qed.

Lemma quiet_shader_calls env type src win :
  quiet (shader_calls env type src win) = true.
Proof. unfold shader_calls. now destruct (compile_status env type). Qed.

Lemma quiet_program_calls env shaders win :
  quiet (program_calls env shaders win) = true.
Proof.
  unfold program_calls. rewrite !quiet_app.
  assert (H : quiet (map (Log.glAttachShader (new_program env)) shaders) = true).
  { induction shaders; [reflexivity|assumption]. }
  rewrite H. now destruct (link_status env).
Qed.

Lemma quiet_setup_calls RAND_MAX rand_sequence env :
  quiet (setup_calls RAND_MAX rand_sequence env) = true.
Proof.
  unfold setup_calls. rewrite !quiet_app, !quiet_shader_calls,
    quiet_program_calls. reflexivity.
Qed.

Lemma quiet_teardown_calls env : quiet (teardown_calls env) = true.
Proof. reflexivity. Qed.

Lemma quiet_cleanup_calls w : quiet (cleanup_calls w) = true.
Proof.
  unfold cleanup_calls.
  now destruct (context w =? nullptr), (window w =? nullptr).
Qed.

(** C5. Every pass of the frame loop before the one that sees a quit
    event presents one frame, and each frame consists of exactly two
    draws of [kRows * kColumns = 100] patches: the first with filled
    polygons and the uniform set to (0, 0, 0), the second with lines and
    the uniform set to (1, 1, 1); the polygon mode is back to filled when
    the frame is presented. *)
Theorem frames_drawn (RAND_MAX : Z) (rand_sequence : Z -> nat -> Z)
    (env : Env) :
  0 <= init_status env -> new_window env <> nullptr ->
  new_context env <> nullptr ->
  let run := main RAND_MAX rand_sequence env initial_world in
  gl_presented (gl_after (trace (snd run))) =
  repeat (standard_frame (uniform_location env))
    (passes_before_quit (arrivals env)) /\
  frame_draws (standard_frame (uniform_location env)) =
    [ mkDraw GL_FILL
        (Some (uniform_location env, F32.zero, F32.zero, F32.zero)) 100;
      mkDraw GL_LINE
        (Some (uniform_location env, F32.one, F32.one, F32.one)) 100 ] /\
  frame_mode (standard_frame (uniform_location env)) = GL_FILL.
Proof.
  intros Hi Hw Hc. cbv zeta. split; [|split; reflexivity].
  rewrite (main_run RAND_MAX rand_sequence env Hi Hw Hc).
  assert (Hloop :
    let g := gl_after (trace (after_loop RAND_MAX rand_sequence env)) in
    gl_polygon_mode g = GL_FILL /\ gl_pending g = [] /\
    gl_presented g =
      repeat (standard_frame (uniform_location env))
        (passes_before_quit (arrivals env))).
  { cbv zeta. unfold after_loop, gl_after. cbn [trace].
    rewrite gl_replay_app.
    rewrite (gl_replay_quiet _ _ (quiet_setup_calls _ _ _)).
    apply (gl_replay_loop_calls (uniform_location env) (new_window env)
             (arrivals env) gl_initial); reflexivity. }
  destruct Hloop as (_ & _ & Hpres).
  destruct (loop_exits (arrivals env)); cbn [snd]; [|exact Hpres].
  unfold cleaned, add_calls. cbn [trace].
  unfold gl_after in *. rewrite !gl_replay_app.
  rewrite (gl_replay_quiet (cleanup_calls _)) by apply quiet_cleanup_calls.
  rewrite (gl_replay_quiet (teardown_calls _)) by apply quiet_teardown_calls.
  exact Hpres.
Qed.

Lemma frames_drawn_witness :
  gl_presented
    (gl_after
       (trace
          (snd (main 32767 sample_rand
                  (sample_env 0 4096 8192 (fun _ => true) true
                     [[]; [SDL_other 1024]; [SDL_QUIT]; []])
                  initial_world)))) =
  [standard_frame 0; standard_frame 0].
Proof.
  refine (proj1 (frames_drawn 32767 sample_rand
                   (sample_env 0 4096 8192 (fun _ => true) true
                      [[]; [SDL_other 1024]; [SDL_QUIT]; []]) _ _ _)).
  - cbn. lia.
  - discriminate.
  - discriminate.
Defined.

(** ** Events *)

Lemma handled_app pre post :
  has_quit pre = false -> handled (pre ++ post) = pre ++ handled post.
Proof.
  induction pre as [|e pre IH]; [reflexivity|].
  destruct e; cbn; try discriminate; intros H; now rewrite IH.
Qed.

Lemma left_over_app pre post :
  has_quit pre = false -> left_over (pre ++ post) = left_over post.
Proof.
  induction pre as [|e pre IH]; [reflexivity|].
  destruct e; cbn; try discriminate; exact IH.
Qed.

Lemma has_quit_app pre post :
  has_quit (pre ++ post) = has_quit pre || has_quit post.
Proof. apply existsb_app. Qed.

Lemma viewport_calls_app evs1 evs2 :
  viewport_calls (evs1 ++ evs2) = viewport_calls evs1 ++ viewport_calls evs2.
Proof. apply flat_map_app. Qed.

(** C8. When a pass handles a window-resized event with positive width
    and height, it calls [glViewport(0, 0, width, height)], and the
    viewport after that call is exactly [(0, 0, width, height)]. *)
Theorem resize_updates_viewport (w : World) (pre post : list SDL_Event)
    (width height : Z) :
  events w =
    pre ++ SDL_WINDOWEVENT SDL_WINDOWEVENT_RESIZED width height :: post ->
  has_quit pre = false ->
  0 < width -> 0 < height ->
  let at_event :=
    trace w ++ viewport_calls pre ++ [Log.glViewport 0 0 width height] in
  trace (snd (HandleEvents w)) = at_event ++ viewport_calls (handled post) /\
  gl_viewport (gl_after at_event) = Some (0, 0, width, height).
Proof.
  intros Hev Hpre Hwd Hht. cbv zeta. split.
  - rewrite HandleEvents_run. cbn [snd with_events add_calls trace].
    rewrite Hev, handled_app by assumption.
    cbn [handled]. rewrite viewport_calls_app.
    cbn [viewport_calls flat_map]. fold (viewport_calls (handled post)).
    rewrite <- !app_assoc. reflexivity.
  - unfold gl_after. rewrite !app_assoc, gl_replay_app.
    cbn [gl_replay fold_left gl_step].
    replace (0 <=? width) with true by (symmetry; apply Z.leb_le; lia).
    replace (0 <=? height) with true by (symmetry; apply Z.leb_le; lia).
    reflexivity.
Qed.

Lemma resize_updates_viewport_witness :
  let w := with_events
             [ SDL_other 512;
               SDL_WINDOWEVENT SDL_WINDOWEVENT_RESIZED 1024 768;
               SDL_QUIT ] initial_world in
  trace (snd (HandleEvents w)) = [Log.glViewport 0 0 1024 768] /\
  gl_viewport (gl_after [Log.glViewport 0 0 1024 768]) =
    Some (0, 0, 1024, 768).
Proof.
  apply (resize_updates_viewport
           (with_events
              [ SDL_other 512;
                SDL_WINDOWEVENT SDL_WINDOWEVENT_RESIZED 1024 768;
                SDL_QUIT ] initial_world)
           [SDL_other 512] [SDL_QUIT] 1024 768);
    [reflexivity|reflexivity|lia|lia].
Defined.

(** C2 as stated fails: a resize queued behind the quit event in the same
    pass is not handled; [HandleEvents] returns at the quit event and the
    resize stays in the queue. *)
Lemma quit_does_not_drain :
  let env :=
    sample_env 0 4096 8192 (fun _ => true) true
      [[SDL_QUIT; SDL_WINDOWEVENT SDL_WINDOWEVENT_RESIZED 640 480]] in
  let run := main 32767 sample_rand env initial_world in
  fst run = Some 0 /\
  events (snd run) = [SDL_WINDOWEVENT SDL_WINDOWEVENT_RESIZED 640 480] /\
  filter is_viewport (trace (snd run)) = [] /\
  gl_viewport (gl_after (trace (snd run))) = None.
Proof.
  cbv zeta.
  rewrite main_run; [|cbn; lia|discriminate|discriminate].
  now vm_compute.
Qed.

Lemma filter_viewport_quiet cs :
  quiet cs = true -> filter is_viewport cs = [].
Proof.
  induction cs as [|c cs IH]; [reflexivity|]. cbn. intros H.
  apply andb_true_iff in H. destruct H as [Hc Hcs].
  rewrite IH by assumption. destruct c; try discriminate; reflexivity.
Qed.

Lemma filter_viewport_calls evs :
  filter is_viewport (viewport_calls evs) = viewport_calls evs.
Proof.
  induction evs as [|e evs IH]; [reflexivity|].
  destruct e as [[|id] data1 data2| |type]; cbn; try exact IH.
  f_equal. exact IH.
Qed.

(** The frame loop when the quit event comes in the batch after [pre],
    behind the events [before]. *)
Lemma loop_until_quit colorLocation win pre before after post :
  quit_free pre = true -> has_quit before = false ->
  let batches := pre ++ (before ++ SDL_QUIT :: after) :: post in
  loop_exits batches = true /\
  loop_left_over batches = after /\
  passes_before_quit batches = List.length pre /\
  filter is_viewport (loop_calls colorLocation win batches) =
    viewport_calls (List.concat pre ++ before).
Proof.
  intros Hpre Hb. cbv zeta.
  assert (Hq : has_quit (before ++ SDL_QUIT :: after) = true).
  { rewrite has_quit_app. cbn. apply orb_true_r. }
  induction pre as [|batch pre IH].
  - cbn [app loop_exits existsb loop_left_over passes_before_quit loop_calls
         List.concat List.length].
    rewrite Hq, left_over_app, handled_app by assumption.
    cbn [orb left_over handled]. rewrite !app_nil_r.
    repeat split. apply filter_viewport_calls.
  - cbn in Hpre. apply andb_true_iff in Hpre. destruct Hpre as [Hn Hpre].
    apply negb_true_iff in Hn.
    destruct (IH Hpre) as (I1 & I2 & I3 & I4).
    cbn [app loop_exits existsb loop_left_over passes_before_quit loop_calls
         List.concat List.length].
    rewrite Hn. fold (loop_exits (pre ++ (before ++ SDL_QUIT :: after) :: post)).
    rewrite I1, I2, I3. repeat split.
    rewrite !filter_app, I4, filter_viewport_calls, handled_no_quit
      by assumption.
    cbn [frame_calls filter is_viewport app].
    now rewrite <- app_assoc, (viewport_calls_app batch).
Qed.

(** C2, as the code has it. When the batch of some pass holds a quit
    event, the loop ends and [main] returns 0; the events queued before
    the quit event are handled, those queued behind it in the same pass
    are left in the queue. *)
Theorem quit_ends_loop (RAND_MAX : Z) (rand_sequence : Z -> nat -> Z)
    (env : Env) (pre : list (list SDL_Event))
    (before after : list SDL_Event) (post : list (list SDL_Event)) :
  0 <= init_status env -> new_window env <> nullptr ->
  new_context env <> nullptr ->
  arrivals env = pre ++ (before ++ SDL_QUIT :: after) :: post ->
  quit_free pre = true -> has_quit before = false ->
  let run := main RAND_MAX rand_sequence env initial_world in
  fst run = Some 0 /\
  events (snd run) = after /\
  filter is_viewport (trace (snd run)) =
    viewport_calls (List.concat pre ++ before).
Proof.
  intros Hi Hw Hc Harr Hpre Hb. cbv zeta.
  rewrite (main_run RAND_MAX rand_sequence env Hi Hw Hc).
  destruct (loop_until_quit (uniform_location env) (new_window env)
              pre before after post Hpre Hb) as (L1 & L2 & _ & L4).
  rewrite <- Harr in *. rewrite L1. cbn [fst snd].
  set (w1 := add_calls (teardown_calls env)
               (after_loop RAND_MAX rand_sequence env)).
  assert (Ht : trace (cleaned w1) =
               setup_calls RAND_MAX rand_sequence env ++
               loop_calls (uniform_location env) (new_window env)
                 (arrivals env) ++
               teardown_calls env ++ cleanup_calls w1).
  { unfold cleaned. cbn [trace]. unfold w1 at 1. unfold add_calls, after_loop.
    cbn [trace]. now rewrite <- !app_assoc. }
  repeat split; [exact L2|].
  rewrite Ht, !filter_app, L4.
  rewrite (filter_viewport_quiet (setup_calls RAND_MAX rand_sequence env)
             (quiet_setup_calls RAND_MAX rand_sequence env)).
  rewrite (filter_viewport_quiet (teardown_calls env)
             (quiet_teardown_calls env)).
  rewrite (filter_viewport_quiet (cleanup_calls w1) (quiet_cleanup_calls w1)).
  cbn [app]. now rewrite app_nil_r.
Qed.

Lemma quit_ends_loop_witness :
  let env :=
    sample_env 0 4096 8192 (fun _ => true) true
      [ [SDL_WINDOWEVENT SDL_WINDOWEVENT_RESIZED 320 200];
        [ SDL_WINDOWEVENT SDL_WINDOWEVENT_RESIZED 800 600; SDL_QUIT;
          SDL_WINDOWEVENT SDL_WINDOWEVENT_RESIZED 640 480 ];
        [] ] in
  let run := main 32767 sample_rand env initial_world in
  fst run = Some 0 /\
  events (snd run) = [SDL_WINDOWEVENT SDL_WINDOWEVENT_RESIZED 640 480] /\
  filter is_viewport (trace (snd run)) =
    [Log.glViewport 0 0 320 200; Log.glViewport 0 0 800 600].
Proof.
  apply (quit_ends_loop 32767 sample_rand
           (sample_env 0 4096 8192 (fun _ => true) true
              [ [SDL_WINDOWEVENT SDL_WINDOWEVENT_RESIZED 320 200];
                [ SDL_WINDOWEVENT SDL_WINDOWEVENT_RESIZED 800 600; SDL_QUIT;
                  SDL_WINDOWEVENT SDL_WINDOWEVENT_RESIZED 640 480 ];
                [] ])
           [[SDL_WINDOWEVENT SDL_WINDOWEVENT_RESIZED 320 200]]
           [SDL_WINDOWEVENT SDL_WINDOWEVENT_RESIZED 800 600]
           [SDL_WINDOWEVENT SDL_WINDOWEVENT_RESIZED 640 480]
           [[]]);
    [cbn; lia|discriminate|discriminate|reflexivity|reflexivity|reflexivity].
Defined.

(** ** Shader compilation failure *)

Lemma trace_after_loop RAND_MAX rand_sequence env :
  trace (after_loop RAND_MAX rand_sequence env) =
  setup_calls RAND_MAX rand_sequence env ++
  loop_calls (uniform_location env) (new_window env) (arrivals env).
Proof. reflexivity. Qed.

(** C7. When the compilation of a stage fails, [CreateShader] fetches the
    info log, shows the message box, deletes the shader and returns 0;
    [main] does not stop there: the handle 0 is attached to the program,
    the program is linked and the frame loop runs as it would otherwise,
    so that [main] returns 0 on a quit event and never 1. *)
Theorem shader_failure_continues (RAND_MAX : Z)
    (rand_sequence : Z -> nat -> Z) (env : Env)
    (type : ShaderType) (src : ShaderSource) (w : World) :
  0 <= init_status env -> new_window env <> nullptr ->
  new_context env <> nullptr ->
  compile_status env type = false ->
  CreateShader env type src w =
    (0,
     add_calls
       [ Log.glCreateShader type;
         Log.glShaderSource (new_shader env type) src;
         Log.glCompileShader (new_shader env type);
         Log.glGetShaderiv (new_shader env type);
         Log.glGetShaderInfoLog (new_shader env type) 512;
         Log.SDL_ShowSimpleMessageBox "Shader compilation failed" (window w);
         Log.glDeleteShader (new_shader env type) ] w) /\
  let run := main RAND_MAX rand_sequence env initial_world in
  fst run = (if loop_exits (arrivals env) then Some 0 else None) /\
  exists before after,
    trace (snd run) =
      before ++
      loop_calls (uniform_location env) (new_window env) (arrivals env) ++
      after /\
    In (Log.glAttachShader (new_program env) 0) before /\
    In (Log.glLinkProgram (new_program env)) before /\
    In (Log.glUseProgram (program_result env)) before.
Proof.
  intros Hi Hw Hc Hfail. split.
  - rewrite CreateShader_run. unfold shader_result, shader_calls.
    now rewrite Hfail.
  - cbv zeta. rewrite (main_run RAND_MAX rand_sequence env Hi Hw Hc).
    assert (Hsetup :
      In (Log.glAttachShader (new_program env) 0)
         (setup_calls RAND_MAX rand_sequence env) /\
      In (Log.glLinkProgram (new_program env))
         (setup_calls RAND_MAX rand_sequence env) /\
      In (Log.glUseProgram (program_result env))
         (setup_calls RAND_MAX rand_sequence env)).
    { unfold setup_calls. rewrite !in_app_iff. repeat split.
      - do 5 right. left. unfold program_calls. rewrite !in_app_iff.
        right. left. apply in_map.
        unfold shaderObjects, shader_result.
        destruct type; rewrite Hfail; cbn; tauto.
      - do 5 right. left. unfold program_calls. rewrite !in_app_iff.
        right. right. left. now left.
      - do 6 right. cbn. tauto. }
    destruct Hsetup as (S1 & S2 & S3).
    destruct (loop_exits (arrivals env)); cbn [fst snd];
      (split; [reflexivity|]);
      exists (setup_calls RAND_MAX rand_sequence env).
    + exists (teardown_calls env ++
              cleanup_calls (add_calls (teardown_calls env)
                               (after_loop RAND_MAX rand_sequence env))).
      repeat split; try assumption.
      unfold cleaned. cbn [trace]. unfold add_calls at 1. cbn [trace].
      rewrite trace_after_loop. now rewrite <- !app_assoc.
    + exists []. repeat split; try assumption.
      rewrite trace_after_loop. now rewrite app_nil_r.
Qed.

Lemma shader_failure_continues_witness :
  let env :=
    sample_env 0 4096 8192
      (fun type =>
         match type with GL_TESS_EVALUATION_SHADER => false | _ => true end)
      true [[]; [SDL_QUIT]] in
  fst (main 32767 sample_rand env initial_world) = Some 0.
Proof.
  refine (proj1 (proj2 (shader_failure_continues 32767 sample_rand
            (sample_env 0 4096 8192
               (fun type =>
                  match type with
                  | GL_TESS_EVALUATION_SHADER => false
                  | _ => true
                  end)
               true [[]; [SDL_QUIT]])
            GL_TESS_EVALUATION_SHADER TessEvaluationShaderSource
            initial_world _ _ _ _))).
  - cbn. lia.
  - discriminate.
  - discriminate.
  - reflexivity.
Defined.

(** ** Positions on larger grids *)

(** On every grid with at most [2^23] rows and columns the positions of
    all records lie strictly between -1 and 1. *)
Theorem position_inside_any_grid (RAND_MAX : Z)
    (rand_sequence : Z -> nat -> Z) (rows columns : nat) (w : World)
    (quad : QuadVertex.t) :
  Z.of_nat rows <= 8388608 -> Z.of_nat columns <= 8388608 ->
  In quad (fst (fill_quadData RAND_MAX rand_sequence rows columns [] w)) ->
  (F32.finite (QuadVertex.x quad) = true /\
   (-1 < F32.to_Q (QuadVertex.x quad) < 1)%Q) /\
  (F32.finite (QuadVertex.y quad) = true /\
   (-1 < F32.to_Q (QuadVertex.y quad) < 1)%Q).
Proof.
  intros Hr Hc Hin. rewrite fill_quadData_run in Hin. cbn [fst] in Hin.
  apply in_grid_at in Hin.
  destruct Hin as (row & column & k & Hrow & Hcol & ->).
  cbn [quad_at QuadVertex.x QuadVertex.y].
  split; now apply cell_centre_inside_any.
Qed.

Lemma position_inside_any_grid_witness :
  let quad :=
    nth 11 (fst (fill_quadData 32767 sample_rand 3 7 [] initial_world))
      QuadVertex.zero in
  (F32.finite (QuadVertex.x quad) = true /\
   (-1 < F32.to_Q (QuadVertex.x quad) < 1)%Q) /\
  (F32.finite (QuadVertex.y quad) = true /\
   (-1 < F32.to_Q (QuadVertex.y quad) < 1)%Q).
Proof.
  intros quad.
  apply (position_inside_any_grid 32767 sample_rand 3 7 initial_world quad).
  - cbn. lia.
  - cbn. lia.
  - apply nth_In. vm_compute. lia.
Defined.

(** Beyond that the property is lost: with [2^24] cells on an axis the
    centre of the last cell rounds to 1. *)
Lemma cell_centre_limit (n last : nat) :
  Z.of_nat n = 16777216 -> Z.of_nat last = 16777215 ->
  cell_centre n last = F32.one.
Proof.
  intros Hn Hl. unfold cell_centre. rewrite Hn, Hl. now vm_compute.
Qed.

Lemma cell_centre_limit_witness :
  cell_centre (Z.to_nat 16777216) (Z.to_nat 16777215) = F32.one.
Proof. apply cell_centre_limit; apply Z2Nat.id; lia. Defined.

(** * The run as a whole

    Properties of whole runs of [main], read off the calls it makes, and
    further properties of the generated records. *)

(** ** Exit codes *)

(** The four ways a run can go. *)
Ltac main_cases RAND_MAX rs env :=
  let Hi := fresh "Hi" in
  let Hw := fresh "Hw" in
  let Hc := fresh "Hc" in
  destruct (Z_lt_dec (init_status env) 0) as [Hi|Hi];
  [ rewrite (main_init_fails RAND_MAX rs env Hi)
  | apply Z.nlt_ge in Hi;
    destruct (Z.eq_dec (new_window env) nullptr) as [Hw|Hw];
    [ rewrite (main_window_fails RAND_MAX rs env Hi Hw)
    | destruct (Z.eq_dec (new_context env) nullptr) as [Hc|Hc];
      [ rewrite (main_context_fails RAND_MAX rs env Hi Hw Hc)
      | rewrite (main_run RAND_MAX rs env Hi Hw Hc) ] ] ].

(** The exit code of [main] is 1 exactly when the bootstrap fails and 0
    exactly when it succeeds and a quit event arrives; with a successful
    bootstrap and no quit event the loop is never left. *)
Theorem exit_code (RAND_MAX : Z) (rand_sequence : Z -> nat -> Z)
    (env : Env) :
  let code := fst (main RAND_MAX rand_sequence env initial_world) in
  (code = Some 1 <-> bootstrap_fails env) /\
  (code = Some 0 <->
   ~ bootstrap_fails env /\ loop_exits (arrivals env) = true) /\
  (code = None <->
   ~ bootstrap_fails env /\ loop_exits (arrivals env) = false) /\
  (forall c, code = Some c -> c = 0 \/ c = 1).
Proof.
  cbv zeta. unfold bootstrap_fails.
  main_cases RAND_MAX rand_sequence env; cbn [fst];
    [| | |destruct (loop_exits (arrivals env)); cbn [fst]];
    repeat split; intros;
    try discriminate; try tauto; try lia;
    try (match goal with H : Some _ = Some _ |- _ => injection H as <- end; lia);
    try (match goal with H : Some _ = Some _ |- _ => injection H as <- end; tauto);
    try (exfalso; intuition (try discriminate; try lia; try congruence)).
Qed.

(** ** Kinds of calls in the parts of a run *)

Lemma filter_none (P : Log.call -> bool) cs :
  forallb (fun c => negb (P c)) cs = true -> filter P cs = [].
Proof.
  induction cs as [|c cs IH]; [reflexivity|].
  cbn [forallb filter]. intros H. apply andb_prop in H. destruct H as [Hc Hcs].
  apply negb_true_iff in Hc. rewrite Hc. now apply IH.
Qed.

Lemma filter_viewport_calls_none (P : Log.call -> bool) evs :
  (forall x y w h, P (Log.glViewport x y w h) = false) ->
  filter P (viewport_calls evs) = [].
Proof.
  intros HP. induction evs as [|e evs IH]; [reflexivity|].
  destruct e as [[|id] d1 d2| |t];
    cbn [viewport_calls flat_map app filter]; fold (viewport_calls evs);
    rewrite ?HP; exact IH.
Qed.

Lemma filter_loop_calls (P : Log.call -> bool) colorLocation win batches :
  (forall x y w h, P (Log.glViewport x y w h) = false) ->
  filter P (loop_calls colorLocation win batches) =
  List.concat
    (repeat (filter P (frame_calls colorLocation win))
       (passes_before_quit batches)).
Proof.
  intros HP. induction batches as [|batch later IH]; [reflexivity|].
  cbn [loop_calls passes_before_quit]. rewrite filter_app.
  rewrite (filter_viewport_calls_none P _ HP). cbn [app].
  destruct (has_quit batch); [reflexivity|].
  rewrite filter_app, IH. reflexivity.
Qed.

Lemma filter_loop_calls_none (P : Log.call -> bool) colorLocation win batches :
  (forall x y w h, P (Log.glViewport x y w h) = false) ->
  filter P (frame_calls colorLocation win) = [] ->
  filter P (loop_calls colorLocation win batches) = [].
Proof.
  intros HP HF. rewrite (filter_loop_calls P _ _ _ HP), HF.
  induction (passes_before_quit batches) as [|n IH]; [reflexivity|exact IH].
Qed.

Lemma cleanup_calls_add_calls cs w :
  cleanup_calls (add_calls cs w) = cleanup_calls w.
Proof. reflexivity. Qed.

(** The calls of a run that is left through a quit event. *)
Lemma trace_whole_run RAND_MAX rand_sequence env :
  new_window env <> nullptr -> new_context env <> nullptr ->
  trace (cleaned (add_calls (teardown_calls env)
                    (after_loop RAND_MAX rand_sequence env))) =
  setup_calls RAND_MAX rand_sequence env ++
  loop_calls (uniform_location env) (new_window env) (arrivals env) ++
  teardown_calls env ++
  [ Log.SDL_GL_DeleteContext (new_context env);
    Log.SDL_DestroyWindow (new_window env);
    Log.SDL_WasInit SDL_INIT_EVERYTHING;
    Log.SDL_QuitSubSystem (Z.land (subsystems_up env) SDL_INIT_EVERYTHING) ].
Proof.
  intros Hw Hc. apply Z.eqb_neq in Hw. apply Z.eqb_neq in Hc.
  unfold cleaned, cleanup_calls, add_calls, after_loop.
  cbn [window context rand_seed rand_calls subsystems events trace].
  rewrite Hw, Hc. rewrite <- !app_assoc. reflexivity.
Qed.

Lemma filter_deletion_setup_calls RAND_MAX rand_sequence env :
  filter is_deletion (setup_calls RAND_MAX rand_sequence env) =
  failed_shader env GL_VERTEX_SHADER ++
  failed_shader env GL_TESS_EVALUATION_SHADER ++
  failed_shader env GL_FRAGMENT_SHADER ++ failed_program env.
Proof.
  unfold setup_calls, window_calls, shader_calls, program_calls,
    shaderObjects, failed_shader, failed_program.
  rewrite !filter_app. cbn [filter is_deletion app map].
  destruct (compile_status env GL_VERTEX_SHADER),
    (compile_status env GL_TESS_EVALUATION_SHADER),
    (compile_status env GL_FRAGMENT_SHADER), (link_status env);
    reflexivity.
Qed.

(** Every object is deleted once, in a fixed order. On a run with a
    successful bootstrap the deleting calls are: first, where they are
    created, the shaders that fail to compile and the program if it fails
    to link; then, after the quit event and not before, the three shader
    handles that [CreateShader] returned (0 for a shader that failed),
    the program handle that [CreateShaderProgram] returned, the buffer,
    the vertex array, the context and last the window. *)
Theorem deletions_in_order (RAND_MAX : Z) (rand_sequence : Z -> nat -> Z)
    (env : Env) :
  0 <= init_status env -> new_window env <> nullptr ->
  new_context env <> nullptr ->
  let run := main RAND_MAX rand_sequence env initial_world in
  let returned type :=
    if compile_status env type then new_shader env type else 0 in
  filter is_deletion (trace (snd run)) =
  (failed_shader env GL_VERTEX_SHADER ++
   failed_shader env GL_TESS_EVALUATION_SHADER ++
   failed_shader env GL_FRAGMENT_SHADER ++ failed_program env) ++
  (if loop_exits (arrivals env)
   then [ Log.glDeleteShader (returned GL_VERTEX_SHADER);
          Log.glDeleteShader (returned GL_TESS_EVALUATION_SHADER);
          Log.glDeleteShader (returned GL_FRAGMENT_SHADER);
          Log.glDeleteProgram
            (if link_status env then new_program env else 0);
          Log.glDeleteBuffers (new_vbo env);
          Log.glDeleteVertexArrays (new_vao env);
          Log.SDL_GL_DeleteContext (new_context env);
          Log.SDL_DestroyWindow (new_window env) ]
   else []).
Proof.
  intros Hi Hw Hc. cbv zeta.
  rewrite (main_run RAND_MAX rand_sequence env Hi Hw Hc).
  assert (HL : filter is_deletion
                 (loop_calls (uniform_location env) (new_window env)
                    (arrivals env)) = []).
  { apply filter_loop_calls_none; reflexivity. }
  destruct (loop_exits (arrivals env)); cbn [snd].
  - rewrite trace_whole_run by assumption.
    rewrite !filter_app, filter_deletion_setup_calls, HL.
    reflexivity.
  - rewrite trace_after_loop, filter_app, filter_deletion_setup_calls, HL.
    reflexivity.
Qed.

Lemma deletions_in_order_witness :
  let env :=
    sample_env 0 4096 8192
      (fun type =>
         match type with GL_FRAGMENT_SHADER => false | _ => true end)
      true [[]; [SDL_QUIT]] in
  filter is_deletion
    (trace (snd (main 32767 sample_rand env initial_world))) =
  [ Log.glDeleteShader 3;
    Log.glDeleteShader 1; Log.glDeleteShader 2; Log.glDeleteShader 0;
    Log.glDeleteProgram 4; Log.glDeleteBuffers 1;
    Log.glDeleteVertexArrays 1;
    Log.SDL_GL_DeleteContext 8192; Log.SDL_DestroyWindow 4096 ].
Proof.
  intros env.
  apply (deletions_in_order 32767 sample_rand env).
  - cbn. lia.
  - discriminate.
  - discriminate.
Defined.

(** Every exit path shuts SDL down, once. When [main] returns, [window]
    and [context] are null and [SDL_QuitSubSystem] has been called
    exactly once, as the last call, with what
    [SDL_WasInit(SDL_INIT_EVERYTHING)] answered just before it: the
    subsystems that [SDL_InitSubSystem] had brought up, whichever these
    are (after a call that succeeds, the video and the timer subsystem
    and what SDL brings up with them; after a call that fails, what SDL
    left up). None of the subsystems of [SDL_INIT_EVERYTHING] is
    initialised afterwards. *)
Theorem exit_shuts_down (RAND_MAX : Z) (rand_sequence : Z -> nat -> Z)
    (env : Env) (code : Z) :
  let run := main RAND_MAX rand_sequence env initial_world in
  fst run = Some code ->
  window (snd run) = nullptr /\ context (snd run) = nullptr /\
  Z.land (subsystems (snd run)) SDL_INIT_EVERYTHING = 0 /\
  let shutdown :=
    [ Log.SDL_WasInit SDL_INIT_EVERYTHING;
      Log.SDL_QuitSubSystem
        (Z.land (subsystems_up env) SDL_INIT_EVERYTHING) ] in
  filter is_shutdown (trace (snd run)) = shutdown /\
  exists before, trace (snd run) = before ++ shutdown.
Proof.
  cbv zeta.
  main_cases RAND_MAX rand_sequence env; cbn [fst snd].
  - intros _. split; [reflexivity|]. split; [reflexivity|].
    split; [apply quit_everything_twice|].
    split; [reflexivity|]. eexists [_; _]. reflexivity.
  - intros _. split; [reflexivity|]. split; [reflexivity|].
    split; [apply quit_everything_twice|].
    split; [reflexivity|]. eexists [_; _; _; _; _; _]. reflexivity.
  - intros _.
    assert (Ew : (new_window env =? nullptr) = false) by now apply Z.eqb_neq.
    split; [reflexivity|]. split; [reflexivity|].
    split; [apply quit_everything_twice|].
    unfold cleaned, cleanup_calls, booting, window_calls.
    cbn [window context subsystems trace]. rewrite Ew. cbn [Z.eqb nullptr].
    split; [reflexivity|].
    eexists [_; _; _; _; _; _; _; _]. reflexivity.
  - destruct (loop_exits (arrivals env)); [|discriminate].
    intros _. cbn [fst snd].
    split; [reflexivity|]. split; [reflexivity|].
    split; [apply quit_everything_twice|].
    rewrite trace_whole_run by assumption. split.
    + rewrite !filter_app.
      rewrite (filter_none is_shutdown (setup_calls _ _ _)).
      * rewrite filter_loop_calls_none by reflexivity. reflexivity.
      * unfold setup_calls, window_calls, shader_calls, program_calls,
          shaderObjects.
        rewrite !forallb_app. cbn [forallb is_shutdown negb andb map].
        destruct (compile_status env GL_VERTEX_SHADER),
          (compile_status env GL_TESS_EVALUATION_SHADER),
          (compile_status env GL_FRAGMENT_SHADER), (link_status env);
          reflexivity.
    + exists (setup_calls RAND_MAX rand_sequence env ++
              loop_calls (uniform_location env) (new_window env)
                (arrivals env) ++
              teardown_calls env ++
              [ Log.SDL_GL_DeleteContext (new_context env);
                Log.SDL_DestroyWindow (new_window env) ]).
      rewrite <- !app_assoc. reflexivity.
Qed.

Lemma exit_shuts_down_witness :
  let run :=
    main 32767 sample_rand
      (sample_env 0 4096 8192 (fun _ => true) true [[SDL_QUIT]])
      initial_world in
  window (snd run) = nullptr /\ context (snd run) = nullptr /\
  Z.land (subsystems (snd run)) SDL_INIT_EVERYTHING = 0 /\
  filter is_shutdown (trace (snd run)) =
    [Log.SDL_WasInit SDL_INIT_EVERYTHING; Log.SDL_QuitSubSystem 0x4021] /\
  exists before,
    trace (snd run) =
    before ++
    [Log.SDL_WasInit SDL_INIT_EVERYTHING; Log.SDL_QuitSubSystem 0x4021].
Proof.
  intros run.
  apply (exit_shuts_down 32767 sample_rand
           (sample_env 0 4096 8192 (fun _ => true) true [[SDL_QUIT]]) 0).
  now vm_compute.
Defined.

(** ** Link failure *)

(** When the program does not link, [CreateShaderProgram] has attached
    the shaders it was given, in their order, fetches the info log, shows
    the message box, deletes the program and returns 0, for every list of
    shaders. [main] goes on: it asks program 0 for the uniform, makes
    program 0 current, runs the frame loop, and deletes program 0 after
    the loop. *)
Theorem link_failure_continues (RAND_MAX : Z)
    (rand_sequence : Z -> nat -> Z) (env : Env)
    (shaders : list GLuint) (w : World) :
  0 <= init_status env -> new_window env <> nullptr ->
  new_context env <> nullptr ->
  link_status env = false ->
  CreateShaderProgram env shaders w =
    (0,
     add_calls
       ([Log.glCreateProgram] ++
        map (Log.glAttachShader (new_program env)) shaders ++
        [ Log.glLinkProgram (new_program env);
          Log.glGetProgramiv (new_program env);
          Log.glGetProgramInfoLog (new_program env) 512;
          Log.SDL_ShowSimpleMessageBox "Shader program link failed"
            (window w);
          Log.glDeleteProgram (new_program env) ]) w) /\
  let run := main RAND_MAX rand_sequence env initial_world in
  let returned type :=
    if compile_status env type then new_shader env type else 0 in
  fst run = (if loop_exits (arrivals env) then Some 0 else None) /\
  filter uses_program (trace (snd run)) =
    [ Log.glCreateProgram;
      Log.glAttachShader (new_program env) (returned GL_VERTEX_SHADER);
      Log.glAttachShader (new_program env)
        (returned GL_TESS_EVALUATION_SHADER);
      Log.glAttachShader (new_program env) (returned GL_FRAGMENT_SHADER);
      Log.glLinkProgram (new_program env);
      Log.glGetProgramiv (new_program env);
      Log.glGetProgramInfoLog (new_program env) 512;
      Log.glDeleteProgram (new_program env);
      Log.glGetUniformLocation 0 "ConstantColor";
      Log.glUseProgram 0 ] ++
    (if loop_exits (arrivals env) then [Log.glDeleteProgram 0] else []).
Proof.
  intros Hi Hw Hc Hl. split.
  - rewrite CreateShaderProgram_run. unfold program_result, program_calls.
    rewrite Hl. reflexivity.
  - cbv zeta. rewrite (main_run RAND_MAX rand_sequence env Hi Hw Hc).
    assert (HL : filter uses_program
                   (loop_calls (uniform_location env) (new_window env)
                      (arrivals env)) = []).
    { apply filter_loop_calls_none; reflexivity. }
    assert (HS : filter uses_program (setup_calls RAND_MAX rand_sequence env)
                 = [ Log.glCreateProgram;
                     Log.glAttachShader (new_program env)
                       (shader_result env GL_VERTEX_SHADER);
                     Log.glAttachShader (new_program env)
                       (shader_result env GL_TESS_EVALUATION_SHADER);
                     Log.glAttachShader (new_program env)
                       (shader_result env GL_FRAGMENT_SHADER);
                     Log.glLinkProgram (new_program env);
                     Log.glGetProgramiv (new_program env);
                     Log.glGetProgramInfoLog (new_program env) 512;
                     Log.glDeleteProgram (new_program env);
                     Log.glGetUniformLocation 0 "ConstantColor";
                     Log.glUseProgram 0 ]).
    { unfold setup_calls, window_calls, shader_calls, program_calls,
        shaderObjects, program_result.
      rewrite Hl, !filter_app. cbn [filter uses_program app map].
      destruct (compile_status env GL_VERTEX_SHADER),
        (compile_status env GL_TESS_EVALUATION_SHADER),
        (compile_status env GL_FRAGMENT_SHADER); reflexivity. }
    destruct (loop_exits (arrivals env)); cbn [fst snd];
      (split; [reflexivity|]).
    + rewrite trace_whole_run by assumption.
      rewrite !filter_app, HS, HL.
      unfold teardown_calls, program_result. rewrite Hl. reflexivity.
    + rewrite trace_after_loop, filter_app, HS, HL. reflexivity.
Qed.

Lemma link_failure_continues_witness :
  let env :=
    sample_env 0 4096 8192 (fun _ => true) false [[]; [SDL_QUIT]] in
  fst (main 32767 sample_rand env initial_world) = Some 0.
Proof.
  intros env.
  exact (proj1 (proj2 (link_failure_continues 32767 sample_rand env []
                         initial_world ltac:(cbn; lia) ltac:(discriminate)
                         ltac:(discriminate) eq_refl))).
Defined.

(** ** The upload *)

Lemma filter_upload_setup_calls RAND_MAX rand_sequence env :
  filter is_upload (setup_calls RAND_MAX rand_sequence env) =
  [ Log.glBufferData
      (16 * Z.of_nat (List.length (quadData RAND_MAX rand_sequence env)))
      (quadData RAND_MAX rand_sequence env) ].
Proof.
  unfold setup_calls, window_calls, shader_calls, program_calls,
    shaderObjects.
  rewrite !filter_app. cbn [filter is_upload app map].
  destruct (compile_status env GL_VERTEX_SHADER),
    (compile_status env GL_TESS_EVALUATION_SHADER),
    (compile_status env GL_FRAGMENT_SHADER), (link_status env);
    reflexivity.
Qed.

(** The records are uploaded as they were generated, once. On a run with
    a successful bootstrap [glBufferData] is called exactly once, with
    the 100 records that the grid loops produce after
    [srand((unsigned) time(nullptr))] and with their size of 1600 bytes;
    [rand] is called 400 times in the whole run, so the frame loop draws
    no further random value. *)
Theorem upload_is_grid (RAND_MAX : Z) (rand_sequence : Z -> nat -> Z)
    (env : Env) :
  0 <= init_status env -> new_window env <> nullptr ->
  new_context env <> nullptr ->
  let run := main RAND_MAX rand_sequence env initial_world in
  let grid :=
    fst (fill_quadData RAND_MAX rand_sequence kRows kColumns []
           (snd (srand (time_unsigned env) initial_world))) in
  filter is_upload (trace (snd run)) = [Log.glBufferData 1600 grid] /\
  List.length grid = 100%nat /\
  rand_calls (snd run) = 400%nat.
Proof.
  intros Hi Hw Hc. cbv zeta.
  rewrite fill_quadData_run. cbn [fst].
  assert (HL : filter is_upload
                 (loop_calls (uniform_location env) (new_window env)
                    (arrivals env)) = []).
  { apply filter_loop_calls_none; reflexivity. }
  assert (Hlen : List.length (quadData RAND_MAX rand_sequence env) = 100%nat).
  { unfold quadData. now rewrite grid_at_length. }
  assert (HS : filter is_upload (setup_calls RAND_MAX rand_sequence env) =
               [ Log.glBufferData 1600
                   (grid_at RAND_MAX rand_sequence kRows kColumns
                      (time_unsigned env) 0) ]).
  { rewrite filter_upload_setup_calls, Hlen. reflexivity. }
  rewrite (main_run RAND_MAX rand_sequence env Hi Hw Hc).
  split; [|split].
  - destruct (loop_exits (arrivals env)); cbn [snd].
    + rewrite trace_whole_run by assumption.
      rewrite !filter_app, HS, HL. reflexivity.
    + rewrite trace_after_loop, filter_app, HS, HL. reflexivity.
  - apply grid_at_length.
  - destruct (loop_exits (arrivals env)); reflexivity.
Qed.

Lemma upload_is_grid_witness :
  let env := sample_env 0 4096 8192 (fun _ => true) true [[SDL_QUIT]] in
  rand_calls (snd (main 32767 sample_rand env initial_world)) = 400%nat.
Proof.
  intros env.
  exact (proj2 (proj2 (upload_is_grid 32767 sample_rand env
                         ltac:(cbn; lia) ltac:(discriminate)
                         ltac:(discriminate)))).
Defined.

(** ** Window and context *)

Lemma live_replay_app env cs1 cs2 : forall s,
  live_replay env s (cs1 ++ cs2) =
  match live_replay env s cs1 with
  | Some s' => live_replay env s' cs2
  | None => None
  end.
Proof.
  induction cs1 as [|c cs1 IH]; intros s; [reflexivity|].
  cbn [app live_replay]. destruct (live_step env s c); [apply IH|reflexivity].
Qed.

Lemma live_replay_cons env s c cs :
  live_replay env s (c :: cs) =
  match live_step env s c with
  | Some s' => live_replay env s' cs
  | None => None
  end.
Proof. reflexivity. Qed.

Lemma live_replay_uses_live env win ctx cs :
  win <> nullptr -> ctx <> nullptr ->
  forallb (uses_live win) cs = true ->
  live_replay env (mkLive win ctx) cs = Some (mkLive win ctx).
Proof.
  intros Hw Hc. apply Z.eqb_neq in Hw. apply Z.eqb_neq in Hc.
  induction cs as [|c cs IH]; [reflexivity|].
  cbn [forallb]. intros H. apply andb_prop in H. destruct H as [Hu Hcs].
  cbn [live_replay].
  assert (E : live_step env (mkLive win ctx) c = Some (mkLive win ctx)).
  { destruct c; cbn [uses_live] in Hu; try discriminate;
      try (apply Z.eqb_eq in Hu; subst);
      cbn [live_step is_gl_call live_window live_context andb];
      rewrite ?Z.eqb_refl, ?Hc, ?Hw, ?andb_false_r, ?orb_true_r;
      reflexivity. }
  rewrite E. now apply IH.
Qed.

Lemma forallb_viewport_calls (P : Log.call -> bool) evs :
  (forall x y w h, P (Log.glViewport x y w h) = true) ->
  forallb P (viewport_calls evs) = true.
Proof.
  intros HP. induction evs as [|e evs IH]; [reflexivity|].
  destruct e as [[|id] d1 d2| |t];
    cbn [viewport_calls flat_map app forallb]; fold (viewport_calls evs);
    rewrite ?HP; exact IH.
Qed.

Lemma forallb_loop_calls (P : Log.call -> bool) colorLocation win batches :
  (forall x y w h, P (Log.glViewport x y w h) = true) ->
  forallb P (frame_calls colorLocation win) = true ->
  forallb P (loop_calls colorLocation win batches) = true.
Proof.
  intros HP HF. induction batches as [|batch later IH]; [reflexivity|].
  cbn [loop_calls]. rewrite forallb_app, (forallb_viewport_calls P _ HP).
  destruct (has_quit batch); [reflexivity|].
  rewrite forallb_app, HF, IH. reflexivity.
Qed.

Lemma uses_live_shader_calls env type src win :
  forallb (uses_live win) (shader_calls env type src win) = true.
Proof.
  unfold shader_calls. destruct (compile_status env type);
    cbn [app forallb uses_live]; rewrite ?Z.eqb_refl; reflexivity.
Qed.

Lemma uses_live_program_calls env shaders win :
  forallb (uses_live win) (program_calls env shaders win) = true.
Proof.
  unfold program_calls. rewrite !forallb_app.
  assert (H : forallb (uses_live win)
                (map (Log.glAttachShader (new_program env)) shaders) = true).
  { induction shaders as [|s ss IH]; [reflexivity|exact IH]. }
  rewrite H. destruct (link_status env);
    cbn [app forallb uses_live]; rewrite ?Z.eqb_refl; reflexivity.
Qed.

(** The bootstrap leaves the window and the context alive. *)
Lemma live_replay_setup_calls RAND_MAX rand_sequence env :
  new_window env <> nullptr -> new_context env <> nullptr ->
  live_replay env (mkLive nullptr nullptr)
    (setup_calls RAND_MAX rand_sequence env) =
  Some (mkLive (new_window env) (new_context env)).
Proof.
  intros Hw Hc. unfold setup_calls, window_calls.
  rewrite live_replay_app.
  assert (Ew : (new_window env =? nullptr) = false) by now apply Z.eqb_neq.
  assert (E0 : (nullptr =? nullptr) = true) by reflexivity.
  cbn [live_replay live_step is_gl_call live_window live_context andb].
  rewrite E0. cbn [app].
  rewrite live_replay_cons.
  cbn [live_step live_window live_context].
  rewrite Z.eqb_refl, Ew, E0. cbn [negb andb].
  apply live_replay_uses_live; try assumption.
  cbn [forallb uses_live andb]. rewrite !forallb_app.
  rewrite !uses_live_shader_calls, uses_live_program_calls. reflexivity.
Qed.

Ltac live_one :=
  rewrite live_replay_cons;
  cbn [live_step is_gl_call live_window live_context];
  repeat match goal with
         | H : (_ =? _) = _ |- _ => rewrite H
         end;
  rewrite ?Z.eqb_refl; cbn [negb andb orb].

(** No call uses a window or a context that is not there. In every run,
    whatever the environment answers, the OpenGL calls are made while the
    context exists, swaps and message boxes name the live window (or no
    window), the one window and the one context are deleted only while
    they exist, the context before the window; when [main] returns
    neither is left, and while the loop runs both are alive. *)
Theorem handles_used_while_alive (RAND_MAX : Z)
    (rand_sequence : Z -> nat -> Z) (env : Env) :
  let run := main RAND_MAX rand_sequence env initial_world in
  live_replay env (mkLive nullptr nullptr) (trace (snd run)) =
  Some (match fst run with
        | Some _ => mkLive nullptr nullptr
        | None => mkLive (new_window env) (new_context env)
        end).
Proof.
  cbv zeta.
  assert (E0 : (nullptr =? nullptr) = true) by reflexivity.
  main_cases RAND_MAX rand_sequence env; cbn [fst snd].
  - reflexivity.
  - unfold cleaned, cleanup_calls, booting, window_calls.
    cbn [window context trace]. rewrite E0. cbn [app].
    repeat live_one. rewrite Hw. reflexivity.
  - assert (Ew : (new_window env =? nullptr) = false) by now apply Z.eqb_neq.
    unfold cleaned, cleanup_calls, booting, window_calls.
    cbn [window context trace]. rewrite E0, Ew. cbn [app].
    repeat live_one. rewrite Hc. repeat live_one. reflexivity.
  - assert (HL : live_replay env (mkLive (new_window env) (new_context env))
                   (loop_calls (uniform_location env) (new_window env)
                      (arrivals env)) =
                 Some (mkLive (new_window env) (new_context env))).
    { apply live_replay_uses_live; try assumption.
      apply forallb_loop_calls; [reflexivity|].
      cbn [frame_calls forallb uses_live]. now rewrite Z.eqb_refl. }
    assert (Ew : (new_window env =? nullptr) = false) by now apply Z.eqb_neq.
    assert (Ec : (new_context env =? nullptr) = false) by now apply Z.eqb_neq.
    destruct (loop_exits (arrivals env)); cbn [fst snd].
    + rewrite trace_whole_run by assumption.
      rewrite live_replay_app, live_replay_setup_calls by assumption.
      rewrite live_replay_app, HL.
      rewrite live_replay_app.
      rewrite (live_replay_uses_live env _ _ (teardown_calls env))
        by (assumption || reflexivity).
      repeat live_one. reflexivity.
    + rewrite trace_after_loop.
      rewrite live_replay_app, live_replay_setup_calls by assumption.
      exact HL.
Qed.

(** The replay refuses a call that comes too early or too late. *)
Example live_replay_refuses env :
  live_replay env (mkLive nullptr nullptr) [Log.glClear 0] = None /\
  live_replay env (mkLive 4096 8192)
    [Log.SDL_DestroyWindow 4096; Log.SDL_GL_DeleteContext 8192] = None /\
  live_replay env (mkLive 4096 8192)
    [Log.SDL_GL_DeleteContext 8192; Log.glClear 0] = None.
Proof. repeat split. Qed.

(** ** Vertex fetching *)

Lemma fetch_ok_app cs1 cs2 : forall f,
  fetch_ok f (cs1 ++ cs2) =
  fetch_ok f cs1 && fetch_ok (fetch_replay f cs1) cs2.
Proof.
  induction cs1 as [|c cs1 IH]; intros f; [reflexivity|].
  cbn [app fetch_ok fetch_replay fold_left]. rewrite IH.
  now rewrite andb_assoc.
Qed.

Lemma fetch_replay_app f cs1 cs2 :
  fetch_replay f (cs1 ++ cs2) = fetch_replay (fetch_replay f cs1) cs2.
Proof. apply fold_left_app. Qed.

Lemma fetch_replay_keeps cs : forall f,
  forallb keeps_fetch cs = true -> fetch_replay f cs = f.
Proof.
  induction cs as [|c cs IH]; intros f H; [reflexivity|].
  cbn [forallb] in H. apply andb_prop in H. destruct H as [Hc Hcs].
  cbn [fetch_replay fold_left]. fold (fetch_replay (fetch_step f c) cs).
  rewrite IH by assumption. destruct c; try discriminate; reflexivity.
Qed.

(** Calls that are no draw and leave the buffer alone pass. *)
Lemma fetch_ok_quiet cs : forall f,
  forallb (fun c => negb (is_draw c)) cs = true -> fetch_ok f cs = true.
Proof.
  induction cs as [|c cs IH]; intros f H; [reflexivity|].
  cbn [forallb] in H. apply andb_prop in H. destruct H as [Hc Hcs].
  cbn [fetch_ok]. rewrite IH by assumption.
  destruct c; try discriminate; reflexivity.
Qed.

(** The frame loop on a state in which its two draws are in bounds. *)
Lemma fetch_loop_calls colorLocation win batches f :
  draw_in_bounds f 0 100 = true ->
  fetch_ok f (loop_calls colorLocation win batches) = true /\
  fetch_replay f (loop_calls colorLocation win batches) = f.
Proof.
  intros Hd.
  assert (Hk : fetch_replay f (loop_calls colorLocation win batches) = f).
  { apply fetch_replay_keeps. apply forallb_loop_calls; reflexivity. }
  split; [|exact Hk]. clear Hk.
  induction batches as [|batch later IH]; [reflexivity|].
  cbn [loop_calls]. rewrite fetch_ok_app.
  rewrite fetch_ok_quiet
    by (apply forallb_viewport_calls; reflexivity).
  rewrite fetch_replay_keeps
    by (apply forallb_viewport_calls; reflexivity).
  destruct (has_quit batch); [reflexivity|].
  rewrite fetch_ok_app.
  rewrite (fetch_replay_keeps (frame_calls colorLocation win))
    by reflexivity.
  rewrite IH. cbn [frame_calls fetch_ok fetch_step andb].
  rewrite Hd. reflexivity.
Qed.

Lemma quiet_draw_shader_calls env type src win :
  forallb (fun c => negb (is_draw c)) (shader_calls env type src win) = true /\
  forallb keeps_fetch (shader_calls env type src win) = true.
Proof. unfold shader_calls. now destruct (compile_status env type). Qed.

Lemma quiet_draw_program_calls env shaders win :
  forallb (fun c => negb (is_draw c)) (program_calls env shaders win) = true /\
  forallb keeps_fetch (program_calls env shaders win) = true.
Proof.
  unfold program_calls. rewrite !forallb_app.
  assert (H : forall P : Log.call -> bool,
            (forall p s, P (Log.glAttachShader p s) = true) ->
            forallb P (map (Log.glAttachShader (new_program env)) shaders)
            = true).
  { intros P HP. induction shaders as [|s ss IH]; [reflexivity|].
    cbn [map forallb]. now rewrite HP, IH. }
  rewrite !H by reflexivity. now destruct (link_status env).
Qed.

(** What the bootstrap leaves for the draws: the buffer of 1600 bytes and
    the three enabled attributes. *)
Lemma fetch_setup_calls RAND_MAX rand_sequence env :
  fetch_ok fetch_initial (setup_calls RAND_MAX rand_sequence env) = true /\
  fetch_replay fetch_initial (setup_calls RAND_MAX rand_sequence env) =
  mkFetch (Some 1600)
    [ mkAttrib 2 4 16 12; mkAttrib 1 4 16 8; mkAttrib 0 8 16 0 ]
    [2; 1; 0].
Proof.
  assert (Hlen : List.length (quadData RAND_MAX rand_sequence env) = 100%nat).
  { unfold quadData. now rewrite grid_at_length. }
  pose proof (quiet_draw_shader_calls env GL_VERTEX_SHADER VertexShaderSource
                (new_window env)) as [V1 V2].
  pose proof (quiet_draw_shader_calls env GL_TESS_EVALUATION_SHADER
                TessEvaluationShaderSource (new_window env)) as [T1 T2].
  pose proof (quiet_draw_shader_calls env GL_FRAGMENT_SHADER
                FragmentShaderSource (new_window env)) as [F1 F2].
  pose proof (quiet_draw_program_calls env (shaderObjects env)
                (new_window env)) as [P1 P2].
  unfold setup_calls. rewrite Hlen. split.
  - apply fetch_ok_quiet. rewrite !forallb_app, V1, T1, F1, P1. reflexivity.
  - rewrite !fetch_replay_app.
    rewrite (fetch_replay_keeps (shader_calls env GL_VERTEX_SHADER _ _))
      by assumption.
    rewrite (fetch_replay_keeps (shader_calls env GL_TESS_EVALUATION_SHADER _ _))
      by assumption.
    rewrite (fetch_replay_keeps (shader_calls env GL_FRAGMENT_SHADER _ _))
      by assumption.
    rewrite (fetch_replay_keeps (program_calls env _ _)) by assumption.
    reflexivity.
Qed.

(** No draw reads outside the vertex buffer. In every run, whatever the
    environment answers, each [glDrawArrays] is made after the upload,
    and for each enabled attribute the bytes it reads for the vertices
    drawn (stride 16, the offsets and sizes given to
    [glVertexAttribPointer]) lie inside the 1600 bytes uploaded. *)
Theorem draws_inside_buffer (RAND_MAX : Z)
    (rand_sequence : Z -> nat -> Z) (env : Env) :
  let run := main RAND_MAX rand_sequence env initial_world in
  fetch_ok fetch_initial (trace (snd run)) = true /\
  (fst run = None ->
   fetch_replay fetch_initial (trace (snd run)) =
   mkFetch (Some (QuadVertex.sizeof * Z.of_nat (kRows * kColumns)))
     [ mkAttrib 2 4 QuadVertex.sizeof QuadVertex.offsetof_r;
       mkAttrib 1 4 QuadVertex.sizeof QuadVertex.offsetof_size;
       mkAttrib 0 8 QuadVertex.sizeof QuadVertex.offsetof_x ]
     [2; 1; 0]).
Proof.
  cbv zeta.
  main_cases RAND_MAX rand_sequence env; cbn [fst snd];
    try (split; [reflexivity|discriminate]).
  - unfold cleaned, cleanup_calls, booting, window_calls.
    cbn [window context trace].
    destruct (new_window env =? nullptr);
      (split; [reflexivity|discriminate]).
  - destruct (fetch_setup_calls RAND_MAX rand_sequence env) as [S1 S2].
    set (f := mkFetch (Some 1600)
                [ mkAttrib 2 4 16 12; mkAttrib 1 4 16 8; mkAttrib 0 8 16 0 ]
                [2; 1; 0]) in *.
    destruct (fetch_loop_calls (uniform_location env) (new_window env)
                (arrivals env) f eq_refl) as [L1 L2].
    destruct (loop_exits (arrivals env)); cbn [fst snd].
    + split; [|discriminate].
      rewrite trace_whole_run by assumption.
      rewrite fetch_ok_app, S1, S2. rewrite fetch_ok_app, L1, L2.
      cbn [andb]. apply fetch_ok_quiet.
      unfold teardown_calls, shaderObjects. reflexivity.
    + rewrite trace_after_loop. split.
      * rewrite fetch_ok_app, S1, S2, L1. reflexivity.
      * intros _. rewrite fetch_replay_app, S2, L2. reflexivity.
Qed.

(** The check refuses a draw of one vertex more than was uploaded, and a
    draw before the upload. *)
Example fetch_ok_refuses data :
  fetch_ok fetch_initial
    [ Log.glBufferData 1600 data;
      Log.glVertexAttribPointer 2 4 GL_UNSIGNED_BYTE true 16 12;
      Log.glEnableVertexAttribArray 2;
      Log.glDrawArrays 0 101 ] = false /\
  fetch_ok fetch_initial
    [ Log.glVertexAttribPointer 2 4 GL_UNSIGNED_BYTE true 16 12;
      Log.glEnableVertexAttribArray 2;
      Log.glDrawArrays 0 100;
      Log.glBufferData 1600 data ] = false.
Proof. split; reflexivity. Qed.

(** ** Passes of [HandleEvents] *)

(** A pass over a queue without a quit event takes every event off the
    queue, answers [true] and calls [glViewport] once for each resize
    event, in the order of the queue; other events, window events other
    than a resize among them, cause no call. Handling such a queue and
    then a second one in the next pass makes the same calls, and leaves
    the same state, as handling both in one pass. *)
Theorem handle_events_passes (w : World) (first second : list SDL_Event) :
  has_quit first = false ->
  let pass := HandleEvents (with_events first w) in
  pass = (true, with_events [] (add_calls (viewport_calls first) w)) /\
  HandleEvents (with_events (first ++ second) w) =
  HandleEvents (with_events second (snd pass)).
Proof.
  intros Hq. cbv zeta. rewrite !HandleEvents_run.
  cbn [events with_events add_calls snd window context rand_seed rand_calls
       subsystems trace].
  rewrite has_quit_app, Hq, (handled_app _ _ Hq), (left_over_app _ _ Hq).
  rewrite (handled_no_quit _ Hq), (left_over_no_quit _ Hq).
  rewrite viewport_calls_app.
  split; [reflexivity|]. f_equal.
  unfold with_events, add_calls.
  cbn [window context rand_seed rand_calls subsystems events trace].
  now rewrite app_assoc.
Qed.

Lemma handle_events_passes_witness :
  let w := initial_world in
  let first :=
    [ SDL_WINDOWEVENT (SDL_WINDOWEVENT_other 4) 10 20;
      SDL_WINDOWEVENT SDL_WINDOWEVENT_RESIZED 1024 768;
      SDL_other 768 ] in
  HandleEvents (with_events first w) =
  (true, with_events [] (add_calls [Log.glViewport 0 0 1024 768] w)).
Proof.
  intros w first.
  exact (proj1 (handle_events_passes w first [] eq_refl)).
Defined.

(** ** What is reported *)

(** Every failure is reported once, and nothing else is. A failed
    initialisation writes one line to the log; a failed window or context
    creation shows one message box (without a parent when there is no
    window); after a successful bootstrap there is one message box for
    each stage that does not compile, in the order vertex, tessellation
    evaluation, fragment, then one if the program does not link, all on
    the window; a run without failure reports nothing. *)
Theorem error_reports (RAND_MAX : Z) (rand_sequence : Z -> nat -> Z)
    (env : Env) :
  let run := main RAND_MAX rand_sequence env initial_world in
  let compile type :=
    if compile_status env type then []
    else [ Log.SDL_ShowSimpleMessageBox "Shader compilation failed"
             (new_window env) ] in
  filter is_report (trace (snd run)) =
  if init_status env <? 0 then [Log.SDL_Log "Error initializing SDL: %s"]
  else if new_window env =? nullptr then
    [Log.SDL_ShowSimpleMessageBox "Error creating window" nullptr]
  else if new_context env =? nullptr then
    [ Log.SDL_ShowSimpleMessageBox "Error creating OpenGL 4.1 context"
        (new_window env) ]
  else
    compile GL_VERTEX_SHADER ++ compile GL_TESS_EVALUATION_SHADER ++
    compile GL_FRAGMENT_SHADER ++
    (if link_status env then []
     else [ Log.SDL_ShowSimpleMessageBox "Shader program link failed"
              (new_window env) ]).
Proof.
  cbv zeta.
  main_cases RAND_MAX rand_sequence env; cbn [fst snd].
  - apply Z.ltb_lt in Hi. rewrite Hi. reflexivity.
  - apply Z.ltb_ge in Hi. rewrite Hi, Hw. reflexivity.
  - apply Z.ltb_ge in Hi. rewrite Hi, Hc.
    assert (Ew : (new_window env =? nullptr) = false) by now apply Z.eqb_neq.
    unfold cleaned, cleanup_calls, booting, window_calls.
    cbn [window context trace]. rewrite Ew. reflexivity.
  - apply Z.ltb_ge in Hi. rewrite Hi.
    assert (Ew : (new_window env =? nullptr) = false) by now apply Z.eqb_neq.
    assert (Ec : (new_context env =? nullptr) = false) by now apply Z.eqb_neq.
    rewrite Ew, Ec.
    assert (HL : filter is_report
                   (loop_calls (uniform_location env) (new_window env)
                      (arrivals env)) = []).
    { apply filter_loop_calls_none; reflexivity. }
    assert (HS : filter is_report (setup_calls RAND_MAX rand_sequence env) =
      (if compile_status env GL_VERTEX_SHADER then []
       else [ Log.SDL_ShowSimpleMessageBox "Shader compilation failed"
                (new_window env) ]) ++
      (if compile_status env GL_TESS_EVALUATION_SHADER then []
       else [ Log.SDL_ShowSimpleMessageBox "Shader compilation failed"
                (new_window env) ]) ++
      (if compile_status env GL_FRAGMENT_SHADER then []
       else [ Log.SDL_ShowSimpleMessageBox "Shader compilation failed"
                (new_window env) ]) ++
      (if link_status env then []
       else [ Log.SDL_ShowSimpleMessageBox "Shader program link failed"
                (new_window env) ])).
    { unfold setup_calls, window_calls, shader_calls, program_calls,
        shaderObjects.
      rewrite !filter_app. cbn [filter is_report app map].
      destruct (compile_status env GL_VERTEX_SHADER),
        (compile_status env GL_TESS_EVALUATION_SHADER),
        (compile_status env GL_FRAGMENT_SHADER), (link_status env);
        reflexivity. }
    destruct (loop_exits (arrivals env)); cbn [snd].
    + rewrite trace_whole_run by assumption.
      rewrite !filter_app, HS, HL. cbn [filter is_report app].
      unfold teardown_calls, shaderObjects. cbn [map filter is_report app].
      now rewrite !app_nil_r.
    + rewrite trace_after_loop, filter_app, HS, HL. now rewrite !app_nil_r.
Qed.

(** ** Colour channels *)

(** For a draw that is not negative the conversion to [GLubyte] does not
    wrap. *)
Lemma channel_of_draw_value v :
  0 <= v -> channel_of_draw v = 96 + v mod 128.
Proof.
  intros Hv. unfold channel_of_draw, GLubyte.
  rewrite Z.rem_mod_nonneg by lia.
  pose proof (Z.mod_pos_bound v 128 ltac:(lia)).
  apply Z.mod_small. lia.
Qed.

(** The colour of a record is read off three draws: red, green and blue
    are 96 plus the second, third and fourth value that [rand] returns
    for the record, each taken modulo 128, so only the low seven bits of
    a draw matter and the conversion to [GLubyte] loses nothing; the
    opacity is 255. *)
Theorem colour_is_draw_mod_128 (RAND_MAX : Z)
    (rand_sequence : Z -> nat -> Z) (rows columns row column : nat)
    (w : World) :
  let draw k := rand_sequence (rand_seed w) (rand_calls w + k)%nat in
  let quad :=
    fst (make_quad RAND_MAX rand_sequence rows columns row column w) in
  0 <= draw 1%nat -> 0 <= draw 2%nat -> 0 <= draw 3%nat ->
  QuadVertex.r quad = 96 + draw 1%nat mod 128 /\
  QuadVertex.g quad = 96 + draw 2%nat mod 128 /\
  QuadVertex.b quad = 96 + draw 3%nat mod 128 /\
  QuadVertex.a quad = 255.
Proof.
  intros draw quad H1 H2 H3. subst quad. rewrite make_quad_run.
  cbn [fst quad_at QuadVertex.r QuadVertex.g QuadVertex.b QuadVertex.a].
  fold (draw 1%nat) (draw 2%nat) (draw 3%nat).
  rewrite !channel_of_draw_value by assumption. repeat split.
Qed.

Lemma colour_is_draw_mod_128_witness :
  let rs := fun (seed : Z) (n : nat) => 200 * Z.of_nat n + 127 in
  let quad := fst (make_quad 32767 rs 10 10 0 0 initial_world) in
  QuadVertex.r quad = 96 + 327 mod 128 /\
  QuadVertex.g quad = 96 + 527 mod 128 /\
  QuadVertex.b quad = 96 + 727 mod 128 /\
  QuadVertex.a quad = 255.
Proof.
  intros rs quad.
  apply (colour_is_draw_mod_128 32767 rs 10 10 0 0 initial_world);
    cbn; lia.
Defined.

(** ** The size grows with the draw *)

Lemma nearest_self x : nearest F32.prec F32.emax x x.
Proof. intros g _. split; intros H; split; lra. Qed.

Lemma rounded_zero x :
  (x == 0)%Q -> rounded F32.prec F32.emax false x (S754_zero false).
Proof.
  intros E. cbn [rounded]. split; [reflexivity|].
  intros g _. split; intros H; split; lra.
Qed.

Lemma rounded_self m e x :
  bounded F32.prec F32.emax m e = true ->
  (x == inject_Z (Zpos m) * bpow e)%Q ->
  rounded F32.prec F32.emax false x (S754_finite false m e).
Proof.
  intros Hb E. cbn [rounded]. split; [reflexivity|]. split; [exact Hb|].
  intros g _. split; intros H; split; lra.
Qed.

Lemma nonneg_mag f : nonneg f -> (0 <= mag f)%Q.
Proof.
  intros [->|(m & e & -> & _)]; cbn [mag]; [lra|].
  apply Qmult_le_0_compat; [now apply inject_Z_nonneg|].
  apply Qlt_le_weak, bpow_pos.
Qed.

Lemma nonneg_to_Q f : nonneg f -> F32.to_Q f = mag f.
Proof. intros [->|(m & e & -> & _)]; reflexivity. Qed.

Lemma nonneg_finite f : nonneg f -> F32.finite f = true.
Proof. intros [->|(m & e & -> & Hb)]; [reflexivity|exact Hb]. Qed.

(** A non-negative float is determined by its value. *)
Lemma nonneg_eq f f' :
  nonneg f -> nonneg f' -> (mag f == mag f')%Q -> f = f'.
Proof.
  intros [->|(m & e & -> & Hb)] [->|(m' & e' & -> & Hb')] E;
    cbn [mag] in E; try reflexivity.
  - exfalso.
    assert (0 < inject_Z (Zpos m') * bpow e')%Q.
    { apply Qmult_lt_0_compat; [now apply inject_Z_pos|apply bpow_pos]. }
    lra.
  - exfalso.
    assert (0 < inject_Z (Zpos m) * bpow e)%Q.
    { apply Qmult_lt_0_compat; [now apply inject_Z_pos|apply bpow_pos]. }
    lra.
  - apply (bounded_canonical F32.prec F32.emax) in Hb, Hb'.
    destruct (canonical_unique F32.prec F32.emax F32_prec_gt_0
                (Zpos m) e (Zpos m') e' (proj1 Hb) (proj1 Hb') E) as [Em Ee].
    injection Em as ->. now subst.
Qed.

(** An operation that rounds a monotone function of its operand is
    monotone on the non-negative floats. *)
Lemma rounded_op_mono (op : spec_float -> spec_float) (g : Q -> Q)
    (bound : Q) :
  (forall a, nonneg a -> (mag a <= bound)%Q ->
     rounded F32.prec F32.emax false (g (mag a)) (op a)) ->
  (forall x y, (x < y)%Q -> (g x < g y)%Q) ->
  forall a1 a2, nonneg a1 -> nonneg a2 ->
    (mag a1 <= mag a2)%Q -> (mag a2 <= bound)%Q ->
    nonneg (op a1) /\ nonneg (op a2) /\ (mag (op a1) <= mag (op a2))%Q.
Proof.
  intros Hop Hg a1 a2 N1 N2 Hle Hb.
  pose proof (Hop a1 N1 ltac:(lra)) as R1.
  pose proof (Hop a2 N2 Hb) as R2.
  split; [exact (rounded_false_cases _ _ R1)|].
  split; [exact (rounded_false_cases _ _ R2)|].
  destruct (Qlt_le_dec (mag a1) (mag a2)) as [Hlt|Hge].
  - exact (rounded_mono _ _ _ _ _ _ _ _ R1 R2 (Hg _ _ Hlt)).
  - assert (E : a1 = a2) by (apply nonneg_eq; try assumption; lra).
    subst. lra.
Qed.

(** The three steps of [0.05f + ((float) v / (float) RAND_MAX) * 0.04f]. *)
Lemma quotient_rounded mb eb a :
  bounded F32.prec F32.emax mb eb = true ->
  nonneg a -> (mag a <= inject_Z (Zpos mb) * bpow eb)%Q ->
  rounded F32.prec F32.emax false (mag a / (inject_Z (Zpos mb) * bpow eb))
    (F32.div a (S754_finite false mb eb)).
Proof.
  intros Hb [->|(m & e & -> & Ha)] Hle; cbn [mag] in *.
  - apply rounded_zero. unfold Qdiv. ring.
  - assert (Hpos : (0 < inject_Z (Zpos mb) * bpow eb)%Q).
    { apply Qmult_lt_0_compat; [now apply inject_Z_pos|apply bpow_pos]. }
    apply (SFdiv_nearest F32.prec F32.emax F32_prec_gt_0
             false m e false mb eb 1%Q).
    + right. exists 8388608%positive, (-23). now split.
    + apply Qle_shift_div_r; lra.
Qed.

Lemma product_rounded a :
  nonneg a -> (mag a <= 1)%Q ->
  rounded F32.prec F32.emax false (mag a * mag F32.c0_04)
    (F32.mul a F32.c0_04).
Proof.
  intros [->|(m & e & -> & Ha)] Hle; cbn [mag] in Hle.
  - apply rounded_zero. cbn [mag]. ring.
  - assert (Hpos : (0 < inject_Z (Zpos m) * bpow e)%Q).
    { apply Qmult_lt_0_compat; [now apply inject_Z_pos|apply bpow_pos]. }
    assert (H4 : (0 < mag F32.c0_04)%Q) by reflexivity.
    apply (SFmul_nearest F32.prec F32.emax F32_prec_gt_0 F32_prec_lt_emax
             false m e false 10737418 (-28) (mag F32.c0_04) Ha eq_refl
             (representable_float false 10737418 (-28) eq_refl)).
    change (inject_Z 10737418 * bpow (-28))%Q with (mag F32.c0_04). nra.
Qed.

Lemma sum_rounded a :
  nonneg a -> (mag a <= mag F32.c0_04)%Q ->
  rounded F32.prec F32.emax false (mag F32.c0_05 + mag a)
    (F32.add F32.c0_05 a).
Proof.
  intros [->|(m & e & -> & Ha)] Hle; cbn [mag] in Hle.
  - apply (rounded_self 13421773 (-28)); [reflexivity|].
    unfold F32.c0_05. cbn [mag]. ring.
  - assert (H4 : (mag F32.c0_04 == 10737418 # 268435456)%Q) by reflexivity.
    assert (H5 : (inject_Z 13421773 * bpow (-28) == 13421773 # 268435456)%Q)
      by reflexivity.
    assert (H9 : (mag F32.c0_09 == 24159192 # 268435456)%Q) by reflexivity.
    apply (SFadd_nearest F32.prec F32.emax F32_prec_gt_0
             13421773 (-28) m e (mag F32.c0_09)
             (representable_float false 12079596 (-27) eq_refl)).
    lra.
Qed.

Lemma of_Z_nonneg v :
  0 <= v <= 2 ^ 31 -> nonneg (F32.of_Z v).
Proof.
  intros Hv. destruct (Z.eq_dec v 0) as [->|Hn]; [now left|].
  destruct (of_Z_positive v ltac:(lia)) as (m & e & E & Hb & _).
  right. now exists m, e.
Qed.

(** The size is a monotone function of the value that [rand] returns. *)
Lemma size_of_draw_mono RAND_MAX v1 v2 :
  0 < RAND_MAX < 2 ^ 31 -> 0 <= v1 <= v2 -> v2 <= RAND_MAX ->
  (F32.to_Q (size_of_draw RAND_MAX v1) <=
   F32.to_Q (size_of_draw RAND_MAX v2))%Q.
Proof.
  intros HR H12 H2. unfold size_of_draw.
  destruct (of_Z_positive RAND_MAX ltac:(lia)) as (mb & eb & Eb & Bb & Hb1).
  rewrite Eb in *. cbn [mag] in Hb1.
  assert (Hpos : (0 < inject_Z (Zpos mb) * bpow eb)%Q) by lra.
  pose proof (of_Z_nonneg v1 ltac:(lia)) as N1.
  pose proof (of_Z_nonneg v2 ltac:(lia)) as N2.
  assert (Hm : (mag (F32.of_Z v1) <= mag (F32.of_Z v2))%Q).
  { destruct (Z.eq_dec v1 0) as [->|Hn]; [now apply nonneg_mag|].
    apply of_Z_mono; lia. }
  assert (Hm2 : (mag (F32.of_Z v2) <= inject_Z (Zpos mb) * bpow eb)%Q).
  { destruct (Z.eq_dec v2 0) as [->|Hn]; [cbn [mag F32.of_Z binary_normalize]; lra|].
    pose proof (of_Z_mono v2 RAND_MAX ltac:(lia) ltac:(lia)) as H.
    rewrite Eb in H. exact H. }
  (* the quotient *)
  destruct (rounded_op_mono
              (fun a => F32.div a (S754_finite false mb eb))
              (fun x => x / (inject_Z (Zpos mb) * bpow eb))%Q
              (inject_Z (Zpos mb) * bpow eb)%Q
              (fun a => quotient_rounded mb eb a Bb)) with (a1 := F32.of_Z v1)
              (a2 := F32.of_Z v2) as (Q1 & Q2 & Qle); try assumption.
  { intros x y Hxy. apply Qmult_lt_compat_r; [|exact Hxy].
    apply Qinv_lt_0_compat. exact Hpos. }
  assert (Qb : (mag (F32.div (F32.of_Z v2) (S754_finite false mb eb)) <= 1)%Q).
  { pose proof (quotient_rounded mb eb _ Bb N2 Hm2) as R.
    apply (rounded_between F32.prec F32.emax false _ _ 0 1 R).
    - apply representable_zero.
    - right. exists 8388608%positive, (-23). now split.
    - pose proof (nonneg_mag _ N2). split.
      + apply Qle_shift_div_l; lra.
      + apply Qle_shift_div_r; lra. }
  (* times 0.04f *)
  assert (H4 : (0 < mag F32.c0_04)%Q) by reflexivity.
  destruct (rounded_op_mono (fun a => F32.mul a F32.c0_04)
              (fun x => x * mag F32.c0_04)%Q 1%Q product_rounded)
    with (a1 := F32.div (F32.of_Z v1) (S754_finite false mb eb))
         (a2 := F32.div (F32.of_Z v2) (S754_finite false mb eb))
    as (T1 & T2 & Tle); try assumption.
  { intros x y Hxy. apply Qmult_lt_compat_r; assumption. }
  assert (Tb : (mag (F32.mul (F32.div (F32.of_Z v2) (S754_finite false mb eb))
                       F32.c0_04) <= mag F32.c0_04)%Q).
  { pose proof (product_rounded _ Q2 Qb) as R.
    apply (rounded_between F32.prec F32.emax false _ _ 0 (mag F32.c0_04) R).
    - apply representable_zero.
    - now apply representable_float.
    - pose proof (nonneg_mag _ Q2). split; nra. }
  (* plus 0.05f *)
  destruct (rounded_op_mono (fun a => F32.add F32.c0_05 a)
              (fun x => mag F32.c0_05 + x)%Q (mag F32.c0_04) sum_rounded)
    with (a1 := F32.mul (F32.div (F32.of_Z v1) (S754_finite false mb eb))
                  F32.c0_04)
         (a2 := F32.mul (F32.div (F32.of_Z v2) (S754_finite false mb eb))
                  F32.c0_04)
    as (S1 & S2 & Sle); try assumption.
  { intros x y Hxy. lra. }
  rewrite (nonneg_to_Q _ S1), (nonneg_to_Q _ S2). exact Sle.
Qed.

(** The size of a record grows with the value that [rand] returned for
    it: of two records the one with the larger draw is not the smaller
    one, and the draw 0 gives the size 0.05f itself. *)
Theorem size_grows_with_draw (RAND_MAX : Z) (rand_sequence : Z -> nat -> Z)
    (rows columns row1 column1 row2 column2 : nat) (w1 w2 : World) :
  0 < RAND_MAX < 2 ^ 31 ->
  let v1 := rand_sequence (rand_seed w1) (rand_calls w1) in
  let v2 := rand_sequence (rand_seed w2) (rand_calls w2) in
  let size1 :=
    QuadVertex.size
      (fst (make_quad RAND_MAX rand_sequence rows columns row1 column1 w1)) in
  let size2 :=
    QuadVertex.size
      (fst (make_quad RAND_MAX rand_sequence rows columns row2 column2 w2)) in
  0 <= v1 <= v2 -> v2 <= RAND_MAX ->
  (F32.to_Q size1 <= F32.to_Q size2)%Q /\
  (v1 = 0 -> size1 = F32.c0_05).
Proof.
  intros HR v1 v2 size1 size2 H12 H2. subst size1 size2.
  rewrite !make_quad_run. cbn [fst quad_at QuadVertex.size].
  fold v1 v2. split.
  - now apply size_of_draw_mono.
  - intros ->. unfold size_of_draw.
    destruct (of_Z_positive RAND_MAX ltac:(lia)) as (mb & eb & Eb & _).
    rewrite Eb. reflexivity.
Qed.

Lemma size_grows_with_draw_witness :
  let rs := fun (seed : Z) (n : nat) => 1000 * seed in
  let w1 := initial_world in
  let w2 := snd (srand 7 initial_world) in
  (F32.to_Q (QuadVertex.size (fst (make_quad 32767 rs 10 10 0 0 w1))) <=
   F32.to_Q (QuadVertex.size (fst (make_quad 32767 rs 10 10 3 4 w2))))%Q.
Proof.
  intros rs w1 w2.
  refine (proj1 (size_grows_with_draw 32767 rs 10 10 0 0 3 4 w1 w2 _ _ _)).
  - lia.
  - cbn. lia.
  - cbn. lia.
Defined.

(** ** Each centre lies in its own cell *)

Lemma representable_ext v v' :
  (v == v')%Q -> representable F32.prec F32.emax v ->
  representable F32.prec F32.emax v'.
Proof.
  intros E [H|(m & e & Hb & H)]; [left|right; exists m, e; split; auto];
    now rewrite <- E.
Qed.

(** The multiples of [2^e] up to [2^24 * 2^e] are numbers of the
    format. *)
Lemma representable_grid k e :
  0 <= k <= 2 ^ 24 -> -149 <= e <= 99 ->
  representable F32.prec F32.emax (inject_Z k * bpow e).
Proof.
  intros Hk He.
  destruct (Z.eq_dec k 0) as [->|H0]; [left; ring|].
  destruct (Z.eq_dec k (2 ^ 24)) as [->|H1].
  - apply (representable_ext (inject_Z (2 ^ 23) * bpow (e + 1))).
    + rewrite bpow_add. change (bpow 1) with 2%Q.
      change (inject_Z (2 ^ 24)) with (inject_Z (2 ^ 23) * 2)%Q. ring.
    + apply representable_int; lia.
  - apply representable_int; lia.
Qed.

(** A number rounded to nearest is off by at most half a step of the
    grid that surrounds it. *)
Lemma rounded_grid_error s x f e :
  rounded F32.prec F32.emax s x f ->
  -149 <= e <= 99 ->
  (0 <= x <= inject_Z (2 ^ 24) * bpow e)%Q ->
  (2 * (mag f - x) <= bpow e /\ 2 * (x - mag f) <= bpow e)%Q.
Proof.
  intros Hr He [Hx0 Hx1].
  pose proof (bpow_pos e) as Hu.
  set (y := (x / bpow e)%Q).
  assert (Ey : (x == y * bpow e)%Q) by (unfold y; field; lra).
  set (k := Qfloor y).
  pose proof (Qfloor_le y) as F1. pose proof (Qlt_floor y) as F2.
  fold k in F1, F2.
  assert (Hk1 : (inject_Z k * bpow e <= x)%Q) by nra.
  assert (Hk2 : (x < inject_Z (k + 1) * bpow e)%Q) by nra.
  assert (Hy0 : (0 <= y)%Q).
  { unfold y. apply Qle_shift_div_l; [exact Hu|]. lra. }
  assert (Hy1 : (y <= inject_Z (2 ^ 24))%Q).
  { unfold y. apply Qle_shift_div_r; [exact Hu|]. exact Hx1. }
  assert (Hk0 : 0 <= k).
  { change 0 with (Qfloor 0). apply Qfloor_resp_le. exact Hy0. }
  assert (Hk24 : k <= 2 ^ 24).
  { rewrite <- (Qfloor_Z (2 ^ 24)). apply Qfloor_resp_le. exact Hy1. }
  pose proof (rounded_nearest _ _ _ _ _ Hr) as N.
  destruct (Z.eq_dec k (2 ^ 24)) as [Ek|Nk].
  - assert (E : (x == inject_Z (2 ^ 24) * bpow e)%Q).
    { rewrite Ek in Hk1. lra. }
    assert (R : representable F32.prec F32.emax x).
    { apply (representable_ext (inject_Z (2 ^ 24) * bpow e));
        [now symmetry|]. apply representable_grid; lia. }
    pose proof (rounded_exact _ _ _ _ _ Hr R). lra.
  - destruct (N _ (representable_grid k e ltac:(lia) He)) as [Lo _].
    destruct (N _ (representable_grid (k + 1) e ltac:(lia) He)) as [_ Hi].
    destruct (Lo Hk1) as [L1 L2]. destruct (Hi ltac:(lra)) as [U1 U2].
    rewrite inject_Z_plus in *. change (inject_Z 1) with 1%Q in *.
    split; lra.
Qed.

(** The centre of cell [i] of [n], for [n] up to [2^23], lies strictly
    inside the cell: between [2 i / n - 1] and [2 (i + 1) / n - 1]. *)
Lemma cell_centre_in_cell (n i : nat) :
  (i < n)%nat -> Z.of_nat n <= 8388608 ->
  F32.finite (cell_centre n i) = true /\
  (inject_Z (2 * Z.of_nat i) / inject_Z (Z.of_nat n) - 1 <
   F32.to_Q (cell_centre n i) <
   inject_Z (2 * (Z.of_nat i + 1)) / inject_Z (Z.of_nat n) - 1)%Q.
Proof.
  intros Hi Hn. unfold cell_centre.
  destruct (twice_half_plus_exact (Z.of_nat i) ltac:(lia))
    as (m2 & e2 & E2 & B2 & V2).
  destruct (of_Z_exact (Z.of_nat n) ltac:(lia)) as (mn & en & En & Bn & Vn).
  rewrite E2, En in *. cbn [mag] in Vn.
  rewrite !inject_Z_mult, inject_Z_plus.
  rewrite inject_Z_plus, inject_Z_mult in V2.
  set (a := inject_Z (Z.of_nat i)) in *. set (b := inject_Z (Z.of_nat n)) in *.
  change (inject_Z 2) with 2%Q in *. change (inject_Z 1) with 1%Q in *.
  assert (Ha : (0 <= a)%Q) by (apply inject_Z_nonneg; lia).
  assert (Hab : (a + 1 <= b)%Q).
  { unfold a, b. change 1%Q with (inject_Z 1).
    rewrite <- inject_Z_plus, <- Zle_Qle. lia. }
  assert (Hb : (b <= 8388608)%Q).
  { unfold b. change 8388608%Q with (inject_Z 8388608).
    rewrite <- Zle_Qle. lia. }
  (* everything in terms of t = 1 / b *)
  set (t := (/ b)%Q).
  assert (Ht : (1 # 8388608 <= t)%Q).
  { unfold t. change (/ b)%Q with (Qinv b).
    apply Qle_shift_inv_l; lra. }
  assert (Hbt : (b * t == 1)%Q) by (unfold t; field; lra).
  assert (Hat : (a * t + t <= 1)%Q) by nra.
  assert (Hat0 : (0 <= a * t)%Q) by nra.
  unfold Qdiv. fold t.
  set (x := (inject_Z (Zpos m2) * bpow e2 *
             / (inject_Z (Zpos mn) * bpow en))%Q).
  assert (Ex : (x == 2 * (a * t) + t)%Q).
  { unfold x. rewrite V2, Vn. unfold t. field. lra. }
  set (hi := (16777215 # 8388608)%Q).
  assert (Rhi : representable F32.prec F32.emax hi).
  { right. exists 16777215%positive, (-23). now split. }
  assert (Hxhi : (x <= hi)%Q) by (unfold hi; lra).
  pose proof (SFdiv_nearest F32.prec F32.emax F32_prec_gt_0
                false m2 e2 false mn en hi Rhi Hxhi) as Hr.
  cbn [xorb] in Hr. fold x in Hr.
  assert (H23 : (bpow (-23) == 1 # 8388608)%Q) by reflexivity.
  assert (H24 : (bpow (-24) == 1 # 16777216)%Q) by reflexivity.
  destruct (rounded_grid_error false x _ (-23) Hr ltac:(lia)) as [G1 G2].
  { change (inject_Z (2 ^ 24) * bpow (-23))%Q with (16777216 # 8388608)%Q.
    unfold hi in *. split; lra. }
  assert (Hx0 : (0 <= x <= hi)%Q) by (split; lra).
  pose proof (rounded_between F32.prec F32.emax false _ _ 0 hi Hr
                representable_zero Rhi Hx0) as Hm.
  destruct (rounded_false_cases _ _ Hr) as [Ez|(mq & eq & Eq & Bq)];
    unfold F32.div in *; fold x in Hr, G1, G2, Hm.
  - (* a quotient that rounds to zero cannot occur *)
    exfalso. rewrite Ez in *. cbn [mag] in *. lra.
  - rewrite Eq in *. cbn [mag] in *.
    set (q := (inject_Z (Zpos mq) * bpow eq)%Q) in *.
    assert (R1 : representable F32.prec F32.emax 1).
    { right. exists 8388608%positive, (-23). now split. }
    assert (H1 : (inject_Z 8388608 * bpow (-23) == 1)%Q) by reflexivity.
    destruct (SFsub_nearest F32.prec F32.emax F32_prec_gt_0
                mq eq 8388608 (-23) 1%Q R1) as [[Hs Er]|[[Hs Hr']|[Hs Hr']]].
    + fold q. unfold hi in *. split; lra.
    + unfold F32.sub, F32.one. rewrite Er. split; [reflexivity|].
      cbn [F32.to_Q]. fold q in Hs. split; lra.
    + fold q in Hs, Hr'.
      destruct (rounded_grid_error false _ _ (-24) Hr' ltac:(lia))
        as [D1 D2].
      { change (inject_Z (2 ^ 24) * bpow (-24))%Q with (16777216 # 16777216)%Q.
        unfold hi in *. split; lra. }
      pose proof (rounded_false_cases _ _ Hr') as Nr.
      unfold F32.sub, F32.one.
      rewrite (nonneg_to_Q _ Nr). split; [exact (nonneg_finite _ Nr)|].
      split; lra.
    + fold q in Hs, Hr'.
      destruct (rounded_grid_error true _ _ (-24) Hr' ltac:(lia))
        as [D1 D2].
      { change (inject_Z (2 ^ 24) * bpow (-24))%Q with (16777216 # 16777216)%Q.
        split; lra. }
      unfold F32.sub, F32.one.
      destruct (SFsub F32.prec F32.emax (S754_finite false mq eq)
                  (S754_finite false 8388608 (-23))) as [s0| | |s0 m e] eqn:Es;
        cbn [rounded] in Hr'; try tauto; cbn [mag] in D1, D2.
      * split; [reflexivity|]. cbn [F32.to_Q]. split; lra.
      * destruct Hr' as (-> & Hbd & _). split; [exact Hbd|].
        cbn [F32.to_Q].
        change (inject_Z (Zneg m)) with (inject_Z (- Zpos m)).
        rewrite inject_Z_opp. split; lra.
Qed.

(** Centres grow strictly along an axis. *)
Lemma cell_centre_increasing (n i j : nat) :
  (i < j)%nat -> (j < n)%nat -> Z.of_nat n <= 8388608 ->
  (F32.to_Q (cell_centre n i) < F32.to_Q (cell_centre n j))%Q.
Proof.
  intros Hij Hj Hn.
  destruct (cell_centre_in_cell n i ltac:(lia) Hn) as [_ [_ Hi]].
  destruct (cell_centre_in_cell n j Hj Hn) as [_ [Lj _]].
  assert (Hb : (0 < inject_Z (Z.of_nat n))%Q) by (apply inject_Z_pos; lia).
  assert (H : (inject_Z (2 * (Z.of_nat i + 1)) / inject_Z (Z.of_nat n) <=
               inject_Z (2 * Z.of_nat j) / inject_Z (Z.of_nat n))%Q).
  { apply Qmult_le_compat_r.
    - rewrite <- Zle_Qle. lia.
    - apply Qlt_le_weak, Qinv_lt_0_compat, Hb. }
  lra.
Qed.

(** Every record lies strictly inside its own grid cell. On a grid of up
    to [2^23] rows and columns, where the cells of an axis divide the
    interval from -1 to 1 evenly, the record of cell [(row, column)] has
    its [x] strictly between the left and the right edge of column
    [column] and its [y] strictly between the edges of row [row]. *)
Theorem record_inside_its_cell (RAND_MAX : Z)
    (rand_sequence : Z -> nat -> Z) (rows columns row column : nat)
    (w : World) (quad : QuadVertex.t) :
  Z.of_nat rows <= 8388608 -> Z.of_nat columns <= 8388608 ->
  (row < rows)%nat -> (column < columns)%nat ->
  nth_error (fst (fill_quadData RAND_MAX rand_sequence rows columns [] w))
    (row * columns + column) = Some quad ->
  (inject_Z (2 * Z.of_nat column) / inject_Z (Z.of_nat columns) - 1 <
   F32.to_Q (QuadVertex.x quad) <
   inject_Z (2 * (Z.of_nat column + 1)) / inject_Z (Z.of_nat columns) - 1)%Q /\
  (inject_Z (2 * Z.of_nat row) / inject_Z (Z.of_nat rows) - 1 <
   F32.to_Q (QuadVertex.y quad) <
   inject_Z (2 * (Z.of_nat row + 1)) / inject_Z (Z.of_nat rows) - 1)%Q.
Proof.
  intros Hr Hc Hrow Hcol Hq.
  rewrite fill_quadData_run in Hq. cbn [fst] in Hq.
  rewrite grid_at_nth in Hq by assumption. injection Hq as <-.
  cbn [quad_at QuadVertex.x QuadVertex.y]. split.
  - exact (proj2 (cell_centre_in_cell columns column Hcol Hc)).
  - exact (proj2 (cell_centre_in_cell rows row Hrow Hr)).
Qed.

Lemma record_inside_its_cell_witness :
  let quad :=
    nth 11 (fst (fill_quadData 32767 sample_rand 3 7 [] initial_world))
      QuadVertex.zero in
  ((8 # 7) - 1 < F32.to_Q (QuadVertex.x quad) < (10 # 7) - 1)%Q /\
  ((2 # 3) - 1 < F32.to_Q (QuadVertex.y quad) < (4 # 3) - 1)%Q.
Proof.
  intros quad.
  apply (record_inside_its_cell 32767 sample_rand 3 7 1 4 initial_world quad).
  - cbn. lia.
  - cbn. lia.
  - lia.
  - lia.
  - now vm_compute.
Defined.

(** No two records share a position. On a grid of up to [2^23] rows and
    columns, [x] grows strictly with the column and [y] grows strictly
    with the row, so the records of different cells differ in [x] or in
    [y]. *)
Theorem positions_strictly_ordered (RAND_MAX : Z)
    (rand_sequence : Z -> nat -> Z) (rows columns : nat) (w : World)
    (row1 column1 row2 column2 : nat) (quad1 quad2 : QuadVertex.t) :
  Z.of_nat rows <= 8388608 -> Z.of_nat columns <= 8388608 ->
  (row1 < rows)%nat -> (column1 < columns)%nat ->
  (row2 < rows)%nat -> (column2 < columns)%nat ->
  let quadData :=
    fst (fill_quadData RAND_MAX rand_sequence rows columns [] w) in
  nth_error quadData (row1 * columns + column1) = Some quad1 ->
  nth_error quadData (row2 * columns + column2) = Some quad2 ->
  ((column1 < column2)%nat ->
   (F32.to_Q (QuadVertex.x quad1) < F32.to_Q (QuadVertex.x quad2))%Q) /\
  ((row1 < row2)%nat ->
   (F32.to_Q (QuadVertex.y quad1) < F32.to_Q (QuadVertex.y quad2))%Q) /\
  ((row1, column1) <> (row2, column2) ->
   (QuadVertex.x quad1, QuadVertex.y quad1) <>
   (QuadVertex.x quad2, QuadVertex.y quad2)).
Proof.
  intros Hr Hc Hr1 Hc1 Hr2 Hc2 quadData H1 H2. subst quadData.
  rewrite fill_quadData_run in H1, H2. cbn [fst] in H1, H2.
  rewrite grid_at_nth in H1, H2 by assumption.
  injection H1 as <-. injection H2 as <-.
  cbn [quad_at QuadVertex.x QuadVertex.y].
  assert (X : (column1 < column2)%nat ->
              (F32.to_Q (cell_centre columns column1) <
               F32.to_Q (cell_centre columns column2))%Q).
  { intros H. now apply cell_centre_increasing. }
  assert (Y : (row1 < row2)%nat ->
              (F32.to_Q (cell_centre rows row1) <
               F32.to_Q (cell_centre rows row2))%Q).
  { intros H. now apply cell_centre_increasing. }
  split; [exact X|]. split; [exact Y|].
  intros Hne Heq. injection Heq as Ex Ey.
  assert (X' : (column2 < column1)%nat ->
               (F32.to_Q (cell_centre columns column2) <
                F32.to_Q (cell_centre columns column1))%Q).
  { intros H. now apply cell_centre_increasing. }
  assert (Y' : (row2 < row1)%nat ->
               (F32.to_Q (cell_centre rows row2) <
                F32.to_Q (cell_centre rows row1))%Q).
  { intros H. now apply cell_centre_increasing. }
  rewrite Ex in *. rewrite Ey in *.
  destruct (Nat.lt_trichotomy column1 column2) as [H|[H|H]].
  - specialize (X H). lra.
  - destruct (Nat.lt_trichotomy row1 row2) as [H'|[H'|H']].
    + specialize (Y H'). lra.
    + apply Hne. now subst.
    + specialize (Y' H'). lra.
  - specialize (X' H). lra.
Qed.

Lemma positions_strictly_ordered_witness :
  let quadData :=
    fst (fill_quadData 32767 sample_rand 3 7 [] initial_world) in
  let quad1 := nth 11 quadData QuadVertex.zero in
  let quad2 := nth 19 quadData QuadVertex.zero in
  (F32.to_Q (QuadVertex.x quad1) < F32.to_Q (QuadVertex.x quad2))%Q /\
  (F32.to_Q (QuadVertex.y quad1) < F32.to_Q (QuadVertex.y quad2))%Q.
Proof.
  intros quadData quad1 quad2.
  destruct (positions_strictly_ordered 32767 sample_rand 3 7 initial_world
              1 4 2 5 quad1 quad2) as (X & Y & _).
  - cbn. lia.
  - cbn. lia.
  - lia.
  - lia.
  - lia.
  - lia.
  - now vm_compute.
  - now vm_compute.
  - split; [apply X|apply Y]; lia.
Defined.

(** ** The centres and the rational formula *)

(** The centre of cell [i] of [n], for [n] up to [2^23], is within
    [3 * 2^-25] of the rational number [2 (1/2 + i) / n - 1]: the
    quotient is off by at most [2^-24] and the difference by at most
    [2^-25]; the sum [0.5f + i] and the product with [2.0f] are exact. *)
Lemma cell_centre_near (n i : nat) :
  (i < n)%nat -> Z.of_nat n <= 8388608 ->
  F32.finite (cell_centre n i) = true /\
  (Qabs (F32.to_Q (cell_centre n i) -
         (2 * ((1 # 2) + inject_Z (Z.of_nat i)) / inject_Z (Z.of_nat n) - 1))
   <= 3 # 33554432)%Q.
Proof.
  intros Hi Hn. unfold cell_centre.
  destruct (twice_half_plus_exact (Z.of_nat i) ltac:(lia))
    as (m2 & e2 & E2 & B2 & V2).
  destruct (of_Z_exact (Z.of_nat n) ltac:(lia)) as (mn & en & En & Bn & Vn).
  rewrite E2, En in *. cbn [mag] in Vn.
  rewrite inject_Z_plus, inject_Z_mult in V2.
  set (a := inject_Z (Z.of_nat i)) in *. set (b := inject_Z (Z.of_nat n)) in *.
  change (inject_Z 2) with 2%Q in *. change (inject_Z 1) with 1%Q in *.
  assert (Ha : (0 <= a)%Q) by (apply inject_Z_nonneg; lia).
  assert (Hab : (a + 1 <= b)%Q).
  { unfold a, b. change 1%Q with (inject_Z 1).
    rewrite <- inject_Z_plus, <- Zle_Qle. lia. }
  assert (Hb : (b <= 8388608)%Q).
  { unfold b. change 8388608%Q with (inject_Z 8388608).
    rewrite <- Zle_Qle. lia. }
  set (t := (/ b)%Q).
  assert (Ht : (1 # 8388608 <= t)%Q).
  { unfold t. change (/ b)%Q with (Qinv b).
    apply Qle_shift_inv_l; lra. }
  assert (Hbt : (b * t == 1)%Q) by (unfold t; field; lra).
  assert (Hat : (a * t + t <= 1)%Q) by nra.
  assert (Hat0 : (0 <= a * t)%Q) by nra.
  unfold Qdiv. fold t.
  set (x := (inject_Z (Zpos m2) * bpow e2 *
             / (inject_Z (Zpos mn) * bpow en))%Q).
  assert (Ex : (x == 2 * (a * t) + t)%Q).
  { unfold x. rewrite V2, Vn. unfold t. field. lra. }
  set (hi := (16777215 # 8388608)%Q).
  assert (Rhi : representable F32.prec F32.emax hi).
  { right. exists 16777215%positive, (-23). now split. }
  assert (Hxhi : (x <= hi)%Q) by (unfold hi; lra).
  pose proof (SFdiv_nearest F32.prec F32.emax F32_prec_gt_0
                false m2 e2 false mn en hi Rhi Hxhi) as Hr.
  cbn [xorb] in Hr. fold x in Hr.
  assert (H23 : (bpow (-23) == 1 # 8388608)%Q) by reflexivity.
  assert (H24 : (bpow (-24) == 1 # 16777216)%Q) by reflexivity.
  destruct (rounded_grid_error false x _ (-23) Hr ltac:(lia)) as [G1 G2].
  { change (inject_Z (2 ^ 24) * bpow (-23))%Q with (16777216 # 8388608)%Q.
    unfold hi in *. split; lra. }
  assert (Hx0 : (0 <= x <= hi)%Q) by (split; lra).
  pose proof (rounded_between F32.prec F32.emax false _ _ 0 hi Hr
                representable_zero Rhi Hx0) as Hm.
  destruct (rounded_false_cases _ _ Hr) as [Ez|(mq & eq & Eq & Bq)];
    unfold F32.div in *; fold x in Hr, G1, G2, Hm.
  - exfalso. rewrite Ez in *. cbn [mag] in *. lra.
  - rewrite Eq in *. cbn [mag] in *.
    set (q := (inject_Z (Zpos mq) * bpow eq)%Q) in *.
    assert (R1 : representable F32.prec F32.emax 1).
    { right. exists 8388608%positive, (-23). now split. }
    assert (H1 : (inject_Z 8388608 * bpow (-23) == 1)%Q) by reflexivity.
    destruct (SFsub_nearest F32.prec F32.emax F32_prec_gt_0
                mq eq 8388608 (-23) 1%Q R1) as [[Hs Er]|[[Hs Hr']|[Hs Hr']]].
    + fold q. unfold hi in *. split; lra.
    + unfold F32.sub, F32.one. rewrite Er. split; [reflexivity|].
      cbn [F32.to_Q]. fold q in Hs.
      apply Qabs_Qle_condition. split; lra.
    + fold q in Hs, Hr'.
      destruct (rounded_grid_error false _ _ (-24) Hr' ltac:(lia))
        as [D1 D2].
      { change (inject_Z (2 ^ 24) * bpow (-24))%Q with (16777216 # 16777216)%Q.
        unfold hi in *. split; lra. }
      pose proof (rounded_false_cases _ _ Hr') as Nr.
      unfold F32.sub, F32.one.
      rewrite (nonneg_to_Q _ Nr). split; [exact (nonneg_finite _ Nr)|].
      apply Qabs_Qle_condition. split; lra.
    + fold q in Hs, Hr'.
      destruct (rounded_grid_error true _ _ (-24) Hr' ltac:(lia))
        as [D1 D2].
      { change (inject_Z (2 ^ 24) * bpow (-24))%Q with (16777216 # 16777216)%Q.
        split; lra. }
      unfold F32.sub, F32.one.
      destruct (SFsub F32.prec F32.emax (S754_finite false mq eq)
                  (S754_finite false 8388608 (-23))) as [s0| | |s0 m e] eqn:Es;
        cbn [rounded] in Hr'; try tauto; cbn [mag] in D1, D2.
      * split; [reflexivity|]. cbn [F32.to_Q].
        apply Qabs_Qle_condition. split; lra.
      * destruct Hr' as (-> & Hbd & _). split; [exact Hbd|].
        cbn [F32.to_Q].
        change (inject_Z (Zneg m)) with (inject_Z (- Zpos m)).
        rewrite inject_Z_opp. apply Qabs_Qle_condition. split; lra.
Qed.

(** ** The layout of the grid *)

Local Open Scope nat_scope.

(** C1 as stated fails: on the program's own grid the first record has
    [x = -7549747 / 8388608], which is not the rational number
    [2 * (0.5 + 0) / 10 - 1 = -9/10] but the result of the single
    precision operations; of the ten columns only the third and the
    eighth, with centres -1/2 and 1/2, have the rational value. *)
Lemma grid_centre_not_exact :
  let quadData :=
    fst (fill_quadData 32767 sample_rand kRows kColumns [] initial_world) in
  let quad := nth 0 quadData QuadVertex.zero in
  (F32.to_Q (QuadVertex.x quad) == - (7549747 # 8388608))%Q /\
  (2 * ((1 # 2) + inject_Z 0) / inject_Z 10 - 1 == - (9 # 10))%Q /\
  (- (9 # 10) < F32.to_Q (QuadVertex.x quad))%Q /\
  map (fun column =>
         Qeq_bool (F32.to_Q (cell_centre 10 column))
           (2 * ((1 # 2) + inject_Z (Z.of_nat column)) / inject_Z 10 - 1))
      (seq 0 10) =
  [false; false; true; false; false; false; false; true; false; false].
Proof. repeat split; vm_compute; reflexivity. Qed.

(** C1, as the code has it. For a grid of [rows] by [columns] cells the
    generator produces exactly [rows * columns] records in row-major
    order. The record of cell [(row, column)] has for [x] and [y] the
    single precision values of [2.0f * (0.5f + column) / (float) columns
    - 1.0f] and [2.0f * (0.5f + row) / (float) rows - 1.0f], every
    operation rounded to nearest; on grids of up to [2^23] rows and
    columns these are finite and within [3 * 2^-25] of the rational
    numbers [2 (0.5 + column) / columns - 1] and [2 (0.5 + row) / rows -
    1]. The position does not depend on the random values: with another
    generator, another [RAND_MAX] and another state of [rand] the record
    of the cell has the same [x] and [y]. *)
Theorem grid_layout_rounded (RAND_MAX RAND_MAX' : Z)
    (rand_sequence rand_sequence' : Z -> nat -> Z)
    (rows columns : nat) (w w' : World) :
  let quadData :=
    fst (fill_quadData RAND_MAX rand_sequence rows columns [] w) in
  let quadData' :=
    fst (fill_quadData RAND_MAX' rand_sequence' rows columns [] w') in
  List.length quadData = rows * columns /\
  forall row column, row < rows -> column < columns ->
    exists quad quad',
      nth_error quadData (row * columns + column) = Some quad /\
      nth_error quadData' (row * columns + column) = Some quad' /\
      QuadVertex.x quad = cell_centre columns column /\
      QuadVertex.y quad = cell_centre rows row /\
      QuadVertex.x quad' = QuadVertex.x quad /\
      QuadVertex.y quad' = QuadVertex.y quad /\
      ((Z.of_nat columns <= 8388608)%Z ->
       F32.finite (QuadVertex.x quad) = true /\
       (Qabs (F32.to_Q (QuadVertex.x quad) -
              (2 * ((1 # 2) + inject_Z (Z.of_nat column)) /
               inject_Z (Z.of_nat columns) - 1))
        <= 3 # 33554432)%Q) /\
      ((Z.of_nat rows <= 8388608)%Z ->
       F32.finite (QuadVertex.y quad) = true /\
       (Qabs (F32.to_Q (QuadVertex.y quad) -
              (2 * ((1 # 2) + inject_Z (Z.of_nat row)) /
               inject_Z (Z.of_nat rows) - 1))
        <= 3 # 33554432)%Q).
Proof.
  cbv zeta. rewrite !fill_quadData_run. cbn [fst]. split.
  - apply grid_at_length.
  - intros row column Hrow Hcol.
    eexists. eexists.
    split; [now apply grid_at_nth|]. split; [now apply grid_at_nth|].
    cbn [quad_at QuadVertex.x QuadVertex.y].
    do 4 (split; [reflexivity|]). split; intros H.
    + now apply cell_centre_near.
    + now apply cell_centre_near.
Qed.

Lemma grid_layout_rounded_witness :
  let quadData :=
    fst (fill_quadData 32767 sample_rand 10 10 [] initial_world) in
  List.length quadData = 100 /\
  exists quad,
    nth_error quadData (3 * 10 + 4) = Some quad /\
    QuadVertex.x quad = cell_centre 10 4 /\
    QuadVertex.y quad = cell_centre 10 3 /\
    (Qabs (F32.to_Q (QuadVertex.x quad) -
           (2 * ((1 # 2) + inject_Z 4) / inject_Z 10 - 1))
     <= 3 # 33554432)%Q.
Proof.
  intros quadData.
  destruct (grid_layout_rounded 32767 2147483647 sample_rand
              (fun _ n => Z.of_nat n) 10 10 initial_world initial_world)
    as [Hlen Hcell].
  split; [exact Hlen|].
  destruct (Hcell 3 4 ltac:(lia) ltac:(lia))
    as (quad & quad' & H1 & _ & Hx & Hy & _ & _ & Hnear & _).
  exists quad. split; [exact H1|]. split; [exact Hx|]. split; [exact Hy|].
  apply Hnear. cbn. lia.
Defined.
